(** * kube-lineage: the relationship resolution engine

    A shallow embedding of the graph package of kube-lineage
    ([src/unnamed/part_002] and [src/internal/graph/kubernetes.go]):
    unstructured objects, object keys, relationship maps, the object
    universe with its UID and key indexes, the owner pass, the extractor
    pass with the unification of the six buckets, and the breadth-first
    traversal with its depth bookkeeping. *)

From Stdlib Require Import String Ascii List Bool Arith Lia.
From stdpp Require Import base gmap strings list fin_maps sorting.

Open Scope string_scope.
Open Scope nat_scope.
Set Warnings "-register-all".

(* ------------------------------------------------------------------ *)
(** ** Unstructured content (k8s.io/apimachinery unstructured) *)

(** A decoded JSON document, as [map[string]interface{}] holds it. *)
Inductive value : Type :=
| VNull
| VBool (b : bool)
| VStr (s : string)
| VList (l : list value)
| VObj (fs : list (string * value)).

(** [m[field]] on a JSON object (keys are unique in a Go map; the first
    binding is the one that counts). *)
Fixpoint assoc (k : string) (fs : list (string * value)) : option value :=
  match fs with
  | [] => None
  | (k', v) :: fs' => if String.eqb k k' then Some v else assoc k fs'
  end.

Definition field (k : string) (v : value) : option value :=
  match v with
  | VObj fs => assoc k fs
  | _ => None
  end.

(** [NestedFieldNoCopy]: [Some v] when found; a missing key, a null or a
    non-object on the way is "not found" (or an error, treated alike by
    every caller here). *)
Fixpoint NestedField (v : value) (fields : list string) : option value :=
  match fields with
  | [] => Some v
  | f :: fs =>
      match v with
      | VObj kvs =>
          match assoc f kvs with
          | Some v' => NestedField v' fs
          | None => None
          end
      | _ => None
      end
  end.

(** [getNestedString] / [Node.GetNestedString]: the string found there,
    or "" when it is absent or not a string. *)
Definition GetNestedString (v : value) (fields : list string) : string :=
  match NestedField v fields with
  | Some (VStr s) => s
  | _ => ""
  end.

Fixpoint string_values (fs : list (string * value)) : option (list (string * string)) :=
  match fs with
  | [] => Some []
  | (k, VStr s) :: fs' => (fun l => (k, s) :: l) <$> string_values fs'
  | _ :: _ => None
  end.

(** [NestedStringMap], with the nil result of [GetLabels] on an error as
    the empty map. *)
Definition NestedStringMap (v : value) (fields : list string) : gmap string string :=
  match NestedField v fields with
  | Some (VObj fs) =>
      match string_values fs with
      | Some kvs => list_to_map kvs
      | None => ∅
      end
  | _ => ∅
  end.

Definition GetUID (o : value) : string := GetNestedString o ["metadata"; "uid"].
Definition GetName (o : value) : string := GetNestedString o ["metadata"; "name"].
Definition GetNamespace (o : value) : string := GetNestedString o ["metadata"; "namespace"].
Definition GetLabels (o : value) : gmap string string := NestedStringMap o ["metadata"; "labels"].
Definition GetAPIVersion (o : value) : string := GetNestedString o ["apiVersion"].
Definition GetKind (o : value) : string := GetNestedString o ["kind"].

(** [metav1.OwnerReference], the fields the resolver reads. *)
Record OwnerReference := {
  or_kind : string;
  or_name : string;
  or_apiVersion : string;
  or_uid : string;
  or_controller : option bool;
}.

Definition NestedBool (v : value) (fields : list string) : option bool :=
  match NestedField v fields with
  | Some (VBool b) => Some b
  | _ => None
  end.

Definition extractOwnerReference (v : value) : OwnerReference := {|
  or_kind := GetNestedString v ["kind"];
  or_name := GetNestedString v ["name"];
  or_apiVersion := GetNestedString v ["apiVersion"];
  or_uid := GetNestedString v ["uid"];
  or_controller := NestedBool v ["controller"];
|}.

Fixpoint owner_refs (l : list value) : option (list OwnerReference) :=
  match l with
  | [] => Some []
  | (VObj _ as o) :: l' => (fun r => extractOwnerReference o :: r) <$> owner_refs l'
  | _ :: _ => None
  end.

(** [Unstructured.GetOwnerReferences]: nil on any malformed entry. *)
Definition GetOwnerReferences (o : value) : list OwnerReference :=
  match NestedField o ["metadata"; "ownerReferences"] with
  | Some (VList l) => default [] (owner_refs l)
  | _ => []
  end.

(** [schema.ParseGroupVersion] and [Unstructured.GroupVersionKind]. *)
Fixpoint count_char (c : ascii) (s : string) : nat :=
  match s with
  | EmptyString => 0
  | String c' s' => (if Ascii.eqb c c' then 1 else 0) + count_char c s'
  end.

Fixpoint split_first (c : ascii) (s : string) : string * string :=
  match s with
  | EmptyString => ("", "")
  | String c' s' =>
      if Ascii.eqb c c' then ("", s')
      else let (a, b) := split_first c s' in (String c' a, b)
  end.

Definition slash : ascii := "/"%char.

Record GroupVersionKind := { gvk_group : string; gvk_version : string; gvk_kind : string }.

Definition ParseGroupVersion (gv : string) : option (string * string) :=
  if String.eqb gv "" || String.eqb gv "/" then Some ("", "")
  else match count_char slash gv with
       | 0 => Some ("", gv)
       | 1 => Some (split_first slash gv)
       | _ => None
       end.

Definition GroupVersionKindOf (o : value) : GroupVersionKind :=
  match ParseGroupVersion (GetAPIVersion o) with
  | Some (g, v) => {| gvk_group := g; gvk_version := v; gvk_kind := GetKind o |}
  | None => {| gvk_group := ""; gvk_version := ""; gvk_kind := "" |}
  end.

Example parse_gv_core : ParseGroupVersion "v1" = Some ("", "v1").
Proof. reflexivity. Qed.
Example parse_gv_policy : ParseGroupVersion "policy/v1beta1" = Some ("policy", "v1beta1").
Proof. reflexivity. Qed.

(* ------------------------------------------------------------------ *)
(** ** Label selectors (k8s.io/apimachinery/pkg/labels) *)

(** The operators the resolver's selectors are built with:
    [ValidatedSelectorFromSet] produces [Equals] requirements and
    [LabelSelectorAsSelector] produces [Equals], [In], [NotIn],
    [Exists] and [DoesNotExist]. *)
Inductive Operator := OpEquals | OpIn | OpNotIn | OpExists | OpDoesNotExist.

Record Requirement := { req_key : string; req_op : Operator; req_values : list string }.

(** [internalSelector]: a list of requirements sorted by key. *)
Abbreviation Selector := (list Requirement).

Definition has_value (r : Requirement) (v : string) : bool :=
  existsb (String.eqb v) (req_values r).

(** [Requirement.Matches]. *)
Definition req_matches (r : Requirement) (ls : gmap string string) : bool :=
  match req_op r with
  | OpEquals | OpIn =>
      match ls !! req_key r with Some v => has_value r v | None => false end
  | OpNotIn =>
      match ls !! req_key r with Some v => negb (has_value r v) | None => true end
  | OpExists => bool_decide (is_Some (ls !! req_key r))
  | OpDoesNotExist => negb (bool_decide (is_Some (ls !! req_key r)))
  end.

(** [internalSelector.Matches]: every requirement matches. *)
Definition Matches (s : Selector) (ls : gmap string string) : bool :=
  forallb (fun r => req_matches r ls) s.

Fixpoint insert_sorted {A} (le : A -> A -> bool) (x : A) (l : list A) : list A :=
  match l with
  | [] => [x]
  | y :: l' => if le x y then x :: l else y :: insert_sorted le x l'
  end.

Definition sort_by {A} (le : A -> A -> bool) (l : list A) : list A :=
  fold_right (insert_sorted le) [] l.

Definition sort_strings : list string -> list string := sort_by String.leb.

(** [Requirement.String]. *)
Definition req_string (r : Requirement) : string :=
  let vals :=
    match req_values r with
    | [v] => v
    | vs => String.concat "," (sort_strings vs)
    end in
  match req_op r with
  | OpExists => req_key r
  | OpDoesNotExist => "!" ++ req_key r
  | OpEquals => req_key r ++ "=" ++ vals
  | OpIn => req_key r ++ " in " ++ "(" ++ vals ++ ")"
  | OpNotIn => req_key r ++ " notin " ++ "(" ++ vals ++ ")"
  end.

(** [internalSelector.String]: the requirements joined by commas. *)
Definition selector_string (s : Selector) : string :=
  String.concat "," (map req_string s).

(** Character classes of [k8s.io/apimachinery/pkg/util/validation]. *)
Definition is_lower_alnum (c : ascii) : bool :=
  let n := nat_of_ascii c in (97 <=? n) && (n <=? 122) || (48 <=? n) && (n <=? 57).
Definition is_alnum (c : ascii) : bool :=
  let n := nat_of_ascii c in is_lower_alnum c || (65 <=? n) && (n <=? 90).
Definition is_name_char (c : ascii) : bool :=
  is_alnum c || Ascii.eqb c "-" || Ascii.eqb c "_" || Ascii.eqb c ".".

Fixpoint last_char (s : string) : option ascii :=
  match s with
  | EmptyString => None
  | String c EmptyString => Some c
  | String _ s' => last_char s'
  end.

Definition first_char (s : string) : option ascii :=
  match s with EmptyString => None | String c _ => Some c end.

Fixpoint all_chars (p : ascii -> bool) (s : string) : bool :=
  match s with EmptyString => true | String c s' => p c && all_chars p s' end.

Definition ends_ok (p : ascii -> bool) (s : string) : bool :=
  match first_char s, last_char s with
  | Some a, Some b => p a && p b
  | _, _ => false
  end.

(** [qualifiedNameFmt]: 1 to 63 characters of [A-Za-z0-9-_.], starting
    and ending alphanumeric. *)
Definition qualified_name_part_ok (s : string) : bool :=
  negb (String.eqb s "") && (String.length s <=? 63)
  && ends_ok is_alnum s && all_chars is_name_char s.

Fixpoint split_on (c : ascii) (s : string) : list string :=
  match s with
  | EmptyString => [""]
  | String c' s' =>
      if Ascii.eqb c c' then "" :: split_on c s'
      else match split_on c s' with
           | [] => [String c' ""]
           | w :: ws => String c' w :: ws
           end
  end.

(** [IsDNS1123Subdomain]: dot-separated labels of [a-z0-9-] that start
    and end alphanumeric, at most 253 characters. *)
Definition dns1123_label_ok (s : string) : bool :=
  ends_ok is_lower_alnum s && all_chars (fun c => is_lower_alnum c || Ascii.eqb c "-") s.
Definition IsDNS1123Subdomain (s : string) : bool :=
  (String.length s <=? 253) && forallb dns1123_label_ok (split_on "." s).

(** [IsQualifiedName], the check of [validateLabelKey]. *)
Definition IsQualifiedName (s : string) : bool :=
  match split_on slash s with
  | [name] => qualified_name_part_ok name
  | [prefix; name] =>
      negb (String.eqb prefix "") && IsDNS1123Subdomain prefix && qualified_name_part_ok name
  | _ => false
  end.

(** [IsValidLabelValue]: empty, or a qualified-name part. *)
Definition IsValidLabelValue (s : string) : bool :=
  String.eqb s "" || qualified_name_part_ok s.

(** [labels.NewRequirement]: the key and every value are validated, and
    the number of values must fit the operator. *)
Definition NewRequirement (key : string) (op : Operator) (vals : list string) : option Requirement :=
  let arity_ok :=
    match op with
    | OpIn | OpNotIn => negb (Nat.eqb (length vals) 0)
    | OpEquals => Nat.eqb (length vals) 1
    | OpExists | OpDoesNotExist => Nat.eqb (length vals) 0
    end in
  if IsQualifiedName key && arity_ok && forallb IsValidLabelValue vals
  then Some {| req_key := key; req_op := op; req_values := vals |}
  else None.

Definition req_le (a b : Requirement) : bool := String.leb (req_key a) (req_key b).

(** [labels.ValidatedSelectorFromSet]: an empty set gives the empty
    selector (which matches everything); otherwise one [Equals]
    requirement per label, sorted by key. *)
Definition ValidatedSelectorFromSet (ls : gmap string string) : option Selector :=
  if bool_decide (ls = ∅) then Some []
  else reqs ← mapM (fun '(k, v) => NewRequirement k OpEquals [v]) (map_to_list ls);
       Some (sort_by req_le reqs).

(** [metav1.LabelSelector] and [metav1.LabelSelectorAsSelector]. *)
Record LabelSelectorRequirement := {
  lsr_key : string; lsr_operator : string; lsr_values : list string }.
Record LabelSelector := {
  matchLabels : gmap string string;
  matchExpressions : list LabelSelectorRequirement }.

Definition selector_operator (op : string) : option Operator :=
  if String.eqb op "In" then Some OpIn
  else if String.eqb op "NotIn" then Some OpNotIn
  else if String.eqb op "Exists" then Some OpExists
  else if String.eqb op "DoesNotExist" then Some OpDoesNotExist
  else None.

Definition LabelSelectorAsSelector (ps : LabelSelector) : option Selector :=
  if Nat.eqb (size (matchLabels ps) + length (matchExpressions ps)) 0 then Some []
  else
    reqs1 ← mapM (fun '(k, v) => NewRequirement k OpEquals [v]) (map_to_list (matchLabels ps));
    reqs2 ← mapM (fun e => op ← selector_operator (lsr_operator e);
                           NewRequirement (lsr_key e) op (lsr_values e))
                 (matchExpressions ps);
    (* selector.Add sorts the requirements by key *)
    Some (sort_by req_le (app reqs1 reqs2)).

(* ------------------------------------------------------------------ *)
(** ** Object references, selectors and their keys *)

Definition backslash : string := "\".

Record ObjectReference := {
  ref_group : string; ref_kind : string; ref_namespace : string; ref_name : string }.
Record ObjectLabelSelector := {
  ols_group : string; ols_kind : string; ols_namespace : string; ols_selector : Selector }.
Record ObjectSelector := {
  os_group : string; os_kind : string; os_namespaces : gset string }.

(** [ObjectReference.Key]: [fmt.Sprintf("%s\\%s\\%s\\%s", ...)]. *)
Definition RefKey (o : ObjectReference) : string :=
  ref_group o ++ backslash ++ ref_kind o ++ backslash ++ ref_namespace o ++ backslash ++ ref_name o.

(** [ObjectLabelSelector.Key]: the selector is printed by its [String]
    method. *)
Definition LabelSelKey (o : ObjectLabelSelector) : string :=
  ols_group o ++ backslash ++ ols_kind o ++ backslash ++ ols_namespace o ++ backslash
  ++ selector_string (ols_selector o).

(** [%s] of a [sets.String] (a [map[string]sets.Empty]): Go prints a map
    as [map[k1:{} k2:{}]] with the keys in sorted order. *)
Definition format_string_set (s : gset string) : string :=
  "map[" ++ String.concat " " (map (fun k => k ++ ":{}") (sort_strings (elements s))) ++ "]".

(** [ObjectSelector.Key]: [fmt.Sprintf("%s\\%s\\%s", ...)]. *)
Definition KindSelKey (o : ObjectSelector) : string :=
  os_group o ++ backslash ++ os_kind o ++ backslash ++ format_string_set (os_namespaces o).

(* ------------------------------------------------------------------ *)
(** ** Relationships and relationship maps *)

(** [Relationship] is a Go [string]; a [RelationshipSet] a set of them. *)
Abbreviation Relationship := string.
Abbreviation RelationshipSet := (gset string).

Definition RelationshipClusterRoleAggregationRule : Relationship := "ClusterRoleAggregationRule".
Definition RelationshipClusterRolePolicyRule : Relationship := "ClusterRolePolicyRule".
Definition RelationshipEventRegarding : Relationship := "EventRegarding".
Definition RelationshipEventRelated : Relationship := "EventRelated".
Definition RelationshipIngressClass : Relationship := "IngressClass".
Definition RelationshipIngressResource : Relationship := "IngressResource".
Definition RelationshipIngressService : Relationship := "IngressService".
Definition RelationshipIngressTLSSecret : Relationship := "IngressTLSSecret".
Definition RelationshipControllerRef : Relationship := "ControllerReference".
Definition RelationshipOwnerRef : Relationship := "OwnerReference".
Definition RelationshipPodSecurityPolicyAllowedCSIDriver : Relationship := "PodSecurityPolicyAllowedCSIDriver".
Definition RelationshipPodSecurityPolicyAllowedRuntimeClass : Relationship := "PodSecurityPolicyAllowedRuntimeClass".
Definition RelationshipPodSecurityPolicyDefaultRuntimeClass : Relationship := "PodSecurityPolicyDefaultRuntimeClass".
Definition RelationshipService : Relationship := "Service".

(** Adding [r] to the set stored under [k], creating it when absent. *)
Definition add_rel (k : string) (r : Relationship) (m : gmap string RelationshipSet)
  : gmap string RelationshipSet :=
  <[k := {[r]} ∪ default ∅ (m !! k)]> m.

Record RelationshipMap := {
  DependenciesByLabelSelector : gmap string RelationshipSet;
  DependenciesByRef : gmap string RelationshipSet;
  DependenciesBySelector : gmap string RelationshipSet;
  DependenciesByUID : gmap string RelationshipSet;
  DependentsByLabelSelector : gmap string RelationshipSet;
  DependentsByRef : gmap string RelationshipSet;
  DependentsBySelector : gmap string RelationshipSet;
  DependentsByUID : gmap string RelationshipSet;
  ObjectLabelSelectors : gmap string ObjectLabelSelector;
  ObjectSelectors : gmap string ObjectSelector;
}.

Definition newRelationshipMap : RelationshipMap :=
  {| DependenciesByLabelSelector := ∅; DependenciesByRef := ∅;
     DependenciesBySelector := ∅; DependenciesByUID := ∅;
     DependentsByLabelSelector := ∅; DependentsByRef := ∅;
     DependentsBySelector := ∅; DependentsByUID := ∅;
     ObjectLabelSelectors := ∅; ObjectSelectors := ∅ |}.

Definition AddDependencyByKey (k : string) (r : Relationship) (m : RelationshipMap) : RelationshipMap :=
  {| DependenciesByLabelSelector := DependenciesByLabelSelector m;
     DependenciesByRef := add_rel k r (DependenciesByRef m);
     DependenciesBySelector := DependenciesBySelector m;
     DependenciesByUID := DependenciesByUID m;
     DependentsByLabelSelector := DependentsByLabelSelector m;
     DependentsByRef := DependentsByRef m;
     DependentsBySelector := DependentsBySelector m;
     DependentsByUID := DependentsByUID m;
     ObjectLabelSelectors := ObjectLabelSelectors m;
     ObjectSelectors := ObjectSelectors m |}.

Definition AddDependencyByLabelSelector (o : ObjectLabelSelector) (r : Relationship) (m : RelationshipMap) : RelationshipMap :=
  let k := LabelSelKey o in
  {| DependenciesByLabelSelector := add_rel k r (DependenciesByLabelSelector m);
     DependenciesByRef := DependenciesByRef m;
     DependenciesBySelector := DependenciesBySelector m;
     DependenciesByUID := DependenciesByUID m;
     DependentsByLabelSelector := DependentsByLabelSelector m;
     DependentsByRef := DependentsByRef m;
     DependentsBySelector := DependentsBySelector m;
     DependentsByUID := DependentsByUID m;
     ObjectLabelSelectors := <[k := o]> (ObjectLabelSelectors m);
     ObjectSelectors := ObjectSelectors m |}.

Definition AddDependencyBySelector (o : ObjectSelector) (r : Relationship) (m : RelationshipMap) : RelationshipMap :=
  let k := KindSelKey o in
  {| DependenciesByLabelSelector := DependenciesByLabelSelector m;
     DependenciesByRef := DependenciesByRef m;
     DependenciesBySelector := add_rel k r (DependenciesBySelector m);
     DependenciesByUID := DependenciesByUID m;
     DependentsByLabelSelector := DependentsByLabelSelector m;
     DependentsByRef := DependentsByRef m;
     DependentsBySelector := DependentsBySelector m;
     DependentsByUID := DependentsByUID m;
     ObjectLabelSelectors := ObjectLabelSelectors m;
     ObjectSelectors := <[k := o]> (ObjectSelectors m) |}.

Definition AddDependencyByUID (uid : string) (r : Relationship) (m : RelationshipMap) : RelationshipMap :=
  {| DependenciesByLabelSelector := DependenciesByLabelSelector m;
     DependenciesByRef := DependenciesByRef m;
     DependenciesBySelector := DependenciesBySelector m;
     DependenciesByUID := add_rel uid r (DependenciesByUID m);
     DependentsByLabelSelector := DependentsByLabelSelector m;
     DependentsByRef := DependentsByRef m;
     DependentsBySelector := DependentsBySelector m;
     DependentsByUID := DependentsByUID m;
     ObjectLabelSelectors := ObjectLabelSelectors m;
     ObjectSelectors := ObjectSelectors m |}.

(* ------------------------------------------------------------------ *)
(** ** Nodes *)

Record Node := {
  Unstructured : value;
  UID : string;
  Group : string;
  Version : string;
  Kind : string;
  Resource : string;
  Namespaced : bool;
  Namespace : string;
  Name : string;
  OwnerReferences : list OwnerReference;
  Dependencies : gmap string RelationshipSet;
  Dependents : gmap string RelationshipSet;
  Depth : nat;
}.

Definition with_edges (deps dets : gmap string RelationshipSet) (d : nat) (n : Node) : Node :=
  {| Unstructured := Unstructured n; UID := UID n; Group := Group n;
     Version := Version n; Kind := Kind n; Resource := Resource n;
     Namespaced := Namespaced n; Namespace := Namespace n; Name := Name n;
     OwnerReferences := OwnerReferences n;
     Dependencies := deps; Dependents := dets; Depth := d |}.

(** [Node.AddDependency] and [Node.AddDependent]. *)
Definition AddDependency (uid : string) (r : Relationship) (n : Node) : Node :=
  with_edges (add_rel uid r (Dependencies n)) (Dependents n) (Depth n) n.
Definition AddDependent (uid : string) (r : Relationship) (n : Node) : Node :=
  with_edges (Dependencies n) (add_rel uid r (Dependents n)) (Depth n) n.
Definition SetDepth (d : nat) (n : Node) : Node :=
  with_edges (Dependencies n) (Dependents n) d n.

(** [Node.GetDeps]. *)
Definition GetDeps (depsIsDependencies : bool) (n : Node) : gmap string RelationshipSet :=
  if depsIsDependencies then Dependencies n else Dependents n.

(** [Node.GetObjectReferenceKey]. *)
Definition GetObjectReferenceKey (n : Node) : string :=
  RefKey {| ref_group := Group n; ref_kind := Kind n; ref_namespace := Namespace n; ref_name := Name n |}.

(** [Node.GetNestedString]. *)
Definition NodeNestedString (n : Node) (fields : list string) : string :=
  GetNestedString (Unstructured n) fields.

(* ------------------------------------------------------------------ *)
(** ** Typed views ([runtime.DefaultUnstructuredConverter.FromUnstructured])

    Conversion into a typed struct: an absent or null field gives the zero
    value (nil for a pointer), a field of the wrong JSON type fails the
    conversion, unknown fields are ignored. Only the fields the extractors
    read are decoded. *)

Definition d_str (o : option value) : option string :=
  match o with
  | None | Some VNull => Some ""
  | Some (VStr s) => Some s
  | Some _ => None
  end.

Definition d_ptr {A} (f : value -> option A) (o : option value) : option (option A) :=
  match o with
  | None | Some VNull => Some None
  | Some v => Some <$> f v
  end.

Definition d_list {A} (f : value -> option A) (o : option value) : option (list A) :=
  match o with
  | None | Some VNull => Some []
  | Some (VList l) => mapM f l
  | Some _ => None
  end.

Definition d_str_v (v : value) : option string := d_str (Some v).

Definition d_strmap (o : option value) : option (gmap string string) :=
  match o with
  | None | Some VNull => Some ∅
  | Some (VObj fs) => list_to_map <$> string_values fs
  | Some _ => None
  end.

Definition d_obj {A} (f : value -> option A) (v : value) : option A :=
  match v with VObj _ => f v | _ => None end.

(** [rbacv1.PolicyRule]. *)
Record PolicyRule := {
  Verbs : list string; APIGroups : list string;
  Resources : list string; ResourceNames : list string }.

Definition d_PolicyRule : value -> option PolicyRule :=
  d_obj (fun v =>
    vs ← d_list d_str_v (field "verbs" v);
    gs ← d_list d_str_v (field "apiGroups" v);
    rs ← d_list d_str_v (field "resources" v);
    ns ← d_list d_str_v (field "resourceNames" v);
    Some {| Verbs := vs; APIGroups := gs; Resources := rs; ResourceNames := ns |}).

Definition d_LabelSelectorRequirement : value -> option LabelSelectorRequirement :=
  d_obj (fun v =>
    k ← d_str (field "key" v);
    op ← d_str (field "operator" v);
    vs ← d_list d_str_v (field "values" v);
    Some {| lsr_key := k; lsr_operator := op; lsr_values := vs |}).

Definition d_LabelSelector : value -> option LabelSelector :=
  d_obj (fun v =>
    ml ← d_strmap (field "matchLabels" v);
    me ← d_list d_LabelSelectorRequirement (field "matchExpressions" v);
    Some {| matchLabels := ml; matchExpressions := me |}).

(** [rbacv1.ClusterRole]: its rules and its optional aggregation rule
    (the list of cluster role selectors). *)
Record ClusterRole := {
  cr_rules : list PolicyRule;
  cr_aggregationRule : option (list LabelSelector) }.

Definition d_ClusterRole : value -> option ClusterRole :=
  d_obj (fun v =>
    rules ← d_list d_PolicyRule (field "rules" v);
    ar ← d_ptr (d_obj (fun a => d_list d_LabelSelector (field "clusterRoleSelectors" a)))
               (field "aggregationRule" v);
    Some {| cr_rules := rules; cr_aggregationRule := ar |}).

(** [corev1.Service]: its namespace and [spec.selector]. *)
Record Service := { svc_namespace : string; svc_selector : gmap string string }.

Definition d_Service : value -> option Service :=
  d_obj (fun v =>
    ns ← d_ptr (d_obj (fun m => d_str (field "namespace" m))) (field "metadata" v);
    sel ← d_ptr (d_obj (fun s => d_strmap (field "selector" s))) (field "spec" v);
    Some {| svc_namespace := default "" ns; svc_selector := default ∅ sel |}).

(** [policyv1beta1.PodSecurityPolicy]: the CSI drivers and runtime
    classes of its spec. *)
Record RuntimeClassStrategy := {
  AllowedRuntimeClassNames : list string; DefaultRuntimeClassName : option string }.
Record PodSecurityPolicy := {
  AllowedCSIDrivers : list string; RuntimeClass : option RuntimeClassStrategy }.

Definition d_PodSecurityPolicy : value -> option PodSecurityPolicy :=
  d_obj (fun v =>
    spec ← d_ptr (d_obj (fun s =>
      drivers ← d_list (d_obj (fun d => d_str (field "name" d))) (field "allowedCSIDrivers" s);
      rc ← d_ptr (d_obj (fun r =>
        names ← d_list d_str_v (field "allowedRuntimeClassNames" r);
        def ← d_ptr d_str_v (field "defaultRuntimeClassName" r);
        Some {| AllowedRuntimeClassNames := names; DefaultRuntimeClassName := def |}))
        (field "runtimeClass" s);
      Some {| AllowedCSIDrivers := drivers; RuntimeClass := rc |})) (field "spec" v);
    Some (default {| AllowedCSIDrivers := []; RuntimeClass := None |} spec)).

(** [networking.k8s.io/v1] and [extensions/v1beta1] Ingress. *)
Record TypedLocalObjectReference := {
  tlor_apiGroup : option string; tlor_kind : string; tlor_name : string }.

Definition d_TLOR : value -> option TypedLocalObjectReference :=
  d_obj (fun v =>
    g ← d_ptr d_str_v (field "apiGroup" v);
    k ← d_str (field "kind" v);
    n ← d_str (field "name" v);
    Some {| tlor_apiGroup := g; tlor_kind := k; tlor_name := n |}).

(** A backend: its resource reference, and its service, by name for
    [extensions] ([serviceName]) or as the optional [service] struct for
    [networking.k8s.io]; the service is [Some name] when set. *)
Record IngressBackend := {
  be_resource : option TypedLocalObjectReference;
  be_service : option string }.

Definition d_ExtIngressBackend : value -> option IngressBackend :=
  d_obj (fun v =>
    r ← d_ptr d_TLOR (field "resource" v);
    s ← d_str (field "serviceName" v);
    Some {| be_resource := r; be_service := if String.eqb s "" then None else Some s |}).

Definition d_NetIngressBackend : value -> option IngressBackend :=
  d_obj (fun v =>
    r ← d_ptr d_TLOR (field "resource" v);
    s ← d_ptr (d_obj (fun s => d_str (field "name" s))) (field "service" v);
    Some {| be_resource := r; be_service := s |}).

(** A struct-valued (non-pointer) backend: absent means the zero backend. *)
Definition d_backend_struct (d_backend : value -> option IngressBackend) (o : option value)
  : option IngressBackend :=
  match o with
  | None | Some VNull => Some {| be_resource := None; be_service := None |}
  | Some b => d_backend b
  end.

Record Ingress := {
  ing_ingressClassName : option string;
  ing_defaultBackend : option IngressBackend;
  ing_rules : list (option (list IngressBackend));  (* rule.HTTP and its paths' backends *)
  ing_tls : list string }.                           (* tls[].secretName *)

(** The default backend is [spec.backend] in [extensions] and
    [spec.defaultBackend] in [networking.k8s.io]. *)
Definition d_Ingress (default_field : string) (d_backend : value -> option IngressBackend)
  : value -> option Ingress :=
  d_obj (fun v =>
    spec ← d_ptr (d_obj (fun s =>
      cls ← d_ptr d_str_v (field "ingressClassName" s);
      db ← d_ptr d_backend (field default_field s);
      rules ← d_list (d_obj (fun r =>
                 d_ptr (d_obj (fun h =>
                   d_list (d_obj (fun p => d_backend_struct d_backend (field "backend" p)))
                          (field "paths" h))) (field "http" r))) (field "rules" s);
      tls ← d_list (d_obj (fun t => d_str (field "secretName" t))) (field "tls" s);
      Some {| ing_ingressClassName := cls; ing_defaultBackend := db;
              ing_rules := rules; ing_tls := tls |})) (field "spec" v);
    Some (default {| ing_ingressClassName := None; ing_defaultBackend := None;
                     ing_rules := []; ing_tls := [] |} spec)).

(* ------------------------------------------------------------------ *)
(** ** Extractors ([src/internal/graph/kubernetes.go]) *)

(** [sets.NewString(l...).HasAny(items...)]. *)
Definition HasAny (l : list string) (items : list string) : bool :=
  existsb (fun it => existsb (String.eqb it) l) items.

(** [podSecurityPolicyMatches]. *)
Definition podSecurityPolicyMatches (r : PolicyRule) : bool :=
  if HasAny (APIGroups r) ["*"; "extensions"; "policy"] then
    if HasAny (Resources r) ["*"; "podsecuritypolicies"] then
      if HasAny (Verbs r) ["*"; "use"] then true else false
    else false
  else false.

(** The PodSecurityPolicy part of [getClusterRoleRelationships], one rule. *)
Definition cluster_role_rule (result : RelationshipMap) (r : PolicyRule) : RelationshipMap :=
  if podSecurityPolicyMatches r then
    match ResourceNames r with
    | [] =>
        AddDependencyBySelector
          {| os_group := "policy"; os_kind := "PodSecurityPolicy"; os_namespaces := ∅ |}
          RelationshipClusterRolePolicyRule result
    | names =>
        fold_left (fun m n =>
          AddDependencyByKey
            (RefKey {| ref_group := "policy"; ref_kind := "PodSecurityPolicy";
                       ref_namespace := ""; ref_name := n |})
            RelationshipClusterRolePolicyRule m) names result
    end
  else result.

(** The aggregation-rule part of [getClusterRoleRelationships], one
    selector; a malformed selector fails the whole extractor. *)
Definition cluster_role_selector (acc : option RelationshipMap) (ls : LabelSelector)
  : option RelationshipMap :=
  result ← acc;
  selector ← LabelSelectorAsSelector ls;
  Some (AddDependencyByLabelSelector
          {| ols_group := "rbac.authorization.k8s.io"; ols_kind := "ClusterRole";
             ols_namespace := ""; ols_selector := selector |}
          RelationshipClusterRoleAggregationRule result).

(** [getClusterRoleRelationships]. *)
Definition getClusterRoleRelationships (n : Node) : option RelationshipMap :=
  cr ← d_ClusterRole (Unstructured n);
  result ← match cr_aggregationRule cr with
           | Some sels => fold_left cluster_role_selector sels (Some newRelationshipMap)
           | None => Some newRelationshipMap
           end;
  Some (fold_left cluster_role_rule (cr_rules cr) result).

(** [getEventRelationships]. The core-group branch reads the field path
    ["involvedobject"; "uid"] exactly as the source spells it. *)
Definition getEventRelationships (n : Node) : option RelationshipMap :=
  let result := newRelationshipMap in
  if String.eqb (Group n) "" then
    let regUID := NodeNestedString n ["involvedobject"; "uid"] in
    Some (AddDependencyByUID regUID RelationshipEventRegarding result)
  else if String.eqb (Group n) "events.k8s.io" then
    let regUID := NodeNestedString n ["regarding"; "uid"] in
    let result := AddDependencyByUID regUID RelationshipEventRegarding result in
    let relUID := NodeNestedString n ["related"; "uid"] in
    Some (AddDependencyByUID relUID RelationshipEventRelated result)
  else Some result.

(** The part of [getIngressRelationships] common to both API groups,
    once the object is decoded. *)
Definition ingress_relationships (ns : string) (ing : Ingress) : RelationshipMap :=
  let result := newRelationshipMap in
  (* RelationshipIngressClass *)
  let result :=
    match ing_ingressClassName ing with
    | Some ingc =>
        if Nat.ltb 0 (String.length ingc) then
          AddDependencyByKey
            (RefKey {| ref_group := "networking.k8s.io"; ref_kind := "IngressClass";
                       ref_namespace := ""; ref_name := ingc |})
            RelationshipIngressClass result
        else result
    | None => result
    end in
  (* RelationshipIngressResource, RelationshipIngressService *)
  let backends :=
    app (match ing_defaultBackend ing with Some b => [b] | None => [] end)
        (concat (map (fun h => match h with Some paths => paths | None => [] end) (ing_rules ing))) in
  let result :=
    fold_left (fun m b =>
      match be_resource b, be_service b with
      | Some r, _ =>
          let group := match tlor_apiGroup r with Some g => g | None => "" end in
          AddDependencyByKey
            (RefKey {| ref_group := group; ref_kind := tlor_kind r;
                       ref_namespace := ns; ref_name := tlor_name r |})
            RelationshipIngressResource m
      | None, Some svc =>
          AddDependencyByKey
            (RefKey {| ref_group := ""; ref_kind := "Service"; ref_namespace := ns; ref_name := svc |})
            RelationshipIngressService m
      | None, None => m
      end) backends result in
  (* RelationshipIngressTLSSecret: recorded under RelationshipIngressClass *)
  fold_left (fun m secretName =>
    AddDependencyByKey
      (RefKey {| ref_group := ""; ref_kind := "Secret"; ref_namespace := ns; ref_name := secretName |})
      RelationshipIngressClass m) (ing_tls ing) result.

(** [getIngressRelationships]. *)
Definition getIngressRelationships (n : Node) : option RelationshipMap :=
  let ns := Namespace n in
  if String.eqb (Group n) "extensions" then
    ing ← d_Ingress "backend" d_ExtIngressBackend (Unstructured n);
    Some (ingress_relationships ns ing)
  else if String.eqb (Group n) "networking.k8s.io" then
    ing ← d_Ingress "defaultBackend" d_NetIngressBackend (Unstructured n);
    Some (ingress_relationships ns ing)
  else Some newRelationshipMap.

(** [getServiceRelationships]. *)
Definition getServiceRelationships (n : Node) : option RelationshipMap :=
  svc ← d_Service (Unstructured n);
  selector ← ValidatedSelectorFromSet (svc_selector svc);
  Some (AddDependencyByLabelSelector
          {| ols_group := ""; ols_kind := "Pod"; ols_namespace := svc_namespace svc;
             ols_selector := selector |}
          RelationshipService newRelationshipMap).

(** [getPodSecurityPolicyRelationships]. *)
Definition getPodSecurityPolicyRelationships (n : Node) : option RelationshipMap :=
  psp ← d_PodSecurityPolicy (Unstructured n);
  let result :=
    fold_left (fun m csi =>
      AddDependencyByKey
        (RefKey {| ref_group := "storage.k8s.io"; ref_kind := "CSIDriver";
                   ref_namespace := ""; ref_name := csi |})
        RelationshipPodSecurityPolicyAllowedCSIDriver m) (AllowedCSIDrivers psp) newRelationshipMap in
  Some match RuntimeClass psp with
       | Some rc =>
           let result :=
             fold_left (fun m nm =>
               AddDependencyByKey
                 (RefKey {| ref_group := "node.k8s.io"; ref_kind := "RuntimeClass";
                            ref_namespace := ""; ref_name := nm |})
                 RelationshipPodSecurityPolicyAllowedRuntimeClass m)
               (AllowedRuntimeClassNames rc) result in
           match DefaultRuntimeClassName rc with
           | Some nm =>
               AddDependencyByKey
                 (RefKey {| ref_group := "node.k8s.io"; ref_kind := "RuntimeClass";
                            ref_namespace := ""; ref_name := nm |})
                 RelationshipPodSecurityPolicyDefaultRuntimeClass result
           | None => result
           end
       | None => result
       end.

(* ------------------------------------------------------------------ *)
(** ** The resolver ([resolveDeps] in [src/unnamed/part_002]) *)

(** [meta.RESTMapping]: the resource (group, version, plural) and the
    kind the mapper resolves a GroupVersionKind to. *)
Record RESTMapping := {
  rm_group : string; rm_version : string; rm_resource : string; rm_kind : string }.

(** [meta.RESTMapper.RESTMapping(gk, version)], as a function of group,
    kind and version that fails with an error message. *)
Abbreviation RESTMapper := (string -> string -> string -> string + RESTMapping)%type.

(** The object universe: the nodes (a heap indexed by the position of the
    object in the input list, which is what [&node] denotes), and the two
    indexes [globalMapByUID] and [globalMapByKey] holding pointers. *)
Record Universe := {
  heap : gmap nat Node;
  globalMapByUID : gmap string nat;
  globalMapByKey : gmap string nat }.

Definition LabelHostname : string := "kubernetes.io/hostname".

Definition new_node (m : RESTMapping) (o : value) : Node :=
  let ns := GetNamespace o in
  {| Unstructured := o; UID := GetUID o; Name := GetName o; Namespace := ns;
     Namespaced := negb (String.eqb ns ""); Group := rm_group m; Version := rm_version m;
     Kind := rm_kind m; Resource := rm_resource m; OwnerReferences := GetOwnerReferences o;
     Dependencies := ∅; Dependents := ∅; Depth := 0 |}.

(** One iteration of the universe loop: the node is stored under its UID
    and its key, then (for a core-group [Node]) under its name and its
    hostname label. *)
Definition add_object (ix : nat) (node : Node) (u : Universe) : Universe :=
  let uid := UID node in
  let key := GetObjectReferenceKey node in
  let byUID := <[uid := ix]> (globalMapByUID u) in
  let byKey := <[key := ix]> (globalMapByKey u) in
  let byUID :=
    if String.eqb (Group node) "" && String.eqb (Kind node) "Node" then
      let byUID := <[Name node := ix]> byUID in
      match GetLabels (Unstructured node) !! LabelHostname with
      | Some hostname => <[hostname := ix]> byUID
      | None => byUID
      end
    else byUID in
  {| heap := <[ix := node]> (heap u); globalMapByUID := byUID; globalMapByKey := byKey |}.

Fixpoint build_universe (mapper : RESTMapper) (ix : nat) (objects : list value) (u : Universe)
  : string + Universe :=
  match objects with
  | [] => inr u
  | o :: os =>
      let gvk := GroupVersionKindOf o in
      match mapper (gvk_group gvk) (gvk_kind gvk) (gvk_version gvk) with
      | inl err => inl err
      | inr m => build_universe mapper (S ix) os (add_object ix (new_node m o) u)
      end
  end.

Definition empty_universe : Universe :=
  {| heap := ∅; globalMapByUID := ∅; globalMapByKey := ∅ |}.

Definition uid_of (h : gmap nat Node) (p : nat) : string := default "" (UID <$> h !! p).

(** One edge write through two pointers: [src.AddDependency(dst.UID, r)]
    and [dst.AddDependent(src.UID, r)]. *)
Definition link (src dst : nat) (r : Relationship) (h : gmap nat Node) : gmap nat Node :=
  let su := uid_of h src in
  let du := uid_of h dst in
  alter (AddDependent su r) dst (alter (AddDependency du r) src h).

Definition link_all (src dst : nat) (rset : RelationshipSet) (h : gmap nat Node) : gmap nat Node :=
  fold_left (fun h r => link src dst r h) (elements rset) h.

Section Resolver.

(** Go's iteration order over a map is unspecified; every [range] over
    [globalMapByUID] is modelled by [iter], an enumeration of its entries
    that the theorems leave arbitrary (or assume to be a permutation of
    the entries). *)
Variable iter : gmap string nat -> list (string * nat).

(** The extractors of the kinds this development does not embed (Pod,
    PersistentVolume(Claim), ServiceAccount, PodDisruptionBudget, the
    webhook configurations, APIService, IngressClass, NetworkPolicy,
    RuntimeClass, ClusterRoleBinding, Role, RoleBinding,
    CSIStorageCapacity, CSINode, StorageClass, VolumeAttachment): left
    arbitrary, so what is proved holds whatever they return ([extract_kube]
    below embeds them). *)
Variable extract_other : Node -> option RelationshipMap.

(** The owner pass. *)
Definition owner_pass (u : Universe) (h : gmap nat Node) : gmap nat Node :=
  fold_left (fun h '(_, p) =>
    match h !! p with
    | Some node =>
        fold_left (fun h ref =>
          match globalMapByUID u !! or_uid ref with
          | Some q =>
              let h := if bool_decide (or_controller ref = Some true)
                       then link p q RelationshipControllerRef h else h in
              link p q RelationshipOwnerRef h
          | None => h
          end) (OwnerReferences node) h
    | None => h
    end) (iter (globalMapByUID u)) h.

(** [resolveLabelSelectorToNodes]. *)
Definition resolveLabelSelectorToNodes (u : Universe) (h : gmap nat Node) (o : ObjectLabelSelector)
  : list nat :=
  concat (map (fun '(_, p) =>
    match h !! p with
    | Some n =>
        if String.eqb (Group n) (ols_group o) && String.eqb (Kind n) (ols_kind o)
           && String.eqb (Namespace n) (ols_namespace o)
        then if Matches (ols_selector o) (GetLabels (Unstructured n)) then [p] else []
        else []
    | None => []
    end) (iter (globalMapByUID u))).

(** [resolveSelectorToNodes]. *)
Definition resolveSelectorToNodes (u : Universe) (h : gmap nat Node) (o : ObjectSelector)
  : list nat :=
  concat (map (fun '(_, p) =>
    match h !! p with
    | Some n =>
        if String.eqb (Group n) (os_group o) && String.eqb (Kind n) (os_kind o)
        then if Nat.eqb (size (os_namespaces o)) 0 || bool_decide (Namespace n ∈ os_namespaces o)
             then [p] else []
        else []
    | None => []
    end) (iter (globalMapByUID u))).

(** The loops of [updateRelationships], one per kind of bucket: for each
    entry [(k, rset)] of the bucket, the nodes the key resolves to are
    looked up and [write q rset] records the edges with each of them
    ([write] fixes the other end and the direction). *)
Definition loop_by_key (u : Universe) (write : nat -> RelationshipSet -> gmap nat Node -> gmap nat Node)
  (bucket : gmap string RelationshipSet) (h : gmap nat Node) : gmap nat Node :=
  fold_left (fun h '(k, rset) =>
    match globalMapByKey u !! k with
    | Some q => write q rset h
    | None => h
    end) (map_to_list bucket) h.

Definition loop_by_label_selector (u : Universe)
  (write : nat -> RelationshipSet -> gmap nat Node -> gmap nat Node)
  (ols_of : gmap string ObjectLabelSelector)
  (bucket : gmap string RelationshipSet) (h : gmap nat Node) : gmap nat Node :=
  fold_left (fun h '(k, rset) =>
    match ols_of !! k with
    | Some ols => fold_left (fun h q => write q rset h) (resolveLabelSelectorToNodes u h ols) h
    | None => h
    end) (map_to_list bucket) h.

Definition loop_by_selector (u : Universe)
  (write : nat -> RelationshipSet -> gmap nat Node -> gmap nat Node)
  (os_of : gmap string ObjectSelector)
  (bucket : gmap string RelationshipSet) (h : gmap nat Node) : gmap nat Node :=
  fold_left (fun h '(k, rset) =>
    match os_of !! k with
    | Some os => fold_left (fun h q => write q rset h) (resolveSelectorToNodes u h os) h
    | None => h
    end) (map_to_list bucket) h.

Definition loop_by_uid (u : Universe) (write : nat -> RelationshipSet -> gmap nat Node -> gmap nat Node)
  (bucket : gmap string RelationshipSet) (h : gmap nat Node) : gmap nat Node :=
  fold_left (fun h '(uid, rset) =>
    match globalMapByUID u !! uid with
    | Some q => write q rset h
    | None => h
    end) (map_to_list bucket) h.

(** [updateRelationships]: the buckets of a relationship map in the order
    of the source, each edge written through [link] (the dependencies
    buckets from the node [p], the dependents buckets towards it). The
    buckets are maps iterated in map order: every write is a set union,
    so the order is immaterial. *)
Definition updateRelationships (u : Universe) (p : nat) (rmap : RelationshipMap)
  (h : gmap nat Node) : gmap nat Node :=
  let h := loop_by_key u (fun q => link_all p q) (DependenciesByRef rmap) h in
  let h := loop_by_key u (fun q => link_all q p) (DependentsByRef rmap) h in
  let h := loop_by_label_selector u (fun q => link_all p q) (ObjectLabelSelectors rmap)
             (DependenciesByLabelSelector rmap) h in
  let h := loop_by_label_selector u (fun q => link_all q p) (ObjectLabelSelectors rmap)
             (DependentsByLabelSelector rmap) h in
  let h := loop_by_selector u (fun q => link_all p q) (ObjectSelectors rmap)
             (DependenciesBySelector rmap) h in
  let h := loop_by_selector u (fun q => link_all q p) (ObjectSelectors rmap)
             (DependentsBySelector rmap) h in
  let h := loop_by_uid u (fun q => link_all p q) (DependenciesByUID rmap) h in
  loop_by_uid u (fun q => link_all q p) (DependentsByUID rmap) h.

Definition is_gk (n : Node) (g k : string) : bool := String.eqb (Group n) g && String.eqb (Kind n) k.

(** The extractor dispatch of the extractor pass, in the order of the
    source's [switch]; [None] is both an extractor error (logged, then
    [continue]) and the [default: continue] case. *)
Definition extract (n : Node) : option RelationshipMap :=
  if is_gk n "" "PersistentVolume" then extract_other n
  else if is_gk n "" "PersistentVolumeClaim" then extract_other n
  else if is_gk n "" "Pod" then extract_other n
  else if is_gk n "" "Service" then getServiceRelationships n
  else if is_gk n "" "ServiceAccount" then extract_other n
  else if is_gk n "policy" "PodSecurityPolicy" then getPodSecurityPolicyRelationships n
  else if is_gk n "policy" "PodDisruptionBudget" then extract_other n
  else if is_gk n "admissionregistration.k8s.io" "MutatingWebhookConfiguration" then extract_other n
  else if is_gk n "admissionregistration.k8s.io" "ValidatingWebhookConfiguration" then extract_other n
  else if is_gk n "apiregistration.k8s.io" "APIService" then extract_other n
  else if (String.eqb (Group n) "events.k8s.io" || String.eqb (Group n) "")
          && String.eqb (Kind n) "Event" then getEventRelationships n
  else if (String.eqb (Group n) "networking.k8s.io" || String.eqb (Group n) "extensions")
          && String.eqb (Kind n) "Ingress" then getIngressRelationships n
  else if is_gk n "networking.k8s.io" "IngressClass" then extract_other n
  else if is_gk n "networking.k8s.io" "NetworkPolicy" then extract_other n
  else if is_gk n "node.k8s.io" "RuntimeClass" then extract_other n
  else if is_gk n "rbac.authorization.k8s.io" "ClusterRole" then getClusterRoleRelationships n
  else if is_gk n "rbac.authorization.k8s.io" "ClusterRoleBinding" then extract_other n
  else if is_gk n "rbac.authorization.k8s.io" "Role" then extract_other n
  else if is_gk n "rbac.authorization.k8s.io" "RoleBinding" then extract_other n
  else if is_gk n "storage.k8s.io" "CSIStorageCapacity" then extract_other n
  else if is_gk n "storage.k8s.io" "CSINode" then extract_other n
  else if is_gk n "storage.k8s.io" "StorageClass" then extract_other n
  else if is_gk n "storage.k8s.io" "VolumeAttachment" then extract_other n
  else None.

(** The extractor pass. *)
Definition extractor_pass (u : Universe) (h : gmap nat Node) : gmap nat Node :=
  fold_left (fun h '(_, p) =>
    match h !! p with
    | Some node =>
        match extract node with
        | Some rmap => updateRelationships u p rmap h
        | None => h
        end
    | None => h
    end) (iter (globalMapByUID u)) h.

(** The resolved graph: the universe after the owner and extractor passes. *)
Definition build_graph (u : Universe) : gmap nat Node :=
  extractor_pass u (owner_pass u (heap u)).

End Resolver.

(** The traversal state: the result map of pointers ([None] is a nil
    pointer), the queue with its [""] layer sentinel, the visited set,
    the current depth, and the heap (where [Depth] is written). *)
Record BfsState := {
  nodeMap : gmap string (option nat);
  uidQueue : list string;
  uidSet : gset string;
  depth : nat;
  bheap : gmap nat Node }.

(** The traversal loop of [resolveDeps]. [fuel] bounds the number of
    iterations: [None] is a run that has not left the loop within it (the
    Go loop need not terminate). *)
Fixpoint bfs_loop (byUID : gmap string nat) (depsIsDependencies : bool) (fuel : nat)
  (st : BfsState) : option BfsState :=
  match fuel with
  | 0 => None
  | S fuel =>
      match uidQueue st with
      | [] | [_] => Some st
      | uid :: rest =>
          if String.eqb uid "" then
            bfs_loop byUID depsIsDependencies fuel
              {| nodeMap := nodeMap st; uidQueue := app rest [""]; uidSet := uidSet st;
                 depth := S (depth st); bheap := bheap st |}
          else if bool_decide (uid ∈ uidSet st) then
            bfs_loop byUID depsIsDependencies fuel
              {| nodeMap := nodeMap st; uidQueue := rest; uidSet := uidSet st;
                 depth := depth st; bheap := bheap st |}
          else
            let visited := {[uid]} ∪ uidSet st in
            match nodeMap st !! uid with
            | Some (Some p) =>
                match bheap st !! p with
                | Some node =>
                    let node :=
                      if Nat.eqb (Depth node) 0 || Nat.ltb (depth st) (Depth node)
                      then SetDepth (depth st) node else node in
                    let depUIDs := map fst (map_to_list (GetDeps depsIsDependencies node)) in
                    bfs_loop byUID depsIsDependencies fuel
                      {| nodeMap := fold_left (fun nm d => <[d := byUID !! d]> nm) depUIDs (nodeMap st);
                         uidQueue := app rest depUIDs; uidSet := visited;
                         depth := depth st; bheap := <[p := node]> (bheap st) |}
                | None =>
                    bfs_loop byUID depsIsDependencies fuel
                      {| nodeMap := nodeMap st; uidQueue := uidQueue st; uidSet := visited;
                         depth := depth st; bheap := bheap st |}
                end
            | _ =>
                bfs_loop byUID depsIsDependencies fuel
                  {| nodeMap := nodeMap st; uidQueue := uidQueue st; uidSet := visited;
                     depth := depth st; bheap := bheap st |}
            end
      end
  end.

(** The roots found in the UID index start the result map and the queue. *)
Definition bfs_init (byUID : gmap string nat) (uids : list string) (h : gmap nat Node) : BfsState :=
  let st := fold_left (fun '(nm, q) uid =>
              match byUID !! uid with
              | Some p => (<[uid := Some p]> nm, app q [uid])
              | None => (nm, q)
              end) uids (∅, []) in
  {| nodeMap := fst st; uidQueue := app (snd st) [""]; uidSet := ∅; depth := 0; bheap := h |}.

(** [NodeMap], the returned map with its pointers followed ([None] for a
    nil pointer). *)
Abbreviation NodeMap := (gmap string (option Node)).

Definition deref (h : gmap nat Node) (nm : gmap string (option nat)) : NodeMap :=
  (fun op => op ≫= fun p => h !! p) <$> nm.

(** [resolveDeps]: [Some (nodeMap, err)] is the pair the Go function
    returns ([None] for a nil map or a nil error). *)
Definition resolveDeps (iter : gmap string nat -> list (string * nat))
  (extract_other : Node -> option RelationshipMap) (fuel : nat)
  (m : RESTMapper) (objects : list value) (uids : list string) (depsIsDependencies : bool)
  : option (option NodeMap * option string) :=
  if Nat.eqb (length uids) 0 then Some (Some ∅, None)
  else
    match build_universe m 0 objects empty_universe with
    | inl err => Some (None, Some err)
    | inr u =>
        let h := build_graph iter extract_other u in
        match bfs_loop (globalMapByUID u) depsIsDependencies fuel
                (bfs_init (globalMapByUID u) uids h) with
        | Some st => Some (Some (deref (bheap st) (nodeMap st)), None)
        | None => None
        end
    end.

Definition ResolveDependencies iter extract_other fuel m objects uids :=
  resolveDeps iter extract_other fuel m objects uids true.
Definition ResolveDependents iter extract_other fuel m objects uids :=
  resolveDeps iter extract_other fuel m objects uids false.
(** The fields a write through [link] leaves alone. *)
Definition node_static (n : Node) :=
  (Unstructured n, UID n, Group n, Version n, Kind n, Resource n, Namespaced n,
   Namespace n, Name n, OwnerReferences n, Depth n).

(** [m[k]] of a relationship map, the empty set when absent. *)
Definition rels (m : gmap string RelationshipSet) (k : string) : RelationshipSet :=
  default ∅ (m !! k).

(** The edge [src --r--> dst] recorded in both halves. *)
Definition has_edge (h : gmap nat Node) (src dst : nat) (r : Relationship) : Prop :=
  ∃ a b, h !! src = Some a ∧ h !! dst = Some b ∧
         r ∈ rels (Dependencies a) (UID b) ∧ r ∈ rels (Dependents b) (UID a).

(** One edge write between two nodes of the heap. *)
Definition lstep (h h' : gmap nat Node) : Prop :=
  ∃ s d r, is_Some (h !! s) ∧ is_Some (h !! d) ∧ h' = link s d r h.

Definition bidir (h : gmap nat Node) : Prop :=
  ∀ p q a b R, h !! p = Some a → h !! q = Some b →
    R ∈ rels (Dependents a) (UID b) ↔ R ∈ rels (Dependencies b) (UID a).

Definition uid_inj (h : gmap nat Node) : Prop :=
  ∀ p q a b, h !! p = Some a → h !! q = Some b → UID a = UID b → p = q.

(** Writes only add relationships. *)
Definition grows (a a' : Node) : Prop :=
  (∀ k, rels (Dependencies a) k ⊆ rels (Dependencies a') k) ∧
  (∀ k, rels (Dependents a) k ⊆ rels (Dependents a') k).

(** The pointers of both indexes are nodes of the heap. *)
Definition idx_ok (u : Universe) (h : gmap nat Node) : Prop :=
  (∀ k q, globalMapByUID u !! k = Some q → is_Some (h !! q)) ∧
  (∀ k q, globalMapByKey u !! k = Some q → is_Some (h !! q)).

Definition upd_Q (u : Universe) (p : nat) (h : gmap nat Node) : Prop :=
  is_Some (h !! p) ∧ idx_ok u h.

Definition write_ok (u : Universe) (p : nat)
  (write : nat → RelationshipSet → gmap nat Node → gmap nat Node) : Prop :=
  ∀ q rset h, upd_Q u p h → is_Some (h !! q) → rtc lstep h (write q rset h).

(** The universe built from [objects]: index pointers are nodes, and the
    node at position [p] is the one made from [objects !! p]. *)
Definition univ_ok (objects : list value) (u : Universe) : Prop :=
  idx_ok u (heap u) ∧
  (∀ p n, heap u !! p = Some n → ∃ mp o, objects !! p = Some o ∧ n = new_node mp o).

(** The traversal only writes [Depth]. *)
Definition node_edges (n : Node) := (UID n, Dependencies n, Dependents n).

Definition cr_ols (s : Selector) : ObjectLabelSelector :=
  {| ols_group := "rbac.authorization.k8s.io"; ols_kind := "ClusterRole";
     ols_namespace := ""; ols_selector := s |}.

Definition selects_labels (labels : gmap string string) (ls : LabelSelector) : bool :=
  match LabelSelectorAsSelector ls with Some s => Matches s labels | None => false end.

Definition psp_os : ObjectSelector :=
  {| os_group := "policy"; os_kind := "PodSecurityPolicy"; os_namespaces := ∅ |}.

Definition psp_ref (nm : string) : ObjectReference :=
  {| ref_group := "policy"; ref_kind := "PodSecurityPolicy"; ref_namespace := ""; ref_name := nm |}.

Definition sel_grows (r0 r : RelationshipMap) : Prop :=
  (∀ key R, R ∈ rels (DependenciesBySelector r0) key → R ∈ rels (DependenciesBySelector r) key) ∧
  (ObjectSelectors r0 !! KindSelKey psp_os = Some psp_os →
   ObjectSelectors r !! KindSelKey psp_os = Some psp_os).

(** Whether [add_object] stores a node under the UID-index key [k]: its
    own UID, or, for a core-group [Node], its name or hostname label. *)
Definition claims (n : Node) (k : string) : bool :=
  String.eqb (UID n) k ||
  (String.eqb (Group n) "" && String.eqb (Kind n) "Node" &&
   (String.eqb (Name n) k || bool_decide (GetLabels (Unstructured n) !! LabelHostname = Some k))).

Definition last_claim (u : Universe) (k : string) (p : nat) : Prop :=
  ∃ n, heap u !! p = Some n ∧ claims n k = true ∧
       ∀ p' n', heap u !! p' = Some n' → claims n' k = true → p' ≤ p.

Definition uid_index_ok (ix : nat) (u : Universe) : Prop :=
  (∀ p, is_Some (heap u !! p) → p < ix) ∧
  (∀ k p, globalMapByUID u !! k = Some p ↔ last_claim u k p).

(** Number of backslashes in a string. *)
Fixpoint count_bs (s : string) : nat :=
  match s with
  | EmptyString => 0
  | String c s' => (if Ascii.eqb c "\"%char then 1 else 0) + count_bs s'
  end.

(** A RESTMapper that knows the built-in kinds the scenarios use. *)
Definition demo_resources : list (string * string * string) :=
  [("", "Node", "nodes"); ("", "Event", "events"); ("", "ConfigMap", "configmaps");
   ("", "Pod", "pods"); ("", "Service", "services"); ("", "Secret", "secrets");
   ("rbac.authorization.k8s.io", "ClusterRole", "clusterroles");
   ("policy", "PodSecurityPolicy", "podsecuritypolicies");
   ("extensions", "PodSecurityPolicy", "podsecuritypolicies");
   ("networking.k8s.io", "Ingress", "ingresses"); ("extensions", "Ingress", "ingresses")].

Definition demo_mapper : RESTMapper := fun g k v =>
  match find (fun '(g', k', _) => String.eqb g g' && String.eqb k k') demo_resources with
  | Some (_, _, r) => inr {| rm_group := g; rm_version := v; rm_resource := r; rm_kind := k |}
  | None => inl ("no matches for kind " ++ k ++ " in version " ++ v)
  end.

Definition meta (fs : list (string * value)) : string * value := ("metadata", VObj fs).

(** What the scenarios look at in a result: per entry, the node's UID,
    depth, dependencies and dependents. *)
Definition rels_view (m : gmap string RelationshipSet) : list (string * list string) :=
  map (fun '(k, s) => (k, elements s)) (map_to_list m).
Definition node_view (n : Node) :=
  (UID n, Depth n, rels_view (Dependencies n), rels_view (Dependents n)).
Definition nodemap_view (nm : NodeMap) :=
  map (fun '(k, on) => (k, node_view <$> on)) (map_to_list nm).
Definition result_view (r : option (option NodeMap * option string)) :=
  match r with
  | Some (nm, e) => Some (nodemap_view <$> nm, e)
  | None => None
  end.

(* S3 *)
Definition node_worker1 : value :=
  VObj [("apiVersion", VStr "v1"); ("kind", VStr "Node");
        meta [("name", VStr "worker-1"); ("uid", VStr "n")]].
Definition event_x : value :=
  VObj [("apiVersion", VStr "v1"); ("kind", VStr "Event");
        meta [("name", VStr "x"); ("namespace", VStr "default"); ("uid", VStr "e")];
        ("involvedObject", VObj [("kind", VStr "Node"); ("name", VStr "worker-1"); ("uid", VStr "n")])].

Definition cr_r : value :=
  VObj [("apiVersion", VStr "rbac.authorization.k8s.io/v1"); ("kind", VStr "ClusterRole");
        meta [("name", VStr "r"); ("uid", VStr "r")];
        ("rules", VList [VObj [("apiGroups", VList [VStr "policy"]);
                               ("resources", VList [VStr "podsecuritypolicies"]);
                               ("verbs", VList [VStr "use"]); ("resourceNames", VList [])]])].
Definition psp (name : string) : value :=
  VObj [("apiVersion", VStr "policy/v1beta1"); ("kind", VStr "PodSecurityPolicy");
        meta [("name", VStr name); ("uid", VStr name)]; ("spec", VObj [])].
Definition cr_agg : value :=
  VObj [("apiVersion", VStr "rbac.authorization.k8s.io/v1"); ("kind", VStr "ClusterRole");
        meta [("name", VStr "agg"); ("uid", VStr "a");
              ("labels", VObj [("rbac.example.com/aggregate", VStr "true")])];
        ("aggregationRule", VObj [("clusterRoleSelectors",
           VList [VObj [("matchLabels", VObj [("rbac.example.com/aggregate", VStr "true")])]])])].
Definition svc_web : value :=
  VObj [("apiVersion", VStr "v1"); ("kind", VStr "Service");
        meta [("name", VStr "web"); ("namespace", VStr "default"); ("uid", VStr "x")]].
Definition cm_other : value :=
  VObj [("apiVersion", VStr "v1"); ("kind", VStr "ConfigMap");
        meta [("name", VStr "other"); ("namespace", VStr "default"); ("uid", VStr "x")]].
Definition ing_web : value :=
  VObj [("apiVersion", VStr "networking.k8s.io/v1"); ("kind", VStr "Ingress");
        meta [("name", VStr "ing"); ("namespace", VStr "default"); ("uid", VStr "i")];
        ("spec", VObj [("defaultBackend", VObj [("service", VObj [("name", VStr "web")])])])].
Definition cm_w1 : value :=
  VObj [("apiVersion", VStr "v1"); ("kind", VStr "ConfigMap");
        meta [("name", VStr "c"); ("namespace", VStr "default"); ("uid", VStr "w1")]].
Definition node_named (name uid : string) : value :=
  VObj [("apiVersion", VStr "v1"); ("kind", VStr "Node"); meta [("name", VStr name); ("uid", VStr uid)]].
Definition cm_owned : value :=
  VObj [("apiVersion", VStr "v1"); ("kind", VStr "ConfigMap");
        meta [("name", VStr "c"); ("namespace", VStr "default"); ("uid", VStr "c");
              ("ownerReferences", VList [VObj [("apiVersion", VStr "v1"); ("kind", VStr "Node");
                                               ("name", VStr "w"); ("uid", VStr "n")]])]].
Definition svc_s : value :=
  VObj [("apiVersion", VStr "v1"); ("kind", VStr "Service");
        meta [("name", VStr "s"); ("namespace", VStr "ns"); ("uid", VStr "s")]; ("spec", VObj [])].
Definition pod (name ns : string) : value :=
  VObj [("apiVersion", VStr "v1"); ("kind", VStr "Pod");
        meta [("name", VStr name); ("namespace", VStr ns); ("uid", VStr name)]].
Definition ingress_with_tls (apiVersion : string) : value :=
  VObj [("apiVersion", VStr apiVersion); ("kind", VStr "Ingress");
        meta [("name", VStr "ing"); ("namespace", VStr "default"); ("uid", VStr "i")];
        ("spec", VObj [("tls", VList [VObj [("secretName", VStr "tls-s")]])])].
Definition widget : value :=
  VObj [("apiVersion", VStr "example.com/v1"); ("kind", VStr "Widget");
        meta [("name", VStr "w"); ("namespace", VStr "default"); ("uid", VStr "wd")]].

Definition cr_bad_agg : value :=
  VObj [("apiVersion", VStr "rbac.authorization.k8s.io/v1"); ("kind", VStr "ClusterRole");
        meta [("name", VStr "r"); ("uid", VStr "r")];
        ("aggregationRule", VObj [("clusterRoleSelectors",
           VList [VObj [("matchExpressions",
                    VList [VObj [("key", VStr "k"); ("operator", VStr "Bogus")]])]])]);
        ("rules", VList [VObj [("apiGroups", VList [VStr "policy"]);
                               ("resources", VList [VStr "podsecuritypolicies"]);
                               ("verbs", VList [VStr "use"]); ("resourceNames", VList [])]])].
Definition psp_ext (name : string) : value :=
  VObj [("apiVersion", VStr "extensions/v1beta1"); ("kind", VStr "PodSecurityPolicy");
        meta [("name", VStr name); ("uid", VStr name)]; ("spec", VObj [])].

Definition ref_rels_in (allowed : list Relationship) (m : RelationshipMap) : Prop :=
  ∀ k R, R ∈ rels (DependenciesByRef m) k → R ∈ allowed.

(* ------------------------------------------------------------------ *)
(** ** The other extractors of [src/internal/graph/kubernetes.go] *)

Definition RelationshipAPIService : Relationship := "APIService".
Definition RelationshipClusterRoleBindingSubject : Relationship := "ClusterRoleBindingSubject".
Definition RelationshipClusterRoleBindingRole : Relationship := "ClusterRoleBindingRole".
Definition RelationshipRoleBindingSubject : Relationship := "RoleBindingSubject".
Definition RelationshipRoleBindingRole : Relationship := "RoleBindingRole".
Definition RelationshipRolePolicyRule : Relationship := "RolePolicyRule".
Definition RelationshipCSINodeDriver : Relationship := "CSINodeDriver".
Definition RelationshipCSIStorageCapacityStorageClass : Relationship := "CSIStorageCapacityStorageClass".
Definition RelationshipIngressClassParameters : Relationship := "IngressClassParameters".
Definition RelationshipWebhookConfigurationService : Relationship := "WebhookConfigurationService".
Definition RelationshipNetworkPolicy : Relationship := "NetworkPolicy".
Definition RelationshipPersistentVolumeClaim : Relationship := "PersistentVolumeClaim".
Definition RelationshipPersistentVolumeCSIDriver : Relationship := "PersistentVolumeCSIDriver".
Definition RelationshipPersistentVolumeCSIDriverSecret : Relationship := "PersistentVolumeCSIDriverSecret".
Definition RelationshipPersistentVolumeStorageClass : Relationship := "PersistentVolumeStorageClass".
Definition RelationshipPodContainerEnv : Relationship := "PodContainerEnvironment".
Definition RelationshipPodImagePullSecret : Relationship := "PodImagePullSecret".
Definition RelationshipPodNode : Relationship := "PodNode".
Definition RelationshipPodPriorityClass : Relationship := "PodPriorityClass".
Definition RelationshipPodRuntimeClass : Relationship := "PodRuntimeClass".
Definition RelationshipPodSecurityPolicy : Relationship := "PodSecurityPolicy".
Definition RelationshipPodServiceAccount : Relationship := "PodServiceAccount".
Definition RelationshipPodVolume : Relationship := "PodVolume".
Definition RelationshipPodVolumeCSIDriver : Relationship := "PodVolumeCSIDriver".
Definition RelationshipPodVolumeCSIDriverSecret : Relationship := "PodVolumeCSIDriverSecret".
Definition RelationshipPodDisruptionBudget : Relationship := "PodDisruptionBudget".
Definition RelationshipRuntimeClass : Relationship := "RuntimeClass".
Definition RelationshipServiceAccountImagePullSecret : Relationship := "ServiceAccountImagePullSecret".
Definition RelationshipServiceAccountSecret : Relationship := "ServiceAccountSecret".
Definition RelationshipStorageClassProvisioner : Relationship := "StorageClassProvisioner".
Definition RelationshipVolumeAttachmentAttacher : Relationship := "VolumeAttachmentAttacher".
Definition RelationshipVolumeAttachmentNode : Relationship := "VolumeAttachmentNode".
Definition RelationshipVolumeAttachmentSourceVolume : Relationship := "VolumeAttachmentSourceVolume".
Definition RelationshipVolumeAttachmentSourceVolumeClaim : Relationship := "VolumeAttachmentSourceVolumeClaim".
Definition RelationshipVolumeAttachmentSourceVolumeCSIDriver : Relationship := "VolumeAttachmentSourceVolumeCSIDriver".
Definition RelationshipVolumeAttachmentSourceVolumeCSIDriverSecret : Relationship := "VolumeAttachmentSourceVolumeCSIDriverSecret".
Definition RelationshipVolumeAttachmentSourceVolumeStorageClass : Relationship := "VolumeAttachmentSourceVolumeStorageClass".

(** [RelationshipMap.AddDependentByKey]. *)
Definition AddDependentByKey (k : string) (r : Relationship) (m : RelationshipMap) : RelationshipMap :=
  {| DependenciesByLabelSelector := DependenciesByLabelSelector m;
     DependenciesByRef := DependenciesByRef m;
     DependenciesBySelector := DependenciesBySelector m;
     DependenciesByUID := DependenciesByUID m;
     DependentsByLabelSelector := DependentsByLabelSelector m;
     DependentsByRef := add_rel k r (DependentsByRef m);
     DependentsBySelector := DependentsBySelector m;
     DependentsByUID := DependentsByUID m;
     ObjectLabelSelectors := ObjectLabelSelectors m;
     ObjectSelectors := ObjectSelectors m |}.

(** [ref.Key()] of a reference built field by field. *)
Definition ref_key (g k ns n : string) : string :=
  RefKey {| ref_group := g; ref_kind := k; ref_namespace := ns; ref_name := n |}.

(** A struct field (not a pointer): absent or null is the zero value. *)
Definition d_struct {A} (zero : A) (f : value -> option A) (o : option value) : option A :=
  match o with
  | None | Some VNull => Some zero
  | Some v => d_obj f v
  end.

(** [metadata.namespace] of a typed object. *)
Definition d_namespace (v : value) : option string :=
  d_struct "" (fun m => d_str (field "namespace" m)) (field "metadata" v).

(** The [name] of a [LocalObjectReference] (or of a struct inlining it). *)
Definition d_name : value -> option string := d_obj (fun r => d_str (field "name" r)).

(** A [SecretReference] / [ObjectReference] / [ServiceReference]:
    name and namespace. *)
Definition d_name_ns : value -> option (string * string) :=
  d_obj (fun r => n ← d_str (field "name" r); ns ← d_str (field "namespace" r); Some (n, ns)).

(** [corev1.Pod]: the fields [getPodRelationships] reads. An [EnvFromSource]
    is its two optional references, an [EnvVar] its optional [valueFrom]
    with the two optional key references (each by name). *)
Record EnvFromSource := { ef_configMapRef : option string; ef_secretRef : option string }.
Record EnvVarSource := { evs_configMapKeyRef : option string; evs_secretKeyRef : option string }.
Record Container := { c_envFrom : list EnvFromSource; c_env : list (option EnvVarSource) }.
Record CSIVolumeSource := { csiv_driver : string; csiv_nodePublishSecretRef : option string }.
Record VolumeProjection := { vp_configMap : option string; vp_secret : option string }.
(** A [Volume], its [VolumeSource] inlined: the sources the extractor
    tests, in the order of its [switch]. *)
Record VolumeSource := {
  vs_configMap : option string;
  vs_csi : option CSIVolumeSource;
  vs_persistentVolumeClaim : option string;
  vs_projected : option (list VolumeProjection);
  vs_secret : option string }.
Record Pod := {
  pod_namespace : string;
  pod_annotations : gmap string string;
  pod_initContainers : list Container;
  pod_containers : list Container;
  pod_imagePullSecrets : list string;
  pod_nodeName : string;
  pod_priorityClassName : string;
  pod_runtimeClassName : option string;
  pod_serviceAccountName : string;
  pod_volumes : list VolumeSource }.

Definition d_EnvFromSource : value -> option EnvFromSource :=
  d_obj (fun v =>
    cm ← d_ptr d_name (field "configMapRef" v);
    s ← d_ptr d_name (field "secretRef" v);
    Some {| ef_configMapRef := cm; ef_secretRef := s |}).

Definition d_EnvVar : value -> option (option EnvVarSource) :=
  d_obj (fun v =>
    d_ptr (d_obj (fun f =>
      cm ← d_ptr d_name (field "configMapKeyRef" f);
      s ← d_ptr d_name (field "secretKeyRef" f);
      Some {| evs_configMapKeyRef := cm; evs_secretKeyRef := s |})) (field "valueFrom" v)).

Definition d_Container : value -> option Container :=
  d_obj (fun v =>
    ef ← d_list d_EnvFromSource (field "envFrom" v);
    e ← d_list d_EnvVar (field "env" v);
    Some {| c_envFrom := ef; c_env := e |}).

Definition d_VolumeSource : value -> option VolumeSource :=
  d_obj (fun v =>
    cm ← d_ptr d_name (field "configMap" v);
    csi ← d_ptr (d_obj (fun c =>
             d ← d_str (field "driver" c);
             nps ← d_ptr d_name (field "nodePublishSecretRef" c);
             Some {| csiv_driver := d; csiv_nodePublishSecretRef := nps |})) (field "csi" v);
    pvc ← d_ptr (d_obj (fun c => d_str (field "claimName" c))) (field "persistentVolumeClaim" v);
    pr ← d_ptr (d_obj (fun p =>
            d_list (d_obj (fun s =>
              cm ← d_ptr d_name (field "configMap" s);
              sec ← d_ptr d_name (field "secret" s);
              Some {| vp_configMap := cm; vp_secret := sec |})) (field "sources" p)))
            (field "projected" v);
    sec ← d_ptr (d_obj (fun s => d_str (field "secretName" s))) (field "secret" v);
    Some {| vs_configMap := cm; vs_csi := csi; vs_persistentVolumeClaim := pvc;
            vs_projected := pr; vs_secret := sec |}).

Definition zero_PodSpec :=
  ([] : list Container, [] : list Container, [] : list string, "", "", (None : option string), "",
   [] : list VolumeSource).

Definition d_Pod : value -> option Pod :=
  d_obj (fun v =>
    ns ← d_namespace v;
    ann ← d_struct ∅ (fun m => d_strmap (field "annotations" m)) (field "metadata" v);
    spec ← d_struct zero_PodSpec (fun s =>
      ic ← d_list d_Container (field "initContainers" s);
      cs ← d_list d_Container (field "containers" s);
      ips ← d_list d_name (field "imagePullSecrets" s);
      nn ← d_str (field "nodeName" s);
      pc ← d_str (field "priorityClassName" s);
      rc ← d_ptr d_str_v (field "runtimeClassName" s);
      sa ← d_str (field "serviceAccountName" s);
      vols ← d_list d_VolumeSource (field "volumes" s);
      Some (ic, cs, ips, nn, pc, rc, sa, vols)) (field "spec" v);
    let '(ic, cs, ips, nn, pc, rc, sa, vols) := spec in
    Some {| pod_namespace := ns; pod_annotations := ann; pod_initContainers := ic;
            pod_containers := cs; pod_imagePullSecrets := ips; pod_nodeName := nn;
            pod_priorityClassName := pc; pod_runtimeClassName := rc;
            pod_serviceAccountName := sa; pod_volumes := vols |}).

(** The container part of [getPodRelationships]: [envFrom], then [env]. *)
Definition pod_container (ns : string) (result : RelationshipMap) (c : Container) : RelationshipMap :=
  let result :=
    fold_left (fun m env =>
      match ef_configMapRef env, ef_secretRef env with
      | Some cm, _ => AddDependencyByKey (ref_key "" "ConfigMap" ns cm) RelationshipPodContainerEnv m
      | None, Some s => AddDependencyByKey (ref_key "" "Secret" ns s) RelationshipPodContainerEnv m
      | None, None => m
      end) (c_envFrom c) result in
  fold_left (fun m env =>
    match env with
    | None => m
    | Some vf =>
        match evs_configMapKeyRef vf, evs_secretKeyRef vf with
        | Some cm, _ => AddDependencyByKey (ref_key "" "ConfigMap" ns cm) RelationshipPodContainerEnv m
        | None, Some s => AddDependencyByKey (ref_key "" "Secret" ns s) RelationshipPodContainerEnv m
        | None, None => m
        end
    end) (c_env c) result.

(** The volume part of [getPodRelationships], one volume. *)
Definition pod_volume (ns : string) (result : RelationshipMap) (vs : VolumeSource) : RelationshipMap :=
  match vs_configMap vs with
  | Some cm => AddDependencyByKey (ref_key "" "ConfigMap" ns cm) RelationshipPodVolume result
  | None =>
  match vs_csi vs with
  | Some csi =>
      let result := AddDependencyByKey (ref_key "storage.k8s.io" "CSIDriver" "" (csiv_driver csi))
                      RelationshipPodVolumeCSIDriver result in
      match csiv_nodePublishSecretRef csi with
      | Some nps => AddDependencyByKey (ref_key "" "Secret" ns nps) RelationshipPodVolumeCSIDriverSecret result
      | None => result
      end
  | None =>
  match vs_persistentVolumeClaim vs with
  | Some claim => AddDependencyByKey (ref_key "" "PersistentVolumeClaim" ns claim) RelationshipPodVolume result
  | None =>
  match vs_projected vs with
  | Some srcs =>
      fold_left (fun m src =>
        match vp_configMap src, vp_secret src with
        | Some cm, _ => AddDependencyByKey (ref_key "" "ConfigMap" ns cm) RelationshipPodVolume m
        | None, Some s => AddDependencyByKey (ref_key "" "Secret" ns s) RelationshipPodVolume m
        | None, None => m
        end) srcs result
  | None =>
  match vs_secret vs with
  | Some s => AddDependencyByKey (ref_key "" "Secret" ns s) RelationshipPodVolume result
  | None => result
  end end end end end.

(** [getPodRelationships]. *)
Definition getPodRelationships (n : Node) : option RelationshipMap :=
  pod ← d_Pod (Unstructured n);
  let ns := pod_namespace pod in
  let result := newRelationshipMap in
  let result := fold_left (pod_container ns) (app (pod_initContainers pod) (pod_containers pod)) result in
  let result :=
    fold_left (fun m ips => AddDependencyByKey (ref_key "" "Secret" ns ips) RelationshipPodImagePullSecret m)
      (pod_imagePullSecrets pod) result in
  let result := AddDependencyByKey (ref_key "" "Node" "" (pod_nodeName pod)) RelationshipPodNode result in
  let result :=
    if negb (Nat.eqb (String.length (pod_priorityClassName pod)) 0) then
      AddDependencyByKey (ref_key "scheduling.k8s.io" "PriorityClass" "" (pod_priorityClassName pod))
        RelationshipPodPriorityClass result
    else result in
  let result :=
    match pod_runtimeClassName pod with
    | Some rc =>
        if negb (Nat.eqb (String.length rc) 0) then
          AddDependencyByKey (ref_key "node.k8s.io" "RuntimeClass" "" rc) RelationshipPodRuntimeClass result
        else result
    | None => result
    end in
  let result :=
    match pod_annotations pod !! "kubernetes.io/psp" with
    | Some psp => AddDependencyByKey (ref_key "policy" "PodSecurityPolicy" "" psp) RelationshipPodSecurityPolicy result
    | None => result
    end in
  let result :=
    if negb (Nat.eqb (String.length (pod_serviceAccountName pod)) 0) then
      AddDependencyByKey (ref_key "" "ServiceAccount" ns (pod_serviceAccountName pod))
        RelationshipPodServiceAccount result
    else result in
  Some (fold_left (pod_volume ns) (pod_volumes pod) result).

(** A [CSIPersistentVolumeSource]: the driver and the four secret
    references (name, namespace). *)
Record CSIPersistentVolumeSource := {
  csi_driver : string;
  csi_controllerExpandSecretRef : option (string * string);
  csi_controllerPublishSecretRef : option (string * string);
  csi_nodePublishSecretRef : option (string * string);
  csi_nodeStageSecretRef : option (string * string) }.

(** A [PersistentVolumeSpec]: [claimRef] (name, namespace), the CSI source
    of its inlined [PersistentVolumeSource], and [storageClassName]. *)
Record PersistentVolumeSpec := {
  pvs_claimRef : option (string * string);
  pvs_csi : option CSIPersistentVolumeSource;
  pvs_storageClassName : string }.

Definition zero_PersistentVolumeSpec : PersistentVolumeSpec :=
  {| pvs_claimRef := None; pvs_csi := None; pvs_storageClassName := "" |}.

Definition d_CSIPersistentVolumeSource : value -> option CSIPersistentVolumeSource :=
  d_obj (fun c =>
    d ← d_str (field "driver" c);
    ces ← d_ptr d_name_ns (field "controllerExpandSecretRef" c);
    cps ← d_ptr d_name_ns (field "controllerPublishSecretRef" c);
    nps ← d_ptr d_name_ns (field "nodePublishSecretRef" c);
    nss ← d_ptr d_name_ns (field "nodeStageSecretRef" c);
    Some {| csi_driver := d; csi_controllerExpandSecretRef := ces;
            csi_controllerPublishSecretRef := cps; csi_nodePublishSecretRef := nps;
            csi_nodeStageSecretRef := nss |}).

Definition d_PersistentVolumeSpec : value -> option PersistentVolumeSpec :=
  d_obj (fun s =>
    cr ← d_ptr d_name_ns (field "claimRef" s);
    csi ← d_ptr d_CSIPersistentVolumeSource (field "csi" s);
    sc ← d_str (field "storageClassName" s);
    Some {| pvs_claimRef := cr; pvs_csi := csi; pvs_storageClassName := sc |}).

(** [corev1.PersistentVolume]: its namespace and its spec. *)
Definition d_PersistentVolume (v : value) : option (string * PersistentVolumeSpec) :=
  d_obj (fun v =>
    ns ← d_namespace v;
    spec ← d_struct zero_PersistentVolumeSpec d_PersistentVolumeSpec (field "spec" v);
    Some (ns, spec)) v.

(** The four CSI secret references of a persistent volume source, each a
    by-Ref key of a [Secret] recorded with [add]. *)
Definition csi_secrets (add : string -> RelationshipMap -> RelationshipMap)
  (csi : CSIPersistentVolumeSource) (result : RelationshipMap) : RelationshipMap :=
  let sec o m := match o with
                 | Some (n, ns) => add (ref_key "" "Secret" ns n) m
                 | None => m
                 end in
  sec (csi_nodeStageSecretRef csi) (sec (csi_nodePublishSecretRef csi)
    (sec (csi_controllerPublishSecretRef csi) (sec (csi_controllerExpandSecretRef csi) result))).

(** [getPersistentVolumeRelationships]. *)
Definition getPersistentVolumeRelationships (n : Node) : option RelationshipMap :=
  '(ns, spec) ← d_PersistentVolume (Unstructured n);
  let result := newRelationshipMap in
  let result :=
    match pvs_claimRef spec with
    | Some (name, _) =>
        AddDependentByKey (ref_key "" "PersistentVolumeClaim" ns name) RelationshipPersistentVolumeClaim result
    | None => result
    end in
  let result :=
    match pvs_csi spec with
    | Some csi =>
        let result :=
          if negb (Nat.eqb (String.length (csi_driver csi)) 0) then
            AddDependencyByKey (ref_key "storage.k8s.io" "CSIDriver" "" (csi_driver csi))
              RelationshipPersistentVolumeCSIDriver result
          else result in
        csi_secrets (fun k => AddDependentByKey k RelationshipPersistentVolumeCSIDriverSecret) csi result
    | None => result
    end in
  Some (if negb (Nat.eqb (String.length (pvs_storageClassName spec)) 0) then
          AddDependencyByKey (ref_key "storage.k8s.io" "StorageClass" "" (pvs_storageClassName spec))
            RelationshipPersistentVolumeStorageClass result
        else result).

(** [getPersistentVolumeClaimRelationships]. *)
Definition d_PersistentVolumeClaim : value -> option string :=
  d_obj (fun v => d_struct "" (fun s => d_str (field "volumeName" s)) (field "spec" v)).

Definition getPersistentVolumeClaimRelationships (n : Node) : option RelationshipMap :=
  pv ← d_PersistentVolumeClaim (Unstructured n);
  Some (if negb (Nat.eqb (String.length pv) 0) then
          AddDependencyByKey (ref_key "" "PersistentVolume" "" pv) RelationshipPersistentVolumeClaim
            newRelationshipMap
        else newRelationshipMap).

(** [getServiceAccountRelationships]: [imagePullSecrets] and [secrets]
    (by name). *)
Definition d_ServiceAccount : value -> option (string * list string * list string) :=
  d_obj (fun v =>
    ns ← d_namespace v;
    ips ← d_list d_name (field "imagePullSecrets" v);
    secs ← d_list d_name (field "secrets" v);
    Some (ns, ips, secs)).

Definition getServiceAccountRelationships (n : Node) : option RelationshipMap :=
  '(ns, ips, secs) ← d_ServiceAccount (Unstructured n);
  let result :=
    fold_left (fun m s => AddDependencyByKey (ref_key "" "Secret" ns s)
                            RelationshipServiceAccountImagePullSecret m) ips newRelationshipMap in
  Some (fold_left (fun m s => AddDependentByKey (ref_key "" "Secret" ns s)
                                RelationshipServiceAccountSecret m) secs result).

(** [getPodDisruptionBudgetRelationships] ([policy/v1]): the optional
    [spec.selector]. *)
Definition d_PodDisruptionBudget : value -> option (string * option LabelSelector) :=
  d_obj (fun v =>
    ns ← d_namespace v;
    sel ← d_struct None (fun s => d_ptr d_LabelSelector (field "selector" s)) (field "spec" v);
    Some (ns, sel)).

Definition getPodDisruptionBudgetRelationships (n : Node) : option RelationshipMap :=
  '(ns, sel) ← d_PodDisruptionBudget (Unstructured n);
  match sel with
  | Some s =>
      selector ← LabelSelectorAsSelector s;
      Some (AddDependencyByLabelSelector
              {| ols_group := ""; ols_kind := "Pod"; ols_namespace := ns; ols_selector := selector |}
              RelationshipPodDisruptionBudget newRelationshipMap)
  | None => Some newRelationshipMap
  end.

(** The webhooks of a [MutatingWebhookConfiguration] or a
    [ValidatingWebhookConfiguration]: the optional service reference
    (name, namespace) of each [clientConfig]. *)
Definition d_webhooks (v : value) : option (list (option (string * string))) :=
  d_obj (fun v =>
    d_list (d_obj (fun wh =>
      d_struct None (fun cc => d_ptr d_name_ns (field "service" cc)) (field "clientConfig" wh)))
      (field "webhooks" v)) v.

Definition webhook_relationships (whs : list (option (string * string))) : RelationshipMap :=
  fold_left (fun m wh =>
    match wh with
    | Some (name, ns) => AddDependencyByKey (ref_key "" "Service" ns name)
                           RelationshipWebhookConfigurationService m
    | None => m
    end) whs newRelationshipMap.

(** [getMutatingWebhookConfigurationRelationships]. *)
Definition getMutatingWebhookConfigurationRelationships (n : Node) : option RelationshipMap :=
  whs ← d_webhooks (Unstructured n); Some (webhook_relationships whs).

(** [getValidatingWebhookConfigurationRelationships]. *)
Definition getValidatingWebhookConfigurationRelationships (n : Node) : option RelationshipMap :=
  whs ← d_webhooks (Unstructured n); Some (webhook_relationships whs).

(** [getAPIServiceRelationships]: the optional [spec.service]. *)
Definition d_APIService : value -> option (option (string * string)) :=
  d_obj (fun v => d_struct None (fun s => d_ptr d_name_ns (field "service" s)) (field "spec" v)).

Definition getAPIServiceRelationships (n : Node) : option RelationshipMap :=
  svc ← d_APIService (Unstructured n);
  Some match svc with
       | Some (name, ns) => AddDependencyByKey (ref_key "" "Service" ns name) RelationshipAPIService
                              newRelationshipMap
       | None => newRelationshipMap
       end.

(** [networkingv1.IngressClassParametersReference]. *)
Record IngressClassParameters := {
  icp_apiGroup : option string; icp_kind : string; icp_name : string; icp_namespace : option string }.

(** [getIngressClassRelationships]. *)
Definition d_IngressClass : value -> option (option IngressClassParameters) :=
  d_obj (fun v => d_struct None (fun s =>
    d_ptr (d_obj (fun p =>
      g ← d_ptr d_str_v (field "apiGroup" p);
      k ← d_str (field "kind" p);
      nm ← d_str (field "name" p);
      ns ← d_ptr d_str_v (field "namespace" p);
      Some {| icp_apiGroup := g; icp_kind := k; icp_name := nm; icp_namespace := ns |}))
      (field "parameters" s)) (field "spec" v)).

Definition getIngressClassRelationships (n : Node) : option RelationshipMap :=
  p ← d_IngressClass (Unstructured n);
  Some match p with
       | Some p =>
           let group := match icp_apiGroup p with Some g => g | None => "" end in
           let ns := match icp_namespace p with Some s => s | None => "" end in
           AddDependencyByKey (ref_key group (icp_kind p) ns (icp_name p))
             RelationshipIngressClassParameters newRelationshipMap
       | None => newRelationshipMap
       end.

Definition empty_LabelSelector : LabelSelector := {| matchLabels := ∅; matchExpressions := [] |}.

(** [getNetworkPolicyRelationships]: [spec.podSelector] is a struct, the
    empty selector when absent. *)
Definition d_NetworkPolicy : value -> option (string * LabelSelector) :=
  d_obj (fun v =>
    ns ← d_namespace v;
    ps ← d_struct empty_LabelSelector
           (fun s => d_struct empty_LabelSelector d_LabelSelector (field "podSelector" s))
           (field "spec" v);
    Some (ns, ps)).

Definition getNetworkPolicyRelationships (n : Node) : option RelationshipMap :=
  '(ns, ps) ← d_NetworkPolicy (Unstructured n);
  selector ← LabelSelectorAsSelector ps;
  Some (AddDependencyByLabelSelector
          {| ols_group := ""; ols_kind := "Pod"; ols_namespace := ns; ols_selector := selector |}
          RelationshipNetworkPolicy newRelationshipMap).

(** [getRuntimeClassRelationships] ([node.k8s.io/v1]): the optional
    [scheduling] with its [nodeSelector]. *)
Definition d_RuntimeClass : value -> option (option (gmap string string)) :=
  d_obj (fun v => d_ptr (d_obj (fun s => d_strmap (field "nodeSelector" s))) (field "scheduling" v)).

Definition getRuntimeClassRelationships (n : Node) : option RelationshipMap :=
  sched ← d_RuntimeClass (Unstructured n);
  match sched with
  | Some ns =>
      selector ← ValidatedSelectorFromSet ns;
      Some (AddDependencyByLabelSelector
              {| ols_group := ""; ols_kind := "Node"; ols_namespace := ""; ols_selector := selector |}
              RelationshipRuntimeClass newRelationshipMap)
  | None => Some newRelationshipMap
  end.

(** [rbacv1.Subject] and [rbacv1.RoleRef]. *)
Record Subject := { sub_apiGroup : string; sub_kind : string; sub_name : string; sub_namespace : string }.
Record RoleRef := { rr_apiGroup : string; rr_kind : string; rr_name : string }.

Definition d_Subject : value -> option Subject :=
  d_obj (fun s =>
    g ← d_str (field "apiGroup" s); k ← d_str (field "kind" s);
    n ← d_str (field "name" s); ns ← d_str (field "namespace" s);
    Some {| sub_apiGroup := g; sub_kind := k; sub_name := n; sub_namespace := ns |}).

Definition zero_RoleRef : RoleRef := {| rr_apiGroup := ""; rr_kind := ""; rr_name := "" |}.

Definition d_RoleRef : value -> option RoleRef :=
  d_obj (fun r =>
    g ← d_str (field "apiGroup" r); k ← d_str (field "kind" r); n ← d_str (field "name" r);
    Some {| rr_apiGroup := g; rr_kind := k; rr_name := n |}).

(** A [ClusterRoleBinding] or [RoleBinding]: namespace, subjects, role. *)
Definition d_binding (v : value) : option (string * list Subject * RoleRef) :=
  d_obj (fun v =>
    ns ← d_namespace v;
    subs ← d_list d_Subject (field "subjects" v);
    rr ← d_struct zero_RoleRef d_RoleRef (field "roleRef" v);
    Some (ns, subs, rr)) v.

Definition binding_subjects (r : Relationship) (subs : list Subject) (result : RelationshipMap)
  : RelationshipMap :=
  fold_left (fun m s =>
    AddDependentByKey (ref_key (sub_apiGroup s) (sub_kind s) (sub_namespace s) (sub_name s)) r m)
    subs result.

(** [getClusterRoleBindingRelationships]. *)
Definition getClusterRoleBindingRelationships (n : Node) : option RelationshipMap :=
  '(_, subs, r) ← d_binding (Unstructured n);
  let result := binding_subjects RelationshipClusterRoleBindingSubject subs newRelationshipMap in
  Some (AddDependencyByKey (ref_key (rr_apiGroup r) (rr_kind r) "" (rr_name r))
          RelationshipClusterRoleBindingRole result).

(** [getRoleBindingRelationships]: the role reference carries the
    binding's namespace. *)
Definition getRoleBindingRelationships (n : Node) : option RelationshipMap :=
  '(ns, subs, r) ← d_binding (Unstructured n);
  let result := binding_subjects RelationshipRoleBindingSubject subs newRelationshipMap in
  Some (AddDependencyByKey (ref_key (rr_apiGroup r) (rr_kind r) ns (rr_name r))
          RelationshipRoleBindingRole result).

(** The PodSecurityPolicy part of [getRoleRelationships], one rule. *)
Definition role_rule (result : RelationshipMap) (r : PolicyRule) : RelationshipMap :=
  if podSecurityPolicyMatches r then
    match ResourceNames r with
    | [] =>
        AddDependencyBySelector
          {| os_group := "policy"; os_kind := "PodSecurityPolicy"; os_namespaces := ∅ |}
          RelationshipRolePolicyRule result
    | names =>
        fold_left (fun m n =>
          AddDependencyByKey (ref_key "policy" "PodSecurityPolicy" "" n) RelationshipRolePolicyRule m)
          names result
    end
  else result.

(** [getRoleRelationships]. *)
Definition d_Role : value -> option (list PolicyRule) :=
  d_obj (fun v => d_list d_PolicyRule (field "rules" v)).

Definition getRoleRelationships (n : Node) : option RelationshipMap :=
  rules ← d_Role (Unstructured n);
  Some (fold_left role_rule rules newRelationshipMap).

(** [getCSIStorageCapacityRelationships] ([storage.k8s.io/v1beta1]). *)
Definition d_CSIStorageCapacity : value -> option string :=
  d_obj (fun v => d_str (field "storageClassName" v)).

Definition getCSIStorageCapacityRelationships (n : Node) : option RelationshipMap :=
  sc ← d_CSIStorageCapacity (Unstructured n);
  Some (if Nat.ltb 0 (String.length sc) then
          AddDependencyByKey (ref_key "storage.k8s.io" "StorageClass" "" sc)
            RelationshipCSIStorageCapacityStorageClass newRelationshipMap
        else newRelationshipMap).

(** [getCSINodeRelationships]: the drivers of [spec.drivers], by name. *)
Definition d_CSINode : value -> option (list string) :=
  d_obj (fun v => d_struct [] (fun s => d_list d_name (field "drivers" s)) (field "spec" v)).

Definition getCSINodeRelationships (n : Node) : option RelationshipMap :=
  ds ← d_CSINode (Unstructured n);
  Some (fold_left (fun m d => AddDependentByKey (ref_key "storage.k8s.io" "CSIDriver" "" d)
                                RelationshipCSINodeDriver m) ds newRelationshipMap).

(** [strings.HasPrefix]. *)
Definition HasPrefix (s p : string) : bool := String.prefix p s.

(** [getStorageClassRelationships]: external provisioners only. *)
Definition d_StorageClass : value -> option string :=
  d_obj (fun v => d_str (field "provisioner" v)).

Definition getStorageClassRelationships (n : Node) : option RelationshipMap :=
  p ← d_StorageClass (Unstructured n);
  Some (if Nat.ltb 0 (String.length p) && negb (HasPrefix p "kubernetes.io/") then
          AddDependencyByKey (ref_key "storage.k8s.io" "CSIDriver" "" p)
            RelationshipStorageClassProvisioner newRelationshipMap
        else newRelationshipMap).

(** [storagev1.VolumeAttachmentSpec]. *)
Record VolumeAttachmentSpec := {
  va_attacher : string;
  va_nodeName : string;
  va_persistentVolumeName : option string;
  va_inlineVolumeSpec : option PersistentVolumeSpec }.

Definition zero_VolumeAttachmentSpec : VolumeAttachmentSpec :=
  {| va_attacher := ""; va_nodeName := ""; va_persistentVolumeName := None;
     va_inlineVolumeSpec := None |}.

Definition d_VolumeAttachmentSpec : value -> option VolumeAttachmentSpec :=
  d_obj (fun s =>
    a ← d_str (field "attacher" s);
    nn ← d_str (field "nodeName" s);
    '(pvn, iv) ← d_struct (None, None) (fun src =>
        pvn ← d_ptr d_str_v (field "persistentVolumeName" src);
        iv ← d_ptr d_PersistentVolumeSpec (field "inlineVolumeSpec" src);
        Some (pvn, iv)) (field "source" s);
    Some {| va_attacher := a; va_nodeName := nn; va_persistentVolumeName := pvn;
            va_inlineVolumeSpec := iv |}).

(** [getVolumeAttachmentRelationships]. *)
Definition d_VolumeAttachment : value -> option VolumeAttachmentSpec :=
  d_obj (fun v => d_struct zero_VolumeAttachmentSpec d_VolumeAttachmentSpec (field "spec" v)).

Definition getVolumeAttachmentRelationships (n : Node) : option RelationshipMap :=
  spec ← d_VolumeAttachment (Unstructured n);
  let result := newRelationshipMap in
  let result :=
    if Nat.ltb 0 (String.length (va_attacher spec)) then
      AddDependencyByKey (ref_key "storage.k8s.io" "CSIDriver" "" (va_attacher spec))
        RelationshipVolumeAttachmentAttacher result
    else result in
  let result :=
    if Nat.ltb 0 (String.length (va_nodeName spec)) then
      AddDependencyByKey (ref_key "" "Node" "" (va_nodeName spec)) RelationshipVolumeAttachmentNode result
    else result in
  let result :=
    match va_persistentVolumeName spec with
    | Some pv =>
        if Nat.ltb 0 (String.length pv) then
          AddDependentByKey (ref_key "" "PersistentVolume" "" pv) RelationshipVolumeAttachmentSourceVolume result
        else result
    | None => result
    end in
  Some match va_inlineVolumeSpec spec with
       | Some iv =>
           let result :=
             match pvs_claimRef iv with
             | Some (name, ns) =>
                 AddDependentByKey (ref_key "" "PersistentVolumeClaim" ns name)
                   RelationshipVolumeAttachmentSourceVolumeClaim result
             | None => result
             end in
           let result :=
             AddDependentByKey (ref_key "storage.k8s.io" "StorageClass" "" (pvs_storageClassName iv))
               RelationshipVolumeAttachmentSourceVolumeStorageClass result in
           match pvs_csi iv with
           | Some csi =>
               let result :=
                 if Nat.ltb 0 (String.length (csi_driver csi)) then
                   AddDependentByKey (ref_key "storage.k8s.io" "CSIDriver" "" (csi_driver csi))
                     RelationshipVolumeAttachmentSourceVolumeCSIDriver result
                 else result in
               csi_secrets (fun k => AddDependentByKey k RelationshipVolumeAttachmentSourceVolumeCSIDriverSecret)
                 csi result
           | None => result
           end
       | None => result
       end.

(** The extractors [extract] leaves to its parameter, dispatched on the
    group and kind as the [switch] of [resolveDeps] does. *)
Definition extract_kube (n : Node) : option RelationshipMap :=
  if is_gk n "" "PersistentVolume" then getPersistentVolumeRelationships n
  else if is_gk n "" "PersistentVolumeClaim" then getPersistentVolumeClaimRelationships n
  else if is_gk n "" "Pod" then getPodRelationships n
  else if is_gk n "" "ServiceAccount" then getServiceAccountRelationships n
  else if is_gk n "policy" "PodDisruptionBudget" then getPodDisruptionBudgetRelationships n
  else if is_gk n "admissionregistration.k8s.io" "MutatingWebhookConfiguration" then
    getMutatingWebhookConfigurationRelationships n
  else if is_gk n "admissionregistration.k8s.io" "ValidatingWebhookConfiguration" then
    getValidatingWebhookConfigurationRelationships n
  else if is_gk n "apiregistration.k8s.io" "APIService" then getAPIServiceRelationships n
  else if is_gk n "networking.k8s.io" "IngressClass" then getIngressClassRelationships n
  else if is_gk n "networking.k8s.io" "NetworkPolicy" then getNetworkPolicyRelationships n
  else if is_gk n "node.k8s.io" "RuntimeClass" then getRuntimeClassRelationships n
  else if is_gk n "rbac.authorization.k8s.io" "ClusterRoleBinding" then getClusterRoleBindingRelationships n
  else if is_gk n "rbac.authorization.k8s.io" "Role" then getRoleRelationships n
  else if is_gk n "rbac.authorization.k8s.io" "RoleBinding" then getRoleBindingRelationships n
  else if is_gk n "storage.k8s.io" "CSIStorageCapacity" then getCSIStorageCapacityRelationships n
  else if is_gk n "storage.k8s.io" "CSINode" then getCSINodeRelationships n
  else if is_gk n "storage.k8s.io" "StorageClass" then getStorageClassRelationships n
  else if is_gk n "storage.k8s.io" "VolumeAttachment" then getVolumeAttachmentRelationships n
  else None.

(* ------------------------------------------------------------------ *)
(** ** Definitions of the further properties *)

(** Number of sentinel entries, and of real entries, of a queue. *)
Definition empties (q : list string) : nat := length (filter (fun x => x = "") q).

Definition reals (q : list string) : nat := length (filter (fun x => x ≠ "") q).

(** Every key of a node's dependencies or dependents is the UID of a node. *)
Definition keys_ok (h : gmap nat Node) : Prop :=
  ∀ p n k, h !! p = Some n → k ∈ dom (Dependencies n) ∪ dom (Dependents n) →
    ∃ q m, h !! q = Some m ∧ UID m = k.

(** Every entry of a NodeMap under construction is the UID index entry. *)
Definition nm_ok (byUID : gmap string nat) (nm : gmap string (option nat)) : Prop :=
  ∀ k v, nm !! k = Some v → v = byUID !! k.

(** [p] is the last object of the heap whose reference key is [k]. *)
Definition last_key (u : Universe) (k : string) (p : nat) : Prop :=
  ∃ n, heap u !! p = Some n ∧ GetObjectReferenceKey n = k ∧
       ∀ p' n', heap u !! p' = Some n' → GetObjectReferenceKey n' = k → p' ≤ p.

(** The key index after [ix] objects. *)
Definition key_index_ok (ix : nat) (u : Universe) : Prop :=
  (∀ p, is_Some (heap u !! p) → p < ix) ∧
  (∀ k p, globalMapByKey u !! k = Some p ↔ last_key u k p).

(** [RelationshipSet.List]: the members in the order the map is ranged
    over ([enum], left unspecified as for every Go map), then sorted by
    [sort.Sort] on [sortableStringSlice] (Go's [<] on strings, the
    byte-wise order [String.leb]). *)
Definition RelationshipSet_List (enum : RelationshipSet -> list string) (s : RelationshipSet) : list string :=
  sort_strings (enum s).

(** [NodeList.Less]: Namespace, then Kind, then Group, then Name. *)
Definition NodeList_Less (a b : Node) : bool :=
  if negb (String.eqb (Namespace a) (Namespace b)) then String.ltb (Namespace a) (Namespace b)
  else if negb (String.eqb (Kind a) (Kind b)) then String.ltb (Kind a) (Kind b)
  else if negb (String.eqb (Group a) (Group b)) then String.ltb (Group a) (Group b)
  else String.ltb (Name a) (Name b).

(** Go's [<] on strings. *)
Definition slt (a b : string) : Prop := String.le a b ∧ a ≠ b.

(** The invariant of the traversal loop: the edges of the heap are those
    of [h], the queued real UIDs are in [US], and the queue holds one
    sentinel. *)
Definition term_inv (h : gmap nat Node) (US : gset string) (st : BfsState) : Prop :=
  (∀ p, node_edges <$> bheap st !! p = node_edges <$> h !! p) ∧
  (∀ x, x ∈ uidQueue st → x ≠ "" → x ∈ US) ∧
  empties (uidQueue st) = 1.

(** The relationship kinds of [getPodRelationships]. *)
Definition pod_rels : list Relationship :=
  [RelationshipPodContainerEnv; RelationshipPodImagePullSecret; RelationshipPodNode;
   RelationshipPodPriorityClass; RelationshipPodRuntimeClass; RelationshipPodSecurityPolicy;
   RelationshipPodServiceAccount; RelationshipPodVolume; RelationshipPodVolumeCSIDriver;
   RelationshipPodVolumeCSIDriverSecret].

(** Every bucket but [DependenciesByRef] is empty. *)
Definition by_ref_deps_only (m : RelationshipMap) : Prop :=
  DependenciesByLabelSelector m = ∅ ∧ DependenciesBySelector m = ∅ ∧ DependenciesByUID m = ∅ ∧
  DependentsByLabelSelector m = ∅ ∧ DependentsByRef m = ∅ ∧ DependentsBySelector m = ∅ ∧
  DependentsByUID m = ∅ ∧ ObjectLabelSelectors m = ∅ ∧ ObjectSelectors m = ∅.

(** Objects of the further examples. *)
Definition kube_resources : list (string * string * string) :=
  app demo_resources
    [("", "ServiceAccount", "serviceaccounts"); ("", "PersistentVolumeClaim", "persistentvolumeclaims");
     ("", "PersistentVolume", "persistentvolumes");
     ("rbac.authorization.k8s.io", "RoleBinding", "rolebindings")].

Definition kube_mapper : RESTMapper := fun g k v =>
  match find (fun '(g', k', _) => String.eqb g g' && String.eqb k k') kube_resources with
  | Some (_, _, r) => inr {| rm_group := g; rm_version := v; rm_resource := r; rm_kind := k |}
  | None => inl ("no matches for kind " ++ k ++ " in version " ++ v)
  end.

Definition cm_nouid : value :=
  VObj [("apiVersion", VStr "v1"); ("kind", VStr "ConfigMap");
        meta [("name", VStr "c"); ("namespace", VStr "default")]].

Definition pod_on (name ns node : string) : value :=
  VObj [("apiVersion", VStr "v1"); ("kind", VStr "Pod");
        meta [("name", VStr name); ("namespace", VStr ns); ("uid", VStr name)];
        ("spec", VObj [("nodeName", VStr node)])].

Definition secret (name : string) : value :=
  VObj [("apiVersion", VStr "v1"); ("kind", VStr "Secret");
        meta [("name", VStr name); ("namespace", VStr "default"); ("uid", VStr name)]].

Definition sa_x : value :=
  VObj [("apiVersion", VStr "v1"); ("kind", VStr "ServiceAccount");
        meta [("name", VStr "sa"); ("namespace", VStr "default"); ("uid", VStr "sa")];
        ("secrets", VList [VObj [("name", VStr "tok")]]);
        ("imagePullSecrets", VList [VObj [("name", VStr "reg")]])].

Definition pvc_x : value :=
  VObj [("apiVersion", VStr "v1"); ("kind", VStr "PersistentVolumeClaim");
        meta [("name", VStr "data"); ("namespace", VStr "default"); ("uid", VStr "pvc")];
        ("spec", VObj [("volumeName", VStr "pv1")])].

Definition pv_x : value :=
  VObj [("apiVersion", VStr "v1"); ("kind", VStr "PersistentVolume");
        meta [("name", VStr "pv1"); ("uid", VStr "pv")];
        ("spec", VObj [("claimRef", VObj [("name", VStr "data"); ("namespace", VStr "default")])])].

Definition rb_x : value :=
  VObj [("apiVersion", VStr "rbac.authorization.k8s.io/v1"); ("kind", VStr "RoleBinding");
        meta [("name", VStr "rb"); ("namespace", VStr "default"); ("uid", VStr "rb")];
        ("roleRef", VObj [("apiGroup", VStr "rbac.authorization.k8s.io"); ("kind", VStr "ClusterRole");
                          ("name", VStr "view")])].

Definition node_of (g k r : string) (o : value) : Node :=
  new_node {| rm_group := g; rm_version := "v1"; rm_resource := r; rm_kind := k |} o.

Lemma rels_add_rel k r m k' :
  rels (add_rel k r m) k' = if decide (k = k') then {[r]} ∪ rels m k' else rels m k'.
Proof.
  unfold rels, add_rel. rewrite lookup_insert.
  destruct (decide (k = k')); subst; reflexivity.
Qed.

Lemma elem_rels_add_rel R k r m k' :
  R ∈ rels (add_rel k r m) k' ↔ (k = k' ∧ R = r) ∨ R ∈ rels m k'.
Proof.
  rewrite rels_add_rel. destruct (decide (k = k')); set_solver.
Qed.

Lemma lookup_link s d r h p :
  link s d r h !! p =
    (fun n => let n := if decide (s = p) then AddDependency (uid_of h d) r n else n in
              if decide (d = p) then AddDependent (uid_of h s) r n else n) <$> h !! p.
Proof.
  unfold link. rewrite lookup_alter, lookup_alter.
  destruct (decide (d = p)), (decide (s = p)); subst; simpl;
    try rewrite lookup_alter; try (rewrite decide_True by reflexivity);
    try (rewrite decide_False by congruence);
    destruct (h !! p); reflexivity.
Qed.

Lemma link_static s d r h p :
  node_static <$> link s d r h !! p = node_static <$> h !! p.
Proof.
  rewrite lookup_link. destruct (h !! p) as [n|]; [|reflexivity]. simpl.
  destruct (decide (s = p)), (decide (d = p)); reflexivity.
Qed.

Lemma static_Some (h h' : gmap nat Node) p :
  node_static <$> h' !! p = node_static <$> h !! p → is_Some (h' !! p) ↔ is_Some (h !! p).
Proof.
  intros E. destruct (h' !! p), (h !! p); simpl in *; split; intros []; try discriminate; eauto.
Qed.

Lemma lstep_static h h' p : lstep h h' → node_static <$> h' !! p = node_static <$> h !! p.
Proof. intros (s & d & r & _ & _ & ->). apply link_static. Qed.

Lemma rtc_static h h' p : rtc lstep h h' → node_static <$> h' !! p = node_static <$> h !! p.
Proof.
  induction 1 as [|x y z Hxy _ IH]; [reflexivity|].
  rewrite IH. apply lstep_static, Hxy.
Qed.

Lemma rtc_is_Some h h' p : rtc lstep h h' → is_Some (h !! p) → is_Some (h' !! p).
Proof. intros H. apply static_Some. apply rtc_static, H. Qed.

Lemma rtc_lookup h h' p n :
  rtc lstep h h' → h !! p = Some n → ∃ n', h' !! p = Some n' ∧ node_static n' = node_static n.
Proof.
  intros H Hp. pose proof (rtc_static _ _ p H) as E. rewrite Hp in E.
  destruct (h' !! p) as [n'|]; simpl in E; [|discriminate].
  apply (inj Some) in E. exists n'. split; [reflexivity|exact E].
Qed.

Lemma rtc_lookup_back h h' p n' :
  rtc lstep h h' → h' !! p = Some n' → ∃ n, h !! p = Some n ∧ node_static n' = node_static n.
Proof.
  intros H Hp. pose proof (rtc_static _ _ p H) as E. rewrite Hp in E.
  destruct (h !! p) as [n|]; simpl in E; [|discriminate].
  apply (inj Some) in E. exists n. split; [reflexivity|exact E].
Qed.

Lemma static_UID a b : node_static a = node_static b → UID a = UID b.
Proof. unfold node_static. intros E. injection E. intros. assumption. Qed.

Lemma lstep_mono h h' p a :
  lstep h h' → h !! p = Some a → ∃ a', h' !! p = Some a' ∧ grows a a'.
Proof.
  intros (s & d & r & _ & _ & ->) Hp. rewrite lookup_link, Hp. simpl.
  eexists; split; [reflexivity|].
  destruct (decide (s = p)), (decide (d = p)); simpl;
    split; intros k R HR; cbn [Dependencies Dependents AddDependent AddDependency with_edges];
    rewrite ?elem_rels_add_rel; auto.
Qed.

Lemma rtc_mono h h' p a :
  rtc lstep h h' → h !! p = Some a → ∃ a', h' !! p = Some a' ∧ grows a a'.
Proof.
  intros H. revert a. induction H as [x|x y z Hxy _ IH]; intros a Hp.
  - exists a. split; [assumption|]. split; intros k; reflexivity.
  - destruct (lstep_mono _ _ _ _ Hxy Hp) as (a1 & H1 & [G1 G2]).
    destruct (IH _ H1) as (a2 & H2 & [G3 G4]).
    exists a2. split; [assumption|]. split; intros k; etrans; eauto.
Qed.

Lemma rtc_has_edge h h' s d r : rtc lstep h h' → has_edge h s d r → has_edge h' s d r.
Proof.
  intros H (a & b & Ha & Hb & H1 & H2).
  destruct (rtc_mono _ _ _ _ H Ha) as (a' & Ha' & [Ga _]).
  destruct (rtc_mono _ _ _ _ H Hb) as (b' & Hb' & [_ Gb]).
  destruct (rtc_lookup _ _ _ _ H Ha) as (a'' & Ha'' & Ea).
  destruct (rtc_lookup _ _ _ _ H Hb) as (b'' & Hb'' & Eb).
  rewrite Ha' in Ha''; injection Ha'' as <-. rewrite Hb' in Hb''; injection Hb'' as <-.
  exists a', b'. repeat split; try assumption.
  - rewrite (static_UID _ _ Eb). apply Ga, H1.
  - rewrite (static_UID _ _ Ea). apply Gb, H2.
Qed.

Lemma link_has_edge s d r h :
  is_Some (h !! s) → is_Some (h !! d) → has_edge (link s d r h) s d r.
Proof.
  intros [a Ha] [b Hb].
  unfold has_edge. rewrite !lookup_link, Ha, Hb. simpl.
  unfold uid_of. rewrite Ha, Hb. simpl.
  destruct (decide (s = s)) as [_|]; [|congruence].
  destruct (decide (d = d)) as [_|]; [|congruence].
  destruct (decide (s = d)) as [<-|Hne]; [destruct (decide (s = s)); [|congruence]|];
    [rewrite Ha in Hb; injection Hb as <-|destruct (decide (d = s)); [congruence|]];
    eexists _, _; (split; [reflexivity|]); (split; [reflexivity|]);
    cbn [Dependencies Dependents UID AddDependent AddDependency with_edges];
    rewrite !elem_rels_add_rel; auto.
Qed.

Lemma link_uid_inj s d r h : uid_inj h → uid_inj (link s d r h).
Proof.
  intros Hi p q a b Ha Hb E.
  pose proof (link_static s d r h p) as Ep. pose proof (link_static s d r h q) as Eq.
  rewrite Ha in Ep. rewrite Hb in Eq.
  destruct (h !! p) as [a0|] eqn:Ha0; [|discriminate].
  destruct (h !! q) as [b0|] eqn:Hb0; [|discriminate].
  apply (inj Some) in Ep, Eq.
  apply (Hi p q a0 b0); auto.
  rewrite <- (static_UID _ _ Ep), <- (static_UID _ _ Eq). assumption.
Qed.

Lemma link_bidir s d r h :
  uid_inj h → bidir h → is_Some (h !! s) → is_Some (h !! d) → bidir (link s d r h).
Proof.
  intros Hi Hb [ns Hs] [nd Hd] p q a' b' R Ha' Hb'.
  rewrite lookup_link in Ha'. rewrite lookup_link in Hb'.
  destruct (h !! p) as [a|] eqn:Ha; [|discriminate].
  destruct (h !! q) as [b|] eqn:Hbq; [|discriminate].
  simpl in Ha', Hb'. injection Ha' as <-. injection Hb' as <-.
  unfold uid_of. rewrite Hs, Hd. simpl.
  pose proof (Hb p q a b R Ha Hbq) as IH.
  (* the added halves: [d]'s dependent [s] and [s]'s dependency [d] *)
  assert (Hx : (d = p ∧ UID ns = UID b) ↔ (s = q ∧ UID nd = UID a)).
  { split; intros [-> E].
    - rewrite Hd in Ha. injection Ha as ->. split; [|reflexivity].
      symmetry. apply (Hi q s b ns Hbq Hs). auto.
    - rewrite Hs in Hbq. injection Hbq as ->. split; [|reflexivity].
      apply (Hi d p nd a Hd Ha). auto. }
  destruct (decide (s = p)), (decide (d = p)), (decide (s = q)), (decide (d = q));
    cbn [Dependencies Dependents UID AddDependent AddDependency with_edges];
    rewrite ?elem_rels_add_rel; tauto.
Qed.

Lemma rtc_inv h h' : rtc lstep h h' → uid_inj h → bidir h → uid_inj h' ∧ bidir h'.
Proof.
  induction 1 as [|x y z Hxy _ IH]; [tauto|]. intros Hi Hb.
  destruct Hxy as (s & d & r & Hs & Hd & ->).
  apply IH; [apply link_uid_inj, Hi|apply link_bidir; assumption].
Qed.

Lemma fold_rtc {A} (Q : gmap nat Node → Prop) (f : gmap nat Node → A → gmap nat Node) l h :
  (∀ h1 h2, rtc lstep h1 h2 → Q h1 → Q h2) →
  (∀ h y, y ∈ l → Q h → rtc lstep h (f h y)) → Q h → rtc lstep h (fold_left f l h).
Proof.
  intros HQ Hf. revert h. induction l as [|y l IH]; intros h Hh; simpl; [reflexivity|].
  assert (H1 : rtc lstep h (f h y)) by (apply Hf; [left|assumption]).
  etrans; [exact H1|]. apply IH; [intros; apply Hf; [right|]; assumption|].
  eapply HQ; eassumption.
Qed.

Lemma fold_reach {A} (Q E : gmap nat Node → Prop) (f : gmap nat Node → A → gmap nat Node) l x h :
  (∀ h1 h2, rtc lstep h1 h2 → Q h1 → Q h2) → (∀ h1 h2, rtc lstep h1 h2 → E h1 → E h2) →
  (∀ h y, y ∈ l → Q h → rtc lstep h (f h y)) → x ∈ l → (∀ h, Q h → E (f h x)) → Q h →
  E (fold_left f l h).
Proof.
  intros HQ HE Hf Hx Hfx. revert h. induction l as [|y l IH]; intros h Hh; simpl.
  - apply elem_of_nil in Hx. contradiction.
  - assert (H1 : rtc lstep h (f h y)) by (apply Hf; [left|assumption]).
    apply elem_of_cons in Hx as [->|Hx].
    + eapply HE; [|apply Hfx, Hh]. apply fold_rtc with (Q := Q); [assumption| |].
      * intros; apply Hf; [right|]; assumption.
      * eapply HQ; eassumption.
    + apply IH; [intros; apply Hf; [right|]; assumption|assumption|].
      eapply HQ; eassumption.
Qed.

Lemma link_all_rtc s d rset h :
  is_Some (h !! s) → is_Some (h !! d) → rtc lstep h (link_all s d rset h).
Proof.
  intros Hs Hd. unfold link_all.
  apply fold_rtc with (Q := fun h => is_Some (h !! s) ∧ is_Some (h !! d)); [| |tauto].
  - intros h1 h2 H [H1 H2]. split; eapply rtc_is_Some; eassumption.
  - intros h' r _ [H1 H2]. apply rtc_once. exists s, d, r. auto.
Qed.

Lemma link_all_edge s d rset r h :
  r ∈ rset → is_Some (h !! s) → is_Some (h !! d) → has_edge (link_all s d rset h) s d r.
Proof.
  intros Hr Hs Hd. unfold link_all.
  apply fold_reach with (Q := fun h => is_Some (h !! s) ∧ is_Some (h !! d)) (x := r).
  - intros h1 h2 H [H1 H2]. split; eapply rtc_is_Some; eassumption.
  - intros h1 h2 H. apply rtc_has_edge, H.
  - intros h' r' _ [H1 H2]. apply rtc_once. exists s, d, r'. auto.
  - apply elem_of_elements, Hr.
  - intros h' [H1 H2]. apply link_has_edge; assumption.
  - tauto.
Qed.

Lemma rtc_idx_ok u h h' : rtc lstep h h' → idx_ok u h → idx_ok u h'.
Proof.
  intros H [H1 H2]. split; intros k q Hk; eapply rtc_is_Some; eauto.
Qed.

Section Passes.

Variable iter : gmap string nat -> list (string * nat).
Variable extract_other : Node -> option RelationshipMap.

Lemma elem_resolveLabelSelectorToNodes u h o q :
  q ∈ resolveLabelSelectorToNodes iter u h o ↔
  ∃ k n, (k, q) ∈ iter (globalMapByUID u) ∧ h !! q = Some n ∧
    Group n = ols_group o ∧ Kind n = ols_kind o ∧ Namespace n = ols_namespace o ∧
    Matches (ols_selector o) (GetLabels (Unstructured n)) = true.
Proof.
  unfold resolveLabelSelectorToNodes. rewrite list_elem_of_In, in_concat. split.
  - intros (l & Hl & Hq). apply in_map_iff in Hl as ([k p] & <- & Hkp).
    destruct (h !! p) as [n|] eqn:Hp; [|contradiction].
    destruct (String.eqb (Group n) (ols_group o) && String.eqb (Kind n) (ols_kind o)
              && String.eqb (Namespace n) (ols_namespace o)) eqn:Hg; [|contradiction].
    destruct (Matches (ols_selector o) (GetLabels (Unstructured n))) eqn:Hm; [|contradiction].
    destruct Hq as [<-|[]].
    apply andb_prop in Hg as [Hg Hns]. apply andb_prop in Hg as [Hg Hk].
    apply String.eqb_eq in Hg, Hk, Hns.
    exists k, n. rewrite list_elem_of_In. auto 10.
  - intros (k & n & Hkq & Hq & Hg & Hk & Hns & Hm). exists [q]. split; [|left; reflexivity].
    apply in_map_iff. exists (k, q). rewrite <- list_elem_of_In. split; [|assumption].
    rewrite Hq, Hg, Hk, Hns, !String.eqb_refl, Hm. reflexivity.
Qed.

Lemma elem_resolveSelectorToNodes u h o q :
  q ∈ resolveSelectorToNodes iter u h o ↔
  ∃ k n, (k, q) ∈ iter (globalMapByUID u) ∧ h !! q = Some n ∧
    Group n = os_group o ∧ Kind n = os_kind o ∧
    (size (os_namespaces o) = 0 ∨ Namespace n ∈ os_namespaces o).
Proof.
  unfold resolveSelectorToNodes. rewrite list_elem_of_In, in_concat. split.
  - intros (l & Hl & Hq). apply in_map_iff in Hl as ([k p] & <- & Hkp).
    destruct (h !! p) as [n|] eqn:Hp; [|contradiction].
    destruct (String.eqb (Group n) (os_group o) && String.eqb (Kind n) (os_kind o)) eqn:Hg;
      [|contradiction].
    destruct (Nat.eqb (size (os_namespaces o)) 0 || bool_decide (Namespace n ∈ os_namespaces o))
      eqn:Hm; [|contradiction].
    destruct Hq as [<-|[]].
    apply andb_prop in Hg as [Hg Hk]. apply String.eqb_eq in Hg, Hk.
    apply orb_prop in Hm as [Hm|Hm]; [apply Nat.eqb_eq in Hm|apply bool_decide_eq_true in Hm];
      exists k, n; rewrite list_elem_of_In; auto 10.
  - intros (k & n & Hkq & Hq & Hg & Hk & Hns). exists [q]. split; [|left; reflexivity].
    apply in_map_iff. exists (k, q). rewrite <- list_elem_of_In. split; [|assumption].
    rewrite Hq, Hg, Hk, !String.eqb_refl. simpl.
    destruct Hns as [Hns|Hns].
    + rewrite Hns. reflexivity.
    + rewrite (bool_decide_eq_true_2 _ Hns), orb_true_r. reflexivity.
Qed.

Lemma upd_Q_rtc u p h1 h2 : rtc lstep h1 h2 → upd_Q u p h1 → upd_Q u p h2.
Proof.
  intros H [H1 H2]. split; [eapply rtc_is_Some|eapply rtc_idx_ok]; eassumption.
Qed.

Lemma write_out_ok u p : write_ok u p (fun q => link_all p q).
Proof. intros q rset h [Hp _] Hq. apply link_all_rtc; assumption. Qed.

Lemma write_in_ok u p : write_ok u p (fun q => link_all q p).
Proof. intros q rset h [Hp _] Hq. apply link_all_rtc; assumption. Qed.

Lemma rtc_after u p h0 h h' :
  upd_Q u p h0 → rtc lstep h0 h → (upd_Q u p h → rtc lstep h h') → rtc lstep h0 h'.
Proof.
  intros HQ H1 H2. etrans; [exact H1|]. apply H2. eapply upd_Q_rtc; eassumption.
Qed.

Lemma loop_by_key_rtc u p write bucket h0 h :
  write_ok u p write → upd_Q u p h0 → rtc lstep h0 h → rtc lstep h0 (loop_by_key u write bucket h).
Proof.
  intros Hw HQ H. apply (rtc_after u p h0 h); [assumption|assumption|]. intros HQh.
  apply fold_rtc with (Q := upd_Q u p); [apply upd_Q_rtc| |assumption].
  intros h' [k rset] _ HQ'. destruct (globalMapByKey u !! k) as [q|] eqn:Hk; [|reflexivity].
  apply Hw; [assumption|]. destruct HQ' as [_ [_ Hi]]. eapply Hi; eassumption.
Qed.

Lemma loop_by_uid_rtc u p write bucket h0 h :
  write_ok u p write → upd_Q u p h0 → rtc lstep h0 h → rtc lstep h0 (loop_by_uid u write bucket h).
Proof.
  intros Hw HQ H. apply (rtc_after u p h0 h); [assumption|assumption|]. intros HQh.
  apply fold_rtc with (Q := upd_Q u p); [apply upd_Q_rtc| |assumption].
  intros h' [k rset] _ HQ'. destruct (globalMapByUID u !! k) as [q|] eqn:Hk; [|reflexivity].
  apply Hw; [assumption|]. destruct HQ' as [_ [Hi _]]. eapply Hi; eassumption.
Qed.

(** The inner loop over the nodes a selector resolves to. *)
Lemma inner_rtc u p write rset (l : list nat) h :
  write_ok u p write → upd_Q u p h → (∀ q, q ∈ l → is_Some (h !! q)) →
  rtc lstep h (fold_left (fun h q => write q rset h) l h).
Proof.
  intros Hw HQ Hl.
  apply fold_rtc with (Q := fun h' => upd_Q u p h' ∧ rtc lstep h h').
  - intros h1 h2 H [H1 H2]. split; [eapply upd_Q_rtc; eassumption|etrans; eassumption].
  - intros h' q Hq [HQ' Hh']. apply Hw; [assumption|]. eapply rtc_is_Some; [eassumption|]. auto.
  - split; [assumption|reflexivity].
Qed.

Lemma loop_by_label_selector_rtc u p write ols_of bucket h0 h :
  write_ok u p write → upd_Q u p h0 → rtc lstep h0 h →
  rtc lstep h0 (loop_by_label_selector iter u write ols_of bucket h).
Proof.
  intros Hw HQ H. apply (rtc_after u p h0 h); [assumption|assumption|]. intros HQh.
  apply fold_rtc with (Q := upd_Q u p); [apply upd_Q_rtc| |assumption].
  intros h' [k rset] _ HQ'. destruct (ols_of !! k) as [ols|]; [|reflexivity].
  apply (inner_rtc u p); [assumption|assumption|].
  intros q Hq. apply elem_resolveLabelSelectorToNodes in Hq as (? & ? & _ & Hq & _). eauto.
Qed.

Lemma loop_by_selector_rtc u p write os_of bucket h0 h :
  write_ok u p write → upd_Q u p h0 → rtc lstep h0 h →
  rtc lstep h0 (loop_by_selector iter u write os_of bucket h).
Proof.
  intros Hw HQ H. apply (rtc_after u p h0 h); [assumption|assumption|]. intros HQh.
  apply fold_rtc with (Q := upd_Q u p); [apply upd_Q_rtc| |assumption].
  intros h' [k rset] _ HQ'. destruct (os_of !! k) as [os|]; [|reflexivity].
  apply (inner_rtc u p); [assumption|assumption|].
  intros q Hq. apply elem_resolveSelectorToNodes in Hq as (? & ? & _ & Hq & _). eauto.
Qed.

Ltac loops_rtc p :=
  repeat first
    [ reflexivity
    | apply (loop_by_key_rtc _ p); [apply write_out_ok || apply write_in_ok|assumption|]
    | apply (loop_by_uid_rtc _ p); [apply write_out_ok || apply write_in_ok|assumption|]
    | apply (loop_by_label_selector_rtc _ p); [apply write_out_ok || apply write_in_ok|assumption|]
    | apply (loop_by_selector_rtc _ p); [apply write_out_ok || apply write_in_ok|assumption|] ].

Lemma updateRelationships_rtc u p rmap h :
  upd_Q u p h → rtc lstep h (updateRelationships iter u p rmap h).
Proof. intros HQ. unfold updateRelationships. loops_rtc p. Qed.

Lemma owner_pass_rtc u h : idx_ok u h → rtc lstep h (owner_pass iter u h).
Proof.
  intros Hi. unfold owner_pass.
  apply fold_rtc with (Q := idx_ok u); [intros; eapply rtc_idx_ok; eassumption| |assumption].
  intros h1 [k p] _ Hi1. destruct (h1 !! p) as [node|] eqn:Hp; [|reflexivity].
  apply fold_rtc with (Q := upd_Q u p).
  - apply upd_Q_rtc.
  - intros h2 ref _ [Hp2 Hi2]. destruct (globalMapByUID u !! or_uid ref) as [q|] eqn:Hq;
      [|reflexivity].
    assert (Hq2 : is_Some (h2 !! q)) by (eapply (proj1 Hi2); eassumption).
    assert (Hc : rtc lstep h2 (if bool_decide (or_controller ref = Some true)
                               then link p q RelationshipControllerRef h2 else h2)).
    { case_bool_decide; [apply rtc_once; exists p, q, RelationshipControllerRef; auto|reflexivity]. }
    etrans; [exact Hc|]. apply rtc_once. eexists p, q, _.
    split; [eapply rtc_is_Some; eassumption|]. split; [eapply rtc_is_Some; eassumption|reflexivity].
  - split; [eexists; exact Hp|assumption].
Qed.

Lemma extractor_pass_rtc u h : idx_ok u h → rtc lstep h (extractor_pass iter extract_other u h).
Proof.
  intros Hi. unfold extractor_pass.
  apply fold_rtc with (Q := idx_ok u); [intros; eapply rtc_idx_ok; eassumption| |assumption].
  intros h1 [k p] _ Hi1. destruct (h1 !! p) as [node|] eqn:Hp; [|reflexivity].
  destruct (extract extract_other node) as [rmap|]; [|reflexivity].
  apply updateRelationships_rtc. split; [eexists; exact Hp|assumption].
Qed.

Lemma build_graph_rtc u : idx_ok u (heap u) → rtc lstep (heap u) (build_graph iter extract_other u).
Proof.
  intros Hi. unfold build_graph. pose proof (owner_pass_rtc u _ Hi) as H1.
  etrans; [exact H1|]. apply extractor_pass_rtc. eapply rtc_idx_ok; eassumption.
Qed.

Lemma has_edge_through u p h x y s d R :
  upd_Q u p h → rtc lstep h x → (upd_Q u p x → rtc lstep x y) →
  has_edge x s d R → has_edge y s d R.
Proof.
  intros HQ H1 H2 He. eapply rtc_has_edge; [|exact He]. apply H2. eapply upd_Q_rtc; eassumption.
Qed.

(** An entry of a dependencies label-selector bucket links the node to
    every node its selector resolves to. *)
Lemma loop_by_label_selector_edge u p ols_of bucket h k rset ols q R :
  upd_Q u p h → bucket !! k = Some rset → R ∈ rset → ols_of !! k = Some ols →
  (∀ h', rtc lstep h h' → q ∈ resolveLabelSelectorToNodes iter u h' ols) →
  has_edge (loop_by_label_selector iter u (fun q => link_all p q) ols_of bucket h) p q R.
Proof.
  intros HQ Hk HR Ho Hq. unfold loop_by_label_selector.
  apply fold_reach with (Q := fun h' => upd_Q u p h' ∧ rtc lstep h h') (x := (k, rset)).
  - intros h1 h2 H [H1 H2]. split; [eapply upd_Q_rtc; eassumption|etrans; eassumption].
  - intros h1 h2 H. apply rtc_has_edge, H.
  - intros h' [k' rset'] _ [HQ' _]. destruct (ols_of !! k') as [ols'|]; [|reflexivity].
    apply (inner_rtc u p); [apply write_out_ok|assumption|].
    intros q' Hq'. apply elem_resolveLabelSelectorToNodes in Hq' as (? & ? & _ & Hq' & _). eauto.
  - apply elem_of_map_to_list, Hk.
  - intros h' [HQ' Hh']. rewrite Ho.
    apply fold_reach with (Q := fun h'' => upd_Q u p h'' ∧ rtc lstep h' h'') (x := q).
    + intros h1 h2 H [H1 H2]. split; [eapply upd_Q_rtc; eassumption|etrans; eassumption].
    + intros h1 h2 H. apply rtc_has_edge, H.
    + intros h'' q' Hq' [HQ'' Hh'']. apply (write_out_ok u p q' rset h''); [assumption|].
      apply elem_resolveLabelSelectorToNodes in Hq' as (? & ? & _ & Hq' & _).
      eapply rtc_is_Some; [eassumption|eauto].
    + apply Hq, Hh'.
    + intros h'' [[Hp _] Hh'']. apply link_all_edge; [assumption|assumption|].
      pose proof (Hq h' Hh') as Hq'.
      apply elem_resolveLabelSelectorToNodes in Hq' as (? & ? & _ & Hq' & _).
      eapply rtc_is_Some; [eassumption|eauto].
    + split; [assumption|reflexivity].
  - split; [assumption|reflexivity].
Qed.

(** The same for a dependencies kind-selector bucket. *)
Lemma loop_by_selector_edge u p os_of bucket h k rset os q R :
  upd_Q u p h → bucket !! k = Some rset → R ∈ rset → os_of !! k = Some os →
  (∀ h', rtc lstep h h' → q ∈ resolveSelectorToNodes iter u h' os) →
  has_edge (loop_by_selector iter u (fun q => link_all p q) os_of bucket h) p q R.
Proof.
  intros HQ Hk HR Ho Hq. unfold loop_by_selector.
  apply fold_reach with (Q := fun h' => upd_Q u p h' ∧ rtc lstep h h') (x := (k, rset)).
  - intros h1 h2 H [H1 H2]. split; [eapply upd_Q_rtc; eassumption|etrans; eassumption].
  - intros h1 h2 H. apply rtc_has_edge, H.
  - intros h' [k' rset'] _ [HQ' _]. destruct (os_of !! k') as [os'|]; [|reflexivity].
    apply (inner_rtc u p); [apply write_out_ok|assumption|].
    intros q' Hq'. apply elem_resolveSelectorToNodes in Hq' as (? & ? & _ & Hq' & _). eauto.
  - apply elem_of_map_to_list, Hk.
  - intros h' [HQ' Hh']. rewrite Ho.
    apply fold_reach with (Q := fun h'' => upd_Q u p h'' ∧ rtc lstep h' h'') (x := q).
    + intros h1 h2 H [H1 H2]. split; [eapply upd_Q_rtc; eassumption|etrans; eassumption].
    + intros h1 h2 H. apply rtc_has_edge, H.
    + intros h'' q' Hq' [HQ'' Hh'']. apply (write_out_ok u p q' rset h''); [assumption|].
      apply elem_resolveSelectorToNodes in Hq' as (? & ? & _ & Hq' & _).
      eapply rtc_is_Some; [eassumption|eauto].
    + apply Hq, Hh'.
    + intros h'' [[Hp _] Hh'']. apply link_all_edge; [assumption|assumption|].
      pose proof (Hq h' Hh') as Hq'.
      apply elem_resolveSelectorToNodes in Hq' as (? & ? & _ & Hq' & _).
      eapply rtc_is_Some; [eassumption|eauto].
    + split; [assumption|reflexivity].
  - split; [assumption|reflexivity].
Qed.

Ltac through p :=
  lazymatch goal with
  | HQ : upd_Q ?u p ?h |- has_edge (?L ?x) _ _ _ =>
      apply (has_edge_through u p h x); [exact HQ|loops_rtc p|intros; loops_rtc p|]
  end.

Lemma updateRelationships_label_edge u p rmap h k rset ols q R :
  upd_Q u p h → DependenciesByLabelSelector rmap !! k = Some rset → R ∈ rset →
  ObjectLabelSelectors rmap !! k = Some ols →
  (∀ h', rtc lstep h h' → q ∈ resolveLabelSelectorToNodes iter u h' ols) →
  has_edge (updateRelationships iter u p rmap h) p q R.
Proof.
  intros HQ Hk HR Ho Hq. unfold updateRelationships. cbv zeta.
  do 5 through p.
  apply loop_by_label_selector_edge with k rset ols; try assumption.
  - eapply upd_Q_rtc; [|exact HQ]. loops_rtc p.
  - intros h' Hh'. apply Hq. etrans; [|exact Hh']. loops_rtc p.
Qed.

Lemma updateRelationships_selector_edge u p rmap h k rset os q R :
  upd_Q u p h → DependenciesBySelector rmap !! k = Some rset → R ∈ rset →
  ObjectSelectors rmap !! k = Some os →
  (∀ h', rtc lstep h h' → q ∈ resolveSelectorToNodes iter u h' os) →
  has_edge (updateRelationships iter u p rmap h) p q R.
Proof.
  intros HQ Hk HR Ho Hq. unfold updateRelationships. cbv zeta.
  do 3 through p.
  apply loop_by_selector_edge with k rset os; try assumption.
  - eapply upd_Q_rtc; [|exact HQ]. loops_rtc p.
  - intros h' Hh'. apply Hq. etrans; [|exact Hh']. loops_rtc p.
Qed.

(** An edge the extractor pass writes while processing [p]. *)
Lemma extractor_pass_edge u h kp p s d R :
  idx_ok u h → (kp, p) ∈ iter (globalMapByUID u) → is_Some (h !! p) →
  (∀ h' node, rtc lstep h h' → h' !! p = Some node →
     ∃ rmap, extract extract_other node = Some rmap ∧
             has_edge (updateRelationships iter u p rmap h') s d R) →
  has_edge (extractor_pass iter extract_other u h) s d R.
Proof.
  intros Hi Hkp Hp Hstep. unfold extractor_pass.
  apply fold_reach with (Q := fun h' => idx_ok u h' ∧ rtc lstep h h') (x := (kp, p)).
  - intros h1 h2 H [H1 H2]. split; [eapply rtc_idx_ok; eassumption|etrans; eassumption].
  - intros h1 h2 H. apply rtc_has_edge, H.
  - intros h1 [k' p'] _ [Hi1 _]. destruct (h1 !! p') as [node|] eqn:Hp'; [|reflexivity].
    destruct (extract extract_other node) as [rmap|]; [|reflexivity].
    apply updateRelationships_rtc. split; [eexists; exact Hp'|assumption].
  - assumption.
  - intros h' [Hi' Hh']. destruct (rtc_is_Some _ _ _ Hh' Hp) as [node Hnode].
    rewrite Hnode. destruct (Hstep h' node Hh' Hnode) as (rmap & -> & He). exact He.
  - split; [assumption|reflexivity].
Qed.

Lemma build_graph_edge u kp p s d R :
  idx_ok u (heap u) → (kp, p) ∈ iter (globalMapByUID u) → is_Some (heap u !! p) →
  (∀ h' node, rtc lstep (heap u) h' → h' !! p = Some node →
     ∃ rmap, extract extract_other node = Some rmap ∧
             has_edge (updateRelationships iter u p rmap h') s d R) →
  has_edge (build_graph iter extract_other u) s d R.
Proof.
  intros Hi Hkp Hp Hstep. unfold build_graph.
  pose proof (owner_pass_rtc u _ Hi) as Ho.
  apply extractor_pass_edge with kp p.
  - eapply rtc_idx_ok; eassumption.
  - assumption.
  - eapply rtc_is_Some; eassumption.
  - intros h' node Hh' Hn. apply Hstep; [etrans; eassumption|assumption].
Qed.

End Passes.

Lemma byUID_add_object ix n u k q :
  globalMapByUID (add_object ix n u) !! k = Some q → q = ix ∨ globalMapByUID u !! k = Some q.
Proof.
  unfold add_object. simpl.
  destruct (String.eqb (Group n) "" && String.eqb (Kind n) "Node");
    [destruct (GetLabels (Unstructured n) !! LabelHostname)|];
    rewrite ?lookup_insert_Some; intuition.
Qed.

Lemma byKey_add_object ix n u k q :
  globalMapByKey (add_object ix n u) !! k = Some q → q = ix ∨ globalMapByKey u !! k = Some q.
Proof. unfold add_object. simpl. rewrite lookup_insert_Some. intuition. Qed.

Lemma build_universe_ok m objects os : ∀ ix u u',
  (∀ j o, os !! j = Some o → objects !! (ix + j) = Some o) → univ_ok objects u →
  build_universe m ix os u = inr u' → univ_ok objects u'.
Proof.
  induction os as [|o os IH]; intros ix u u' Hos Hu Hb; simpl in Hb.
  - injection Hb as <-. assumption.
  - destruct (m _ _ _) as [err|mp]; [discriminate|].
    apply (IH (S ix) (add_object ix (new_node mp o) u) u'); [|clear Hb|exact Hb].
    + intros j o' Hj. replace (S ix + j) with (ix + S j) by lia. apply (Hos (S j)), Hj.
    + destruct Hu as [[Hu1 Hu2] Hu3]. assert (Ho : objects !! ix = Some o).
      { rewrite <- (Nat.add_0_r ix). apply (Hos 0). reflexivity. }
      split; [split|].
      * intros k q Hk. apply byUID_add_object in Hk as [->|Hk]; simpl;
          rewrite lookup_insert_is_Some'; [left; reflexivity|right; eapply Hu1; eassumption].
      * intros k q Hk. apply byKey_add_object in Hk as [->|Hk]; simpl;
          rewrite lookup_insert_is_Some'; [left; reflexivity|right; eapply Hu2; eassumption].
      * intros p n. simpl. rewrite lookup_insert_Some.
        intros [[<- <-]|[_ Hp]]; [exists mp, o; auto|eauto].
Qed.

Lemma build_universe_ok0 m objects u :
  build_universe m 0 objects empty_universe = inr u → univ_ok objects u.
Proof.
  intros Hb. apply (build_universe_ok m objects objects 0 empty_universe); [|clear Hb|exact Hb].
  - intros j o Hj. exact Hj.
  - split; [split|]; simpl; intros ? ? H; rewrite lookup_empty in H; discriminate.
Qed.

Lemma univ_uid_inj objects u :
  NoDup (map GetUID objects) → univ_ok objects u → uid_inj (heap u).
Proof.
  intros Hnd [_ Hu] p q a b Ha Hb E.
  destruct (Hu p a Ha) as (mp & o & Hp & ->). destruct (Hu q b Hb) as (mq & o' & Hq & ->).
  simpl in E. apply (NoDup_lookup _ p q (GetUID o) Hnd).
  - rewrite list_lookup_fmap, Hp. reflexivity.
  - rewrite list_lookup_fmap, Hq, E. reflexivity.
Qed.

Lemma univ_bidir objects u : univ_ok objects u → bidir (heap u).
Proof.
  intros [_ Hu] p q a b R Ha Hb.
  destruct (Hu p a Ha) as (mp & o & _ & ->). destruct (Hu q b Hb) as (mq & o' & _ & ->).
  unfold rels. simpl. rewrite !lookup_empty. simpl. reflexivity.
Qed.

Lemma bfs_loop_edges byUID b fuel : ∀ st st',
  bfs_loop byUID b fuel st = Some st' →
  ∀ p, node_edges <$> bheap st' !! p = node_edges <$> bheap st !! p.
Proof.
  induction fuel as [|fuel IH]; intros st st' H p; simpl in H; [discriminate|].
  destruct (uidQueue st) as [|uid [|x rest]].
  - injection H as <-. reflexivity.
  - injection H as <-. reflexivity.
  - destruct (String.eqb uid ""); [rewrite (IH _ _ H); reflexivity|].
    destruct (bool_decide (uid ∈ uidSet st)); [rewrite (IH _ _ H); reflexivity|].
    destruct (nodeMap st !! uid) as [[q|]|]; [|rewrite (IH _ _ H); reflexivity..].
    destruct (bheap st !! q) as [node|] eqn:Hq; [|rewrite (IH _ _ H); reflexivity].
    rewrite (IH _ _ H). simpl. rewrite lookup_insert.
    destruct (decide (q = p)) as [<-|]; [|reflexivity].
    rewrite Hq. simpl. destruct (Nat.eqb (Depth node) 0 || Nat.ltb (depth st) (Depth node));
      reflexivity.
Qed.

Lemma deref_lookup h nm k a : deref h nm !! k = Some (Some a) → ∃ p, h !! p = Some a.
Proof.
  unfold deref. rewrite lookup_fmap.
  destruct (nm !! k) as [[p|]|]; simpl; intros H; [|discriminate..].
  exists p. apply (inj Some) in H. exact H.
Qed.

(** C1 (amended): edge bidirectionality holds when the input objects
    have pairwise distinct UIDs. For every NodeMap returned by
    [resolveDeps] (both directions), every two entries [a] and [b] and
    every relationship [R]: [R] is in [a.Dependents[b.UID]] exactly when
    it is in [b.Dependencies[a.UID]]. *)
Theorem resolveDeps_bidirectional iter extract_other fuel m objects uids depsIsDependencies
    nm err ka kb a b R :
  NoDup (map GetUID objects) →
  resolveDeps iter extract_other fuel m objects uids depsIsDependencies = Some (Some nm, err) →
  nm !! ka = Some (Some a) → nm !! kb = Some (Some b) →
  R ∈ default ∅ (Dependents a !! UID b) ↔ R ∈ default ∅ (Dependencies b !! UID a).
Proof.
  intros Hnd H Ha Hb. unfold resolveDeps in H.
  destruct (Nat.eqb (length uids) 0).
  { injection H as <- _. rewrite lookup_empty in Ha. discriminate. }
  destruct (build_universe m 0 objects empty_universe) as [e|u] eqn:Hu; [discriminate|].
  destruct (bfs_loop _ _ _ _) as [st|] eqn:Hl; [|discriminate].
  injection H as <- _.
  apply build_universe_ok0 in Hu.
  pose proof (build_graph_rtc iter extract_other u (proj1 Hu)) as Hg.
  destruct (rtc_inv _ _ Hg (univ_uid_inj _ _ Hnd Hu) (univ_bidir _ _ Hu)) as [_ Hbi].
  pose proof (bfs_loop_edges _ _ _ _ _ Hl) as He. simpl in He.
  destruct (deref_lookup _ _ _ _ Ha) as [p Hp]. destruct (deref_lookup _ _ _ _ Hb) as [q Hq].
  pose proof (He p) as Ep. pose proof (He q) as Eq. rewrite Hp in Ep. rewrite Hq in Eq.
  destruct (build_graph iter extract_other u !! p) as [a0|] eqn:Ha0; [|discriminate].
  destruct (build_graph iter extract_other u !! q) as [b0|] eqn:Hb0; [|discriminate].
  apply (inj Some) in Ep, Eq. unfold node_edges in Ep, Eq.
  injection Ep as Ea1 Ea2 Ea3. injection Eq as Eb1 Eb2 Eb3.
  rewrite Ea3, Eb1, Eb2, Ea1. exact (Hbi p q a0 b0 R Ha0 Hb0).
Qed.

(** [resolveDeps] reads the enumeration only at the UID index it builds. *)
Lemma resolveDeps_iter iter1 iter2 extract_other fuel m objects uids b u :
  build_universe m 0 objects empty_universe = inr u →
  iter1 (globalMapByUID u) = iter2 (globalMapByUID u) →
  resolveDeps iter1 extract_other fuel m objects uids b =
  resolveDeps iter2 extract_other fuel m objects uids b.
Proof.
  intros Hu E. unfold resolveDeps. rewrite Hu.
  unfold build_graph, extractor_pass, owner_pass, updateRelationships,
    loop_by_label_selector, loop_by_selector, resolveLabelSelectorToNodes,
    resolveSelectorToNodes.
  rewrite E. reflexivity.
Qed.

Lemma resolveDeps_orders (P : option (option NodeMap * option string) → Prop)
    iter extract_other fuel m objects uids b u :
  (∀ mp, iter mp ≡ₚ map_to_list mp) →
  build_universe m 0 objects empty_universe = inr u →
  (∀ L, L ∈ permutations (map_to_list (globalMapByUID u)) →
        P (resolveDeps (fun _ => L) extract_other fuel m objects uids b)) →
  P (resolveDeps iter extract_other fuel m objects uids b).
Proof.
  intros Hperm Hu HP.
  rewrite (resolveDeps_iter iter (fun _ => iter (globalMapByUID u)) _ _ _ _ _ _ u Hu eq_refl).
  apply HP. apply permutations_Permutation. symmetry. apply Hperm.
Qed.

Lemma build_graph_iter iter1 iter2 extract_other u :
  iter1 (globalMapByUID u) = iter2 (globalMapByUID u) →
  build_graph iter1 extract_other u = build_graph iter2 extract_other u.
Proof.
  intros E.
  unfold build_graph, extractor_pass, owner_pass, updateRelationships,
    loop_by_label_selector, loop_by_selector, resolveLabelSelectorToNodes,
    resolveSelectorToNodes.
  rewrite E. reflexivity.
Qed.

Lemma static_fields a b : node_static a = node_static b →
  Unstructured a = Unstructured b ∧ UID a = UID b ∧ Group a = Group b ∧ Kind a = Kind b ∧
  Namespace a = Namespace b.
Proof. unfold node_static. intros E. injection E. intros. auto 10. Qed.

Lemma extract_service extract_other n :
  Group n = "" → Kind n = "Service" → extract extract_other n = getServiceRelationships n.
Proof. intros Hg Hk. unfold extract, is_gk. rewrite Hg, Hk. reflexivity. Qed.

Lemma extract_cluster_role extract_other n :
  Group n = "rbac.authorization.k8s.io" → Kind n = "ClusterRole" →
  extract extract_other n = getClusterRoleRelationships n.
Proof. intros Hg Hk. unfold extract, is_gk. rewrite Hg, Hk. reflexivity. Qed.

Lemma d_Service_namespace o svc : d_Service o = Some svc → svc_namespace svc = GetNamespace o.
Proof.
  unfold d_Service, d_obj, GetNamespace, GetNestedString. destruct o as [| | | |fs]; try discriminate.
  simpl. destruct (assoc "metadata" fs) as [[| | | |ms]|]; simpl; try discriminate;
    try (destruct (d_ptr _ _) as [sel|]; simpl; [|discriminate]; intros H; injection H as <-; reflexivity).
  destruct (assoc "namespace" ms) as [[| | | |]|]; simpl; try discriminate;
    destruct (d_ptr _ _) as [sel|]; simpl; try discriminate; intros H; injection H as <-; reflexivity.
Qed.

Lemma getServiceRelationships_empty n svc :
  d_Service (Unstructured n) = Some svc → svc_selector svc = ∅ →
  let ols := {| ols_group := ""; ols_kind := "Pod"; ols_namespace := svc_namespace svc;
                ols_selector := [] |} in
  ∃ rmap, getServiceRelationships n = Some rmap ∧
    DependenciesByLabelSelector rmap !! LabelSelKey ols = Some {[RelationshipService]} ∧
    ObjectLabelSelectors rmap !! LabelSelKey ols = Some ols.
Proof.
  intros Hd Hs ols. unfold getServiceRelationships. rewrite Hd. simpl.
  unfold ValidatedSelectorFromSet. rewrite Hs, bool_decide_eq_true_2; [simpl|reflexivity].
  eexists. split; [reflexivity|]. simpl.
  unfold add_rel. rewrite !lookup_insert_eq. simpl. split; [|reflexivity].
  rewrite lookup_empty. reflexivity.
Qed.

Lemma iter_elem iter (u : Universe) k p :
  (∀ mp, iter mp ≡ₚ map_to_list mp) → globalMapByUID u !! k = Some p →
  (k, p) ∈ iter (globalMapByUID u).
Proof.
  intros Hperm Hk. rewrite (Hperm (globalMapByUID u)). apply elem_of_map_to_list, Hk.
Qed.

Lemma univ_node objects u p n :
  univ_ok objects u → heap u !! p = Some n →
  Namespace n = GetNamespace (Unstructured n) ∧ UID n = GetUID (Unstructured n).
Proof.
  intros [_ Hu] Hp. destruct (Hu p n Hp) as (mp & o & _ & ->). simpl. auto.
Qed.

(** C10 (amended): a core Service whose [spec.selector] is empty or
    absent selects every core Pod of its namespace reachable through the
    UID index, and after the graph is built the Pod is a dependency of
    the Service ([Service.Dependencies[pod.UID]] contains [Service]) and
    the Service a dependent of the Pod ([pod.Dependents[svc.UID]]
    contains [Service]), for every iteration order of the index. *)
Theorem service_selects_pods_as_dependencies iter extract_other m objects u ks p n svc kq q pod :
  (∀ mp, iter mp ≡ₚ map_to_list mp) →
  build_universe m 0 objects empty_universe = inr u →
  globalMapByUID u !! ks = Some p → heap u !! p = Some n →
  Group n = "" → Kind n = "Service" →
  d_Service (Unstructured n) = Some svc → svc_selector svc = ∅ →
  globalMapByUID u !! kq = Some q → heap u !! q = Some pod →
  Group pod = "" → Kind pod = "Pod" → Namespace pod = Namespace n →
  ∃ n' pod', build_graph iter extract_other u !! p = Some n' ∧
             build_graph iter extract_other u !! q = Some pod' ∧
             RelationshipService ∈ default ∅ (Dependencies n' !! UID pod') ∧
             RelationshipService ∈ default ∅ (Dependents pod' !! UID n').
Proof.
  intros Hperm Hu Hks Hn Hg Hk Hd Hsel Hkq Hpod Hpg Hpk Hns.
  apply build_universe_ok0 in Hu as Hok.
  destruct (getServiceRelationships_empty n svc Hd Hsel) as (rmap & Hr & Hb & Ho).
  apply (build_graph_edge iter extract_other u ks p);
    [exact (proj1 Hok)|apply iter_elem; assumption|eexists; exact Hn|].
  intros h' node Hh' Hnode.
  destruct (rtc_lookup_back _ _ _ _ Hh' Hnode) as (n0 & Hn0 & Es).
  rewrite Hn in Hn0. injection Hn0 as <-.
  destruct (static_fields _ _ Es) as (Eu & _ & Eg & Ek & _).
  exists rmap. split.
  { rewrite extract_service by congruence. unfold getServiceRelationships in *. rewrite Eu. exact Hr. }
  eapply updateRelationships_label_edge; [| exact Hb | apply elem_of_singleton; reflexivity | exact Ho |].
  { split; [eexists; exact Hnode|]. eapply rtc_idx_ok; [exact Hh'|exact (proj1 Hok)]. }
  intros h'' Hh''. apply elem_resolveLabelSelectorToNodes.
  destruct (rtc_lookup _ _ _ _ (rtc_trans _ _ _ Hh' Hh'') Hpod) as (pod'' & Hpod'' & Ep).
  destruct (static_fields _ _ Ep) as (_ & _ & Epg & Epk & Epns).
  exists kq, pod''. split; [apply iter_elem; assumption|]. split; [exact Hpod''|].
  simpl. rewrite Epg, Epk, Epns, Hpg, Hpk, Hns. split; [reflexivity|]. split; [reflexivity|].
  split; [|reflexivity].
  rewrite (d_Service_namespace _ _ Hd). apply (univ_node _ _ _ _ Hok Hn).
Qed.

Lemma crs_None sels : fold_left cluster_role_selector sels None = None.
Proof. induction sels; simpl; auto. Qed.

Lemma crs_step r0 ls s :
  LabelSelectorAsSelector ls = Some s →
  cluster_role_selector (Some r0) ls =
  Some (AddDependencyByLabelSelector (cr_ols s) RelationshipClusterRoleAggregationRule r0).
Proof. intros H. unfold cluster_role_selector. simpl. rewrite H. reflexivity. Qed.

Lemma crs_mono sels r0 r : fold_left cluster_role_selector sels (Some r0) = Some r →
  (∀ key R, R ∈ rels (DependenciesByLabelSelector r0) key →
            R ∈ rels (DependenciesByLabelSelector r) key) ∧
  (∀ key, is_Some (ObjectLabelSelectors r0 !! key) → is_Some (ObjectLabelSelectors r !! key)).
Proof.
  revert r0. induction sels as [|ls sels IH]; intros r0 Hf; cbn [fold_left] in Hf.
  - injection Hf as <-. auto.
  - destruct (LabelSelectorAsSelector ls) as [s|] eqn:Hs.
    + rewrite (crs_step r0 ls s Hs) in Hf. destruct (IH _ Hf) as [H1 H2]. split.
      * intros key R HR. apply H1. cbn [AddDependencyByLabelSelector DependenciesByLabelSelector].
        apply elem_rels_add_rel. auto.
      * intros key Hk. apply H2. cbn [AddDependencyByLabelSelector ObjectLabelSelectors].
        apply lookup_insert_is_Some'. auto.
    + unfold cluster_role_selector at 1 in Hf. simpl in Hf. rewrite Hs in Hf.
      rewrite crs_None in Hf. discriminate.
Qed.

Lemma crs_fold sels r0 r : fold_left cluster_role_selector sels (Some r0) = Some r →
  (∀ key ols, ObjectLabelSelectors r !! key = Some ols →
     ObjectLabelSelectors r0 !! key = Some ols ∨
     ∃ ls s, ls ∈ sels ∧ LabelSelectorAsSelector ls = Some s ∧ ols = cr_ols s) ∧
  (∀ ls s, ls ∈ sels → LabelSelectorAsSelector ls = Some s →
     RelationshipClusterRoleAggregationRule ∈
       rels (DependenciesByLabelSelector r) (LabelSelKey (cr_ols s)) ∧
     is_Some (ObjectLabelSelectors r !! LabelSelKey (cr_ols s))).
Proof.
  revert r0. induction sels as [|ls sels IH]; intros r0 Hf; cbn [fold_left] in Hf.
  - injection Hf as <-. split; [auto|]. intros ls s Hls. apply elem_of_nil in Hls. contradiction.
  - destruct (LabelSelectorAsSelector ls) as [s0|] eqn:Hs;
      [|unfold cluster_role_selector at 1 in Hf; simpl in Hf; rewrite Hs, crs_None in Hf; discriminate].
    rewrite (crs_step r0 ls s0 Hs) in Hf.
    destruct (IH _ Hf) as [H1 H2]. destruct (crs_mono _ _ _ Hf) as [M1 M2]. split.
    + intros key ols Hk. destruct (H1 key ols Hk) as [Hk'|(ls' & s & Hls & Hs' & ->)].
      * cbn [AddDependencyByLabelSelector ObjectLabelSelectors] in Hk'.
        apply lookup_insert_Some in Hk' as [[_ <-]|[_ Hk']]; [|auto].
        right. exists ls, s0. split; [apply elem_of_cons; auto|]. auto.
      * right. exists ls', s. split; [apply elem_of_cons; auto|]. auto.
    + intros ls' s Hls Hs'. apply elem_of_cons in Hls as [->|Hls]; [|exact (H2 ls' s Hls Hs')].
      rewrite Hs in Hs'. injection Hs' as <-. split.
      * apply M1. cbn [AddDependencyByLabelSelector DependenciesByLabelSelector].
        apply elem_rels_add_rel. auto.
      * apply M2. cbn [AddDependencyByLabelSelector ObjectLabelSelectors].
        rewrite lookup_insert_eq. eauto.
Qed.

Lemma crs_ok sels r0 : (∀ ls, ls ∈ sels → is_Some (LabelSelectorAsSelector ls)) →
  is_Some (fold_left cluster_role_selector sels (Some r0)).
Proof.
  revert r0. induction sels as [|ls sels IH]; intros r0 Hok; cbn [fold_left]; [eauto|].
  destruct (Hok ls) as [s Hs]; [apply elem_of_cons; auto|]. rewrite (crs_step r0 ls s Hs).
  apply IH. intros. apply Hok. apply elem_of_cons; auto.
Qed.

Lemma fold_keep_label {A} (f : RelationshipMap → A → RelationshipMap) l r :
  (∀ r a, DependenciesByLabelSelector (f r a) = DependenciesByLabelSelector r ∧
          ObjectLabelSelectors (f r a) = ObjectLabelSelectors r) →
  DependenciesByLabelSelector (fold_left f l r) = DependenciesByLabelSelector r ∧
  ObjectLabelSelectors (fold_left f l r) = ObjectLabelSelectors r.
Proof.
  intros Hf. revert r. induction l as [|a l IH]; intros r; simpl; [auto|].
  destruct (IH (f r a)) as [-> ->]. apply Hf.
Qed.

Lemma crr_keep rules r :
  DependenciesByLabelSelector (fold_left cluster_role_rule rules r) = DependenciesByLabelSelector r ∧
  ObjectLabelSelectors (fold_left cluster_role_rule rules r) = ObjectLabelSelectors r.
Proof.
  apply fold_keep_label. intros r' rule. unfold cluster_role_rule.
  destruct (podSecurityPolicyMatches rule); [|auto].
  destruct (ResourceNames rule); [simpl; auto|].
  apply fold_keep_label. intros. simpl. auto.
Qed.

(** C2 (amended): self-loops are not excluded. A ClusterRole reachable
    through the UID index, with an empty namespace, whose aggregation
    rule has at least one cluster role selector and whose selectors all
    convert and match its own labels, ends up after the graph is built
    with its own UID in both its Dependencies and its Dependents, each
    carrying [ClusterRoleAggregationRule], for every iteration order. *)
Theorem cluster_role_aggregation_self_loop iter extract_other m objects u k p n cr sels :
  (∀ mp, iter mp ≡ₚ map_to_list mp) →
  build_universe m 0 objects empty_universe = inr u →
  globalMapByUID u !! k = Some p → heap u !! p = Some n →
  Group n = "rbac.authorization.k8s.io" → Kind n = "ClusterRole" → Namespace n = "" →
  d_ClusterRole (Unstructured n) = Some cr → cr_aggregationRule cr = Some sels → sels ≠ [] →
  forallb (selects_labels (GetLabels (Unstructured n))) sels = true →
  ∃ n', build_graph iter extract_other u !! p = Some n' ∧
        RelationshipClusterRoleAggregationRule ∈ default ∅ (Dependencies n' !! UID n') ∧
        RelationshipClusterRoleAggregationRule ∈ default ∅ (Dependents n' !! UID n').
Proof.
  intros Hperm Hu Hk Hn Hg Hkd Hns Hd Har Hne Hall.
  apply build_universe_ok0 in Hu as Hok.
  rewrite forallb_forall in Hall.
  assert (Hsel : ∀ ls, ls ∈ sels → ∃ s, LabelSelectorAsSelector ls = Some s ∧
                   Matches s (GetLabels (Unstructured n)) = true).
  { intros ls Hls. apply list_elem_of_In, Hall in Hls. unfold selects_labels in Hls.
    destruct (LabelSelectorAsSelector ls) as [s|]; [eauto|discriminate]. }
  destruct (crs_ok sels newRelationshipMap) as [r Hr].
  { intros ls Hls. destruct (Hsel ls Hls) as (s & -> & _). eauto. }
  destruct (crs_fold _ _ _ Hr) as [F1 F2].
  destruct sels as [|ls0 sels']; [contradiction|].
  destruct (Hsel ls0) as (s0 & Hs0 & _); [apply elem_of_cons; auto|].
  destruct (F2 ls0 s0) as [HR [ols Ho]]; [apply elem_of_cons; auto|exact Hs0|].
  destruct (F1 _ _ Ho) as [Ho'|(ls & s & Hls & Hs & ->)];
    [simpl in Ho'; rewrite lookup_empty in Ho'; discriminate|].
  destruct (Hsel ls Hls) as (s' & Hs' & Hm). rewrite Hs in Hs'. injection Hs' as <-.
  set (key := LabelSelKey (cr_ols s0)) in *.
  unfold rels in HR. destruct (DependenciesByLabelSelector r !! key) as [rset|] eqn:Hrset;
    [|simpl in HR; apply elem_of_empty in HR; contradiction]. simpl in HR.
  set (rmap := fold_left cluster_role_rule (cr_rules cr) r).
  destruct (crr_keep (cr_rules cr) r) as [K1 K2]. fold rmap in K1, K2.
  assert (E : has_edge (build_graph iter extract_other u) p p RelationshipClusterRoleAggregationRule).
  { apply (build_graph_edge iter extract_other u k p);
      [exact (proj1 Hok)|apply iter_elem; assumption|eexists; exact Hn|].
    intros h' node Hh' Hnode.
    destruct (rtc_lookup_back _ _ _ _ Hh' Hnode) as (n0 & Hn0 & Es).
    rewrite Hn in Hn0. injection Hn0 as <-.
    destruct (static_fields _ _ Es) as (Eu & _ & Eg & Ek & _).
    exists rmap. split.
    { rewrite extract_cluster_role by congruence.
      unfold getClusterRoleRelationships. rewrite Eu, Hd. simpl. rewrite Har, Hr. reflexivity. }
    eapply updateRelationships_label_edge;
      [| rewrite K1; exact Hrset | exact HR | rewrite K2; exact Ho |].
    { split; [eexists; exact Hnode|]. eapply rtc_idx_ok; [exact Hh'|exact (proj1 Hok)]. }
    intros h'' Hh''. apply elem_resolveLabelSelectorToNodes.
    destruct (rtc_lookup _ _ _ _ (rtc_trans _ _ _ Hh' Hh'') Hn) as (n'' & Hn'' & Ep).
    destruct (static_fields _ _ Ep) as (Eu' & _ & Eg' & Ek' & Ens').
    exists k, n''. split; [apply iter_elem; assumption|]. split; [exact Hn''|].
    simpl. rewrite Eg', Ek', Ens', Eu'. auto. }
  destruct E as (a & b & Ha & Hb & H1 & H2). rewrite Ha in Hb. injection Hb as <-.
  exists a. auto.
Qed.

Lemma HasAny_spec l items : HasAny l items = true ↔ ∃ x, x ∈ l ∧ x ∈ items.
Proof.
  unfold HasAny. rewrite existsb_exists. split.
  - intros (it & Hit & Hl). apply existsb_exists in Hl as (x & Hx & E).
    apply String.eqb_eq in E as ->. exists x. rewrite !list_elem_of_In. auto.
  - intros (x & Hl & Hi). exists x. rewrite <- list_elem_of_In. split; [exact Hi|].
    apply existsb_exists. exists x. rewrite <- list_elem_of_In. split; [exact Hl|].
    apply String.eqb_refl.
Qed.

Lemma fold_pres {A B} (P : B → Prop) (f : B → A → B) l x :
  (∀ x a, P x → P (f x a)) → P x → P (fold_left f l x).
Proof. intros Hf. revert x. induction l; simpl; auto. Qed.

Lemma add_key_sel nm r m :
  DependenciesBySelector (AddDependencyByKey nm r m) = DependenciesBySelector m ∧
  ObjectSelectors (AddDependencyByKey nm r m) = ObjectSelectors m.
Proof. auto. Qed.

Lemma crr1_grows r rule : sel_grows r (cluster_role_rule r rule).
Proof.
  unfold cluster_role_rule. destruct (podSecurityPolicyMatches rule); [|split; auto].
  destruct (ResourceNames rule) as [|nm names].
  - split.
    + intros key R HR. simpl. apply elem_rels_add_rel. auto.
    + intros Ho. simpl. rewrite lookup_insert. unfold psp_os.
      destruct (decide _); [reflexivity|exact Ho].
  - apply (fold_pres (sel_grows r)); [|split; auto].
    intros x a [H1 H2]. split; [exact H1|exact H2].
Qed.

Lemma crr_grows rules r : sel_grows r (fold_left cluster_role_rule rules r).
Proof.
  apply (fold_pres (sel_grows r)); [|split; auto].
  intros x a [H1 H2]. destruct (crr1_grows x a) as [G1 G2]. split; auto.
Qed.

Lemma crr_psp rules r rule :
  rule ∈ rules → podSecurityPolicyMatches rule = true → ResourceNames rule = [] →
  RelationshipClusterRolePolicyRule ∈
    rels (DependenciesBySelector (fold_left cluster_role_rule rules r)) (KindSelKey psp_os) ∧
  ObjectSelectors (fold_left cluster_role_rule rules r) !! KindSelKey psp_os = Some psp_os.
Proof.
  intros Hin Hm Hn. revert r. induction rules as [|a rules IH]; intros r;
    [apply elem_of_nil in Hin; contradiction|].
  cbn [fold_left]. apply elem_of_cons in Hin as [<-|Hin]; [|auto].
  assert (E : cluster_role_rule r rule =
              AddDependencyBySelector psp_os RelationshipClusterRolePolicyRule r)
    by (unfold cluster_role_rule; rewrite Hm, Hn; reflexivity).
  rewrite E. destruct (crr_grows rules (AddDependencyBySelector psp_os RelationshipClusterRolePolicyRule r)) as [G1 G2].
  split.
  - apply G1. simpl. apply elem_rels_add_rel. auto.
  - apply G2. simpl. rewrite lookup_insert_eq. reflexivity.
Qed.

Lemma ref_fold_rels names R m nm :
  nm ∈ names →
  R ∈ rels (DependenciesByRef (fold_left (fun m n => AddDependencyByKey (RefKey (psp_ref n)) R m) names m))
           (RefKey (psp_ref nm)).
Proof.
  revert m. induction names as [|a names IH]; intros m Hin;
    [apply elem_of_nil in Hin; contradiction|].
  cbn [fold_left]. apply elem_of_cons in Hin as [<-|Hin]; [|auto].
  apply (fold_pres (λ m', R ∈ rels (DependenciesByRef m') (RefKey (psp_ref nm)))).
  - intros x b Hx. simpl. apply elem_rels_add_rel. auto.
  - simpl. apply elem_rels_add_rel. auto.
Qed.

Lemma getClusterRoleRelationships_rules n cr rmap :
  d_ClusterRole (Unstructured n) = Some cr → getClusterRoleRelationships n = Some rmap →
  ∃ r0, rmap = fold_left cluster_role_rule (cr_rules cr) r0.
Proof.
  intros Hd Hg. unfold getClusterRoleRelationships in Hg. rewrite Hd in Hg. simpl in Hg.
  destruct (match cr_aggregationRule cr with
            | Some sels => fold_left cluster_role_selector sels (Some newRelationshipMap)
            | None => Some newRelationshipMap end) as [r0|]; simpl in Hg; [|discriminate].
  injection Hg as <-. eauto.
Qed.

Lemma cluster_role_psp_edge iter extract_other m objects u k p n cr rule kq q psp :
  (∀ mp, iter mp ≡ₚ map_to_list mp) →
  build_universe m 0 objects empty_universe = inr u →
  globalMapByUID u !! k = Some p → heap u !! p = Some n →
  Group n = "rbac.authorization.k8s.io" → Kind n = "ClusterRole" →
  d_ClusterRole (Unstructured n) = Some cr → is_Some (getClusterRoleRelationships n) →
  rule ∈ cr_rules cr → podSecurityPolicyMatches rule = true → ResourceNames rule = [] →
  globalMapByUID u !! kq = Some q → heap u !! q = Some psp →
  Group psp = "policy" → Kind psp = "PodSecurityPolicy" →
  has_edge (build_graph iter extract_other u) p q RelationshipClusterRolePolicyRule.
Proof.
  intros Hperm Hu Hk Hn Hg Hkd Hd [rmap Hr] Hin Hm Hnames Hkq Hq Hpg Hpk.
  apply build_universe_ok0 in Hu as Hok.
  destruct (getClusterRoleRelationships_rules _ _ _ Hd Hr) as [r0 ->].
  destruct (crr_psp _ r0 _ Hin Hm Hnames) as [HR Ho].
  unfold rels in HR.
  destruct (DependenciesBySelector (fold_left cluster_role_rule (cr_rules cr) r0) !! KindSelKey psp_os)
    as [rset|] eqn:Hrset; [|simpl in HR; apply elem_of_empty in HR; contradiction]. simpl in HR.
  apply (build_graph_edge iter extract_other u k p);
    [exact (proj1 Hok)|apply iter_elem; assumption|eexists; exact Hn|].
  intros h' node Hh' Hnode.
  destruct (rtc_lookup_back _ _ _ _ Hh' Hnode) as (n0 & Hn0 & Es).
  rewrite Hn in Hn0. injection Hn0 as <-.
  destruct (static_fields _ _ Es) as (Eu & _ & Eg & Ek & _).
  eexists. split.
  { rewrite extract_cluster_role by congruence.
    unfold getClusterRoleRelationships in *. rewrite Eu. exact Hr. }
  eapply updateRelationships_selector_edge; [| exact Hrset | exact HR | exact Ho |].
  { split; [eexists; exact Hnode|]. eapply rtc_idx_ok; [exact Hh'|exact (proj1 Hok)]. }
  intros h'' Hh''. apply elem_resolveSelectorToNodes.
  destruct (rtc_lookup _ _ _ _ (rtc_trans _ _ _ Hh' Hh'') Hq) as (q'' & Hq'' & Ep).
  destruct (static_fields _ _ Ep) as (_ & _ & Epg & Epk & _).
  exists kq, q''. split; [apply iter_elem; assumption|]. split; [exact Hq''|].
  simpl. rewrite Epg, Epk, Hpg, Hpk. auto.
Qed.

Lemma ins_lookup (m : gmap string nat) i j x :
  <[i:=x]> m !! j = if String.eqb i j then Some x else m !! j.
Proof.
  destruct (String.eqb_spec i j) as [->|Hne];
    [apply lookup_insert_eq|apply lookup_insert_ne, Hne].
Qed.

Lemma byUID_add_object_eq ix n u k :
  globalMapByUID (add_object ix n u) !! k =
  if claims n k then Some ix else globalMapByUID u !! k.
Proof.
  unfold add_object, claims. cbn [globalMapByUID].
  destruct (String.eqb (Group n) "" && String.eqb (Kind n) "Node"); simpl.
  - destruct (GetLabels (Unstructured n) !! LabelHostname) as [hn|] eqn:Hh;
      rewrite ?ins_lookup.
    + destruct (decide (hn = k)) as [->|Hne].
      * rewrite bool_decide_eq_true_2 by reflexivity. rewrite String.eqb_refl, !orb_true_r.
        reflexivity.
      * rewrite bool_decide_eq_false_2 by congruence. rewrite orb_false_r.
        apply String.eqb_neq in Hne. rewrite Hne.
        destruct (String.eqb (Name n) k), (String.eqb (UID n) k); reflexivity.
    + rewrite bool_decide_eq_false_2 by congruence. rewrite orb_false_r.
      destruct (String.eqb (Name n) k), (String.eqb (UID n) k); reflexivity.
  - rewrite ins_lookup, orb_false_r. reflexivity.
Qed.

Lemma add_object_index_ok ix n u : uid_index_ok ix u → uid_index_ok (S ix) (add_object ix n u).
Proof.
  intros [Hb Hi]. split.
  - intros p Hp. unfold add_object in Hp. simpl in Hp.
    apply lookup_insert_is_Some in Hp as [<-|[_ Hp]]; [lia|]. specialize (Hb p Hp). lia.
  - intros k p. rewrite byUID_add_object_eq. unfold last_claim. cbn [heap add_object].
    destruct (claims n k) eqn:Hc.
    + split.
      * intros E. injection E as <-. exists n. rewrite lookup_insert_eq. split; [reflexivity|].
        split; [exact Hc|]. intros p' n' Hp' _.
        apply lookup_insert_Some in Hp' as [[<- _]|[_ Hp']]; [lia|].
        assert (p' < ix) by (apply Hb; eauto). lia.
      * intros (n0 & Hp & _ & Hmax). f_equal.
        assert (ix ≤ p) by (apply (Hmax ix n); [apply lookup_insert_eq|exact Hc]).
        apply lookup_insert_Some in Hp as [[-> _]|[_ Hp]]; [reflexivity|].
        assert (p < ix) by (apply Hb; eauto). lia.
    + rewrite Hi. unfold last_claim. split.
      * intros (n0 & Hp & Hc0 & Hmax). exists n0.
        assert (p < ix) by (apply Hb; eauto).
        rewrite lookup_insert_ne by lia. split; [exact Hp|]. split; [exact Hc0|].
        intros p' n' Hp' Hc'. apply lookup_insert_Some in Hp' as [[<- <-]|[_ Hp']];
          [congruence|eauto].
      * intros (n0 & Hp & Hc0 & Hmax). exists n0.
        apply lookup_insert_Some in Hp as [[<- <-]|[Hne Hp]]; [congruence|].
        split; [exact Hp|]. split; [exact Hc0|].
        intros p' n' Hp' Hc'. apply (Hmax p' n'); [|exact Hc'].
        rewrite lookup_insert_ne; [exact Hp'|]. intros <-.
        assert (ix < ix) by (apply Hb; eauto). lia.
Qed.

Lemma build_universe_index_ok m os : ∀ ix u u',
  uid_index_ok ix u → build_universe m ix os u = inr u' → ∃ ix', uid_index_ok ix' u'.
Proof.
  induction os as [|o os IH]; intros ix u u' Hu Hb; simpl in Hb.
  - injection Hb as <-. eauto.
  - destruct (m _ _ _) as [err|mp]; [discriminate|].
    eapply IH; [apply add_object_index_ok, Hu|exact Hb].
Qed.

(** C5 (amended): Node aliases are written in the same pass as each
    object's own UID, so a UID-index lookup of a key [k] returns the last
    object in input order that claims [k]: by its real UID or, for a core
    Node, by its name or its [kubernetes.io/hostname] label. A Node alias
    therefore shadows an earlier object whose real UID is that key. *)
Theorem uid_index_last m objects u k p :
  build_universe m 0 objects empty_universe = inr u →
  globalMapByUID u !! k = Some p ↔ last_claim u k p.
Proof.
  intros Hb. destruct (build_universe_index_ok m objects 0 empty_universe u) as [ix [_ Hi]];
    [|exact Hb|apply Hi].
  split.
  - intros p0 [n0 Hp]. simpl in Hp. rewrite lookup_empty in Hp. discriminate.
  - intros k' p'. simpl. rewrite lookup_empty. unfold last_claim. simpl. split.
    + discriminate.
    + intros (n & Hp & _). rewrite lookup_empty in Hp. discriminate.
Qed.

Lemma build_universe_fails m o err objects : ∀ ix u,
  o ∈ objects →
  m (gvk_group (GroupVersionKindOf o)) (gvk_kind (GroupVersionKindOf o))
    (gvk_version (GroupVersionKindOf o)) = inl err →
  ∃ e, build_universe m ix objects u = inl e.
Proof.
  induction objects as [|o' os IH]; intros ix u Hin Hm; [apply elem_of_nil in Hin; contradiction|].
  simpl. apply elem_of_cons in Hin as [->|Hin].
  - rewrite Hm. eauto.
  - destruct (m (gvk_group (GroupVersionKindOf o')) (gvk_kind (GroupVersionKindOf o'))
               (gvk_version (GroupVersionKindOf o'))) as [e|mp]; [eauto|].
    apply IH; assumption.
Qed.

(** C9 (amended): when the RESTMapper fails on the kind of any input
    object and the root list is non-empty, [resolveDeps] returns a nil
    NodeMap with a non-nil error; with an empty root list it returns an
    empty NodeMap and no error before any mapping is attempted. *)
Theorem mapping_failure_aborts iter extract_other fuel m objects uids depsIsDependencies o err :
  o ∈ objects →
  m (gvk_group (GroupVersionKindOf o)) (gvk_kind (GroupVersionKindOf o))
    (gvk_version (GroupVersionKindOf o)) = inl err →
  (uids ≠ [] → ∃ e, resolveDeps iter extract_other fuel m objects uids depsIsDependencies
                     = Some (None, Some e)) ∧
  (uids = [] → resolveDeps iter extract_other fuel m objects uids depsIsDependencies
               = Some (Some ∅, None)).
Proof.
  intros Hin Hm. split.
  - intros Hne. unfold resolveDeps.
    destruct uids as [|x uids]; [contradiction|]. simpl.
    destruct (build_universe_fails m o err objects 0 empty_universe Hin Hm) as [e ->]. eauto.
  - intros ->. reflexivity.
Qed.

Lemma count_bs_app a b : count_bs (String.append a b) = count_bs a + count_bs b.
Proof. induction a as [|c a IH]; simpl; [reflexivity|]. rewrite IH. lia. Qed.

Lemma count_bs_concat sep l :
  count_bs sep = 0 → (∀ x, x ∈ l → count_bs x = 0) → count_bs (String.concat sep l) = 0.
Proof.
  intros Hs. induction l as [|x l IH]; intros Hl; [reflexivity|].
  destruct l as [|y l].
  - simpl. apply Hl, elem_of_cons. auto.
  - change (String.concat sep (x :: y :: l)) with (String.append x (String.append sep (String.concat sep (y :: l)))).
    rewrite !count_bs_app, Hs, IH; [rewrite Hl; [reflexivity|apply elem_of_cons; auto]|].
    intros z Hz. apply Hl, elem_of_cons. auto.
Qed.

Lemma elem_insert_sorted {A} (le : A → A → bool) x y l : y ∈ insert_sorted le x l → y = x ∨ y ∈ l.
Proof.
  induction l as [|z l IH]; simpl.
  - rewrite elem_of_cons, elem_of_nil. tauto.
  - destruct (le x z); rewrite !elem_of_cons; [tauto|]. intros [->|H]; [auto|].
    destruct (IH H); auto.
Qed.

Lemma elem_sort_strings y l : y ∈ sort_strings l → y ∈ l.
Proof.
  unfold sort_strings, sort_by. induction l as [|x l IH]; simpl; [auto|].
  intros H. apply elem_insert_sorted in H as [->|H]; apply elem_of_cons; auto.
Qed.

Lemma count_bs_format s : (∀ x, x ∈ s → count_bs x = 0) → count_bs (format_string_set s) = 0.
Proof.
  intros Hs. unfold format_string_set. rewrite !count_bs_app.
  rewrite count_bs_concat; [reflexivity|reflexivity|].
  intros x Hx. apply list_elem_of_fmap in Hx as (k & -> & Hk).
  apply elem_sort_strings, elem_of_elements in Hk.
  rewrite count_bs_app, Hs by exact Hk. reflexivity.
Qed.

Lemma split_bs a b c d :
  count_bs a = 0 → count_bs c = 0 →
  String.append a (String.append backslash b) = String.append c (String.append backslash d) →
  a = c ∧ b = d.
Proof.
  revert c. induction a as [|x a IH]; intros c Ha Hc E; destruct c as [|y c]; simpl in *.
  - injection E. auto.
  - injection E as <- _. simpl in Hc. discriminate.
  - injection E as -> _. simpl in Ha. discriminate.
  - injection E as <- E. destruct (Ascii.eqb x "\"%char); [discriminate|].
    destruct (IH c Ha Hc E) as [-> ->]. auto.
Qed.

(** C6 (amended): the three key functions are total and deterministic
    (they are functions). A KindSel key never equals a Ref key or a
    LabelSel key when no component contains a backslash (two separators
    against three). A Ref key and a LabelSel key with backslash-free
    group, kind and namespace are equal exactly when group, kind and
    namespace agree and the name equals the printed selector, so the two
    key spaces do collide. *)
Theorem key_spaces_disjoint :
  (∀ r s, count_bs (ref_group r) = 0 → count_bs (ref_kind r) = 0 →
     count_bs (ref_namespace r) = 0 → count_bs (ref_name r) = 0 →
     count_bs (os_group s) = 0 → count_bs (os_kind s) = 0 →
     (∀ x, x ∈ os_namespaces s → count_bs x = 0) → RefKey r ≠ KindSelKey s) ∧
  (∀ o s, count_bs (ols_group o) = 0 → count_bs (ols_kind o) = 0 →
     count_bs (ols_namespace o) = 0 → count_bs (selector_string (ols_selector o)) = 0 →
     count_bs (os_group s) = 0 → count_bs (os_kind s) = 0 →
     (∀ x, x ∈ os_namespaces s → count_bs x = 0) → LabelSelKey o ≠ KindSelKey s) ∧
  (∀ r o, count_bs (ref_group r) = 0 → count_bs (ref_kind r) = 0 →
     count_bs (ref_namespace r) = 0 → count_bs (ols_group o) = 0 →
     count_bs (ols_kind o) = 0 → count_bs (ols_namespace o) = 0 →
     (RefKey r = LabelSelKey o ↔
      ref_group r = ols_group o ∧ ref_kind r = ols_kind o ∧
      ref_namespace r = ols_namespace o ∧ ref_name r = selector_string (ols_selector o))).
Proof.
  split; [|split].
  - intros r s H1 H2 H3 H4 H5 H6 H7 E. apply (f_equal count_bs) in E.
    unfold RefKey, KindSelKey in E. rewrite !count_bs_app, count_bs_format in E by exact H7.
    simpl in E. lia.
  - intros o s H1 H2 H3 H4 H5 H6 H7 E. apply (f_equal count_bs) in E.
    unfold LabelSelKey, KindSelKey in E. rewrite !count_bs_app, count_bs_format in E by exact H7.
    simpl in E. lia.
  - intros r o H1 H2 H3 H4 H5 H6. unfold RefKey, LabelSelKey. split.
    + intros E. apply split_bs in E as [Eg E]; [|assumption|assumption].
      apply split_bs in E as [Ek E]; [|assumption|assumption].
      apply split_bs in E as [En E]; [|assumption|assumption]. auto.
    + intros (-> & -> & -> & ->). reflexivity.
Qed.

Ltac all_orders Hperm :=
  lazymatch goal with
  | |- context [resolveDeps ?it ?eo ?f ?m ?objs ?us ?b] =>
      let Hu := fresh "Hu" in let u := fresh "u" in
      destruct (build_universe m 0 objs empty_universe) as [?|u] eqn:Hu;
      vm_compute in Hu; [discriminate|];
      pattern (resolveDeps it eo f m objs us b);
      apply (resolveDeps_orders _ it eo f m objs us b u Hperm Hu);
      injection Hu as <-;
      let L := fresh "L" in let HL := fresh "HL" in
      intros L HL; vm_compute in HL;
      repeat (apply elem_of_cons in HL as [HL|HL]; [subst L|]);
      [..|apply elem_of_nil in HL; contradiction]
  end.

(** C3: scenario S3 (a Node with UID [n] and a core-group Event whose
    [involvedObject.uid] is [n]; dependents of [n]) yields only the Node,
    with no dependents, for every iteration order: the core-group branch
    of [getEventRelationships] reads the field path
    [involvedobject.uid], which the manifest field [involvedObject] does
    not match. *)
Theorem scenario_S3_event_dependents iter extract_other :
  (∀ m, iter m ≡ₚ map_to_list m) →
  result_view (ResolveDependents iter extract_other 100 demo_mapper [node_worker1; event_x] ["n"])
  = Some (Some [("n", Some ("n", 0, [], []))], None).
Proof.
  intros Hperm. unfold ResolveDependents.
  all_orders Hperm; vm_compute; reflexivity.
Qed.

(** C8: with a Node [w] (UID [n]), a ConfigMap [c] owned by it, roots
    [w] and [c] and the dependencies direction, the root entry [w] gets
    depth 1 for every iteration order: the Node, set to depth 0 as a
    root, is reached again under its UID [n] at depth 1, and
    [Depth == 0] is read as unset, so the smaller depth is overwritten. *)
Theorem depth_of_aliased_root iter extract_other :
  (∀ m, iter m ≡ₚ map_to_list m) →
  result_view (ResolveDependencies iter extract_other 100 demo_mapper
                 [node_named "w" "n"; cm_owned] ["w"; "c"])
  = Some (Some [("w", Some ("n", 1, [], [("c", ["OwnerReference"])]));
                ("c", Some ("c", 0, [("n", ["OwnerReference"])], []));
                ("n", Some ("n", 1, [], [("c", ["OwnerReference"])]))], None).
Proof.
  intros Hperm. unfold ResolveDependencies.
  all_orders Hperm; vm_compute; reflexivity.
Qed.

Lemma s6_test iter extract_other :
  (∀ m, iter m ≡ₚ map_to_list m) →
  result_view (ResolveDependencies iter extract_other 100 demo_mapper
                 [cr_r; psp "psp-a"; psp "psp-b"] ["r"])
  = Some (Some [("r", Some ("r", 0, [("psp-a", ["ClusterRolePolicyRule"]);
                                    ("psp-b", ["ClusterRolePolicyRule"])], []));
                ("psp-a", Some ("psp-a", 1, [], [("r", ["ClusterRolePolicyRule"])]));
                ("psp-b", Some ("psp-b", 1, [], [("r", ["ClusterRolePolicyRule"])]))], None).
Proof.
  intros Hperm. unfold ResolveDependencies.
  all_orders Hperm; vm_compute; reflexivity.
Qed.

(** Replaces a variable [x] with [Hx : e = Some x] by the value of [e],
    computed with [Hu : concrete = u]. *)
Ltac concretize Hu Hx :=
  let H := fresh in pose proof Hx as H; try rewrite <- Hu in H; vm_compute in H;
  injection H as <-.

(** [cluster_role_aggregation_self_loop] at the ClusterRole [agg]. *)
Lemma cluster_role_aggregation_self_loop_witness :
  ∃ u, build_universe demo_mapper 0 [cr_agg] empty_universe = inr u ∧
  ∃ n', build_graph map_to_list (λ _, None) u !! 0 = Some n' ∧
        RelationshipClusterRoleAggregationRule ∈ default ∅ (Dependencies n' !! UID n') ∧
        RelationshipClusterRoleAggregationRule ∈ default ∅ (Dependents n' !! UID n').
Proof.
  destruct (build_universe demo_mapper 0 [cr_agg] empty_universe) as [e|u] eqn:Hu;
    [vm_compute in Hu; discriminate|].
  exists u. split; [reflexivity|].
  pose proof Hu as Hu'. vm_compute in Hu'. injection Hu' as Hu'.
  destruct (heap u !! 0) as [n|] eqn:Hn; [|rewrite <- Hu' in Hn; vm_compute in Hn; discriminate].
  destruct (d_ClusterRole (Unstructured n)) as [cr|] eqn:Hcr;
    [|concretize Hu' Hn; vm_compute in Hcr; discriminate].
  destruct (cr_aggregationRule cr) as [sels|] eqn:Hs;
    [|concretize Hu' Hn; concretize Hu' Hcr; vm_compute in Hs; discriminate].
  concretize Hu' Hn. concretize Hu' Hcr. concretize Hu' Hs.
  eapply (cluster_role_aggregation_self_loop map_to_list (λ _, None) demo_mapper [cr_agg] u "a" 0 _ _ _
           (λ _, reflexivity _) Hu); try assumption;
    try (rewrite <- Hu'; vm_compute; reflexivity); try (vm_compute; reflexivity); discriminate.
Defined.

Lemma add_key_rels_in allowed key r m :
  r ∈ allowed → ref_rels_in allowed m → ref_rels_in allowed (AddDependencyByKey key r m).
Proof.
  intros Hr Hm k R HR. simpl in HR. apply elem_rels_add_rel in HR as [[_ ->]|HR]; [exact Hr|].
  exact (Hm k R HR).
Qed.

Lemma ingress_relationships_kinds ns ing :
  ref_rels_in [RelationshipIngressClass; RelationshipIngressResource; RelationshipIngressService]
              (ingress_relationships ns ing).
Proof.
  unfold ingress_relationships. cbv zeta.
  apply fold_pres; [intros m s Hm; apply add_key_rels_in; [set_solver|exact Hm]|].
  apply fold_pres.
  - intros m b Hm. destruct (be_resource b), (be_service b);
      try (apply add_key_rels_in; [set_solver|exact Hm]); exact Hm.
  - destruct (ing_ingressClassName ing); [destruct (Nat.ltb _ _)|];
      try (apply add_key_rels_in; [set_solver|]);
      intros k R HR; simpl in HR; unfold rels in HR; rewrite lookup_empty in HR; set_solver.
Qed.

(** C4: the Ingress extractor never records [IngressTLSSecret] in any
    by-reference bucket; in both the [extensions] and the
    [networking.k8s.io] branch the key of a [spec.tls] secret is mapped
    to [{IngressClass}]. *)
Theorem ingress_tls_secret_relationship :
  (∀ n rmap k, getIngressRelationships n = Some rmap →
     RelationshipIngressTLSSecret ∉ rels (DependenciesByRef rmap) k) ∧
  (λ r, rels_view (DependenciesByRef r)) <$>
    getIngressRelationships
      (new_node {| rm_group := "extensions"; rm_version := "v1beta1";
                   rm_resource := "ingresses"; rm_kind := "Ingress" |} (ingress_with_tls "extensions/v1beta1"))
  = Some [("\Secret\default\tls-s", [RelationshipIngressClass])] ∧
  (λ r, rels_view (DependenciesByRef r)) <$>
    getIngressRelationships
      (new_node {| rm_group := "networking.k8s.io"; rm_version := "v1";
                   rm_resource := "ingresses"; rm_kind := "Ingress" |} (ingress_with_tls "networking.k8s.io/v1"))
  = Some [("\Secret\default\tls-s", [RelationshipIngressClass])].
Proof.
  split; [|split; vm_compute; reflexivity].
  intros n rmap k Hg HR. unfold getIngressRelationships in Hg.
  assert (Hin : RelationshipIngressTLSSecret ∈
                [RelationshipIngressClass; RelationshipIngressResource; RelationshipIngressService]).
  { destruct (String.eqb (Group n) "extensions");
      [|destruct (String.eqb (Group n) "networking.k8s.io")].
    1,2: destruct (d_Ingress _ _ _) as [ing|]; simpl in Hg; [|discriminate];
         injection Hg as <-; exact (ingress_relationships_kinds _ ing k _ HR).
    injection Hg as <-. unfold rels in HR. simpl in HR. rewrite lookup_empty in HR. set_solver. }
  unfold RelationshipIngressTLSSecret, RelationshipIngressClass, RelationshipIngressResource,
    RelationshipIngressService in Hin.
  rewrite !elem_of_cons, elem_of_nil in Hin. intuition discriminate.
Qed.

(** C7 (amended): a policy rule matches PodSecurityPolicy use exactly
    when its apiGroups, resources and verbs meet the three sets; a
    matching rule with empty resourceNames adds the kind selector
    [policy/PodSecurityPolicy], and one with names adds one by-Ref key
    per name. When the ClusterRole's extractor succeeds (every
    aggregation selector converts), the kind selector links the role to
    every PodSecurityPolicy of group [policy] reachable through the UID
    index, for every iteration order; in scenario S6 both PSPs become
    dependencies of [r] with [{ClusterRolePolicyRule}]. *)
Theorem cluster_role_psp_rules :
  (∀ rule, podSecurityPolicyMatches rule = true ↔
     (∃ x, x ∈ APIGroups rule ∧ x ∈ ["*"; "extensions"; "policy"]) ∧
     (∃ x, x ∈ Resources rule ∧ x ∈ ["*"; "podsecuritypolicies"]) ∧
     (∃ x, x ∈ Verbs rule ∧ x ∈ ["*"; "use"])) ∧
  (∀ result rule, podSecurityPolicyMatches rule = true → ResourceNames rule = [] →
     cluster_role_rule result rule =
     AddDependencyBySelector psp_os RelationshipClusterRolePolicyRule result) ∧
  (∀ result rule nm, podSecurityPolicyMatches rule = true → nm ∈ ResourceNames rule →
     RelationshipClusterRolePolicyRule ∈
       rels (DependenciesByRef (cluster_role_rule result rule)) (RefKey (psp_ref nm))) ∧
  (∀ iter extract_other m objects u k p n cr rule kq q psp,
     (∀ mp, iter mp ≡ₚ map_to_list mp) →
     build_universe m 0 objects empty_universe = inr u →
     globalMapByUID u !! k = Some p → heap u !! p = Some n →
     Group n = "rbac.authorization.k8s.io" → Kind n = "ClusterRole" →
     d_ClusterRole (Unstructured n) = Some cr → is_Some (getClusterRoleRelationships n) →
     rule ∈ cr_rules cr → podSecurityPolicyMatches rule = true → ResourceNames rule = [] →
     globalMapByUID u !! kq = Some q → heap u !! q = Some psp →
     Group psp = "policy" → Kind psp = "PodSecurityPolicy" →
     has_edge (build_graph iter extract_other u) p q RelationshipClusterRolePolicyRule) ∧
  (∀ iter extract_other, (∀ mp, iter mp ≡ₚ map_to_list mp) →
     result_view (ResolveDependencies iter extract_other 100 demo_mapper
                    [cr_r; psp "psp-a"; psp "psp-b"] ["r"])
     = Some (Some [("r", Some ("r", 0, [("psp-a", [RelationshipClusterRolePolicyRule]);
                                       ("psp-b", [RelationshipClusterRolePolicyRule])], []));
                   ("psp-a", Some ("psp-a", 1, [], [("r", [RelationshipClusterRolePolicyRule])]));
                   ("psp-b", Some ("psp-b", 1, [], [("r", [RelationshipClusterRolePolicyRule])]))],
             None)).
Proof.
  split; [|split; [|split; [|split]]].
  - intros rule. unfold podSecurityPolicyMatches. rewrite <- !HasAny_spec.
    destruct (HasAny (APIGroups rule) _), (HasAny (Resources rule) _), (HasAny (Verbs rule) _);
      intuition discriminate.
  - intros result rule Hm Hn. unfold cluster_role_rule. rewrite Hm, Hn. reflexivity.
  - intros result rule nm Hm Hin. unfold cluster_role_rule. rewrite Hm.
    destruct (ResourceNames rule) as [|a names]; [apply elem_of_nil in Hin; contradiction|].
    apply ref_fold_rels, Hin.
  - intros. eapply cluster_role_psp_edge; eassumption.
  - exact s6_test.
Qed.

(** Two objects share the UID [x]; the index keeps the ConfigMap, the
    Ingress's edge to the Service [web] is recorded on the Ingress only. *)
Lemma resolveDeps_duplicate_uid_counterexample :
  result_view (ResolveDependencies map_to_list (λ _, None) 100 demo_mapper
                 [svc_web; cm_other; ing_web] ["i"])
  = Some (Some [("i", Some ("i", 0, [("x", [RelationshipIngressService])], []));
                ("x", Some ("x", 1, [], []))], None).
Proof. vm_compute. reflexivity. Qed.

(** A ClusterRole whose aggregation selector matches its own labels. *)
Lemma cluster_role_self_aggregation_counterexample :
  result_view (ResolveDependents map_to_list (λ _, None) 100 demo_mapper [cr_agg] ["a"])
  = Some (Some [("a", Some ("a", 0, [("a", [RelationshipClusterRoleAggregationRule])],
                                    [("a", [RelationshipClusterRoleAggregationRule])]))], None).
Proof. vm_compute. reflexivity. Qed.

(** The Node alias [w1] shadows the ConfigMap whose real UID is [w1]. *)
Lemma node_alias_shadows_uid_counterexample :
  match build_universe demo_mapper 0 [cm_w1; node_named "w1" "n"] empty_universe with
  | inr u => globalMapByUID u !! "w1" = Some 1 ∧ UID <$> heap u !! 0 = Some "w1" ∧
             (λ n, (Kind n, UID n)) <$> heap u !! 1 = Some ("Node", "n")
  | inl _ => False
  end.
Proof. vm_compute. auto. Qed.

(** The reference to Pod [default/app] and the selector [app] (Exists)
    on Pods of [default] share one key. *)
Lemma ref_labelsel_key_collision_counterexample :
  LabelSelectorAsSelector {| matchLabels := ∅;
                             matchExpressions := [{| lsr_key := "app"; lsr_operator := "Exists";
                                                     lsr_values := [] |}] |}
  = Some [{| req_key := "app"; req_op := OpExists; req_values := [] |}] ∧
  RefKey {| ref_group := ""; ref_kind := "Pod"; ref_namespace := "default"; ref_name := "app" |}
  = LabelSelKey {| ols_group := ""; ols_kind := "Pod"; ols_namespace := "default";
                   ols_selector := [{| req_key := "app"; req_op := OpExists; req_values := [] |}] |}.
Proof. split; vm_compute; reflexivity. Qed.

(** A malformed aggregation selector drops the whole extractor, and a
    PodSecurityPolicy of group [extensions] is not linked. *)
Lemma cluster_role_psp_rule_counterexample :
  result_view (ResolveDependencies map_to_list (λ _, None) 100 demo_mapper
                 [cr_bad_agg; psp "psp-a"] ["r"])
  = Some (Some [("r", Some ("r", 0, [], []))], None) ∧
  result_view (ResolveDependencies map_to_list (λ _, None) 100 demo_mapper
                 [cr_r; psp_ext "psp-x"] ["r"])
  = Some (Some [("r", Some ("r", 0, [], []))], None).
Proof. split; vm_compute; reflexivity. Qed.

(** An unknown kind with no roots: an empty map and no error. *)
Lemma mapping_failure_empty_roots_counterexample :
  ResolveDependencies map_to_list (λ _, None) 100 demo_mapper [widget; pod "p1" "ns"] []
  = Some (Some ∅, None).
Proof. reflexivity. Qed.

(** The selected Pod is a dependency of the Service, not a dependent. *)
Lemma service_pods_direction_counterexample :
  result_view (ResolveDependencies map_to_list (λ _, None) 100 demo_mapper
                 [svc_s; pod "p1" "ns"] ["s"])
  = Some (Some [("s", Some ("s", 0, [("p1", [RelationshipService])], []));
                ("p1", Some ("p1", 1, [], [("s", [RelationshipService])]))], None).
Proof. vm_compute. reflexivity. Qed.

(** [scenario_S3_event_dependents] at the enumeration [map_to_list]. *)
Lemma scenario_S3_event_dependents_witness :
  (∀ m : gmap string nat, map_to_list m ≡ₚ map_to_list m) ∧
  result_view (ResolveDependents map_to_list (λ _, None) 100 demo_mapper
                 [node_worker1; event_x] ["n"])
  = Some (Some [("n", Some ("n", 0, [], []))], None).
Proof.
  split; [intros; reflexivity|]. apply scenario_S3_event_dependents. intros; reflexivity.
Defined.

(** [depth_of_aliased_root] at the enumeration [map_to_list]. *)
Lemma depth_of_aliased_root_witness :
  (∀ m : gmap string nat, map_to_list m ≡ₚ map_to_list m) ∧
  result_view (ResolveDependencies map_to_list (λ _, None) 100 demo_mapper
                 [node_named "w" "n"; cm_owned] ["w"; "c"])
  = Some (Some [("w", Some ("n", 1, [], [("c", ["OwnerReference"])]));
                ("c", Some ("c", 0, [("n", ["OwnerReference"])], []));
                ("n", Some ("n", 1, [], [("c", ["OwnerReference"])]))], None).
Proof.
  split; [intros; reflexivity|]. apply depth_of_aliased_root. intros; reflexivity.
Defined.

(** [mapping_failure_aborts] with an object of an unknown kind. *)
Lemma mapping_failure_aborts_witness :
  widget ∈ [widget; pod "p1" "ns"] ∧
  (["p1"] ≠ [] → ∃ e, ResolveDependencies map_to_list (λ _, None) 100 demo_mapper
                        [widget; pod "p1" "ns"] ["p1"] = Some (None, Some e)).
Proof.
  split; [apply elem_of_cons; left; reflexivity|].
  apply (mapping_failure_aborts map_to_list (λ _, None) 100 demo_mapper [widget; pod "p1" "ns"]
           ["p1"] true widget "no matches for kind Widget in version v1");
    [apply elem_of_cons; left; reflexivity|vm_compute; reflexivity].
Defined.

(** [uid_index_last] on a ConfigMap with UID [w1] and a Node named [w1]. *)
Lemma uid_index_last_witness :
  ∃ u, build_universe demo_mapper 0 [cm_w1; node_named "w1" "n"] empty_universe = inr u ∧
       (globalMapByUID u !! "w1" = Some 1 ↔ last_claim u "w1" 1).
Proof.
  destruct (build_universe demo_mapper 0 [cm_w1; node_named "w1" "n"] empty_universe)
    as [e|u] eqn:Hu; [vm_compute in Hu; discriminate|].
  exists u. split; [reflexivity|]. exact (uid_index_last _ _ _ _ _ Hu).
Defined.

(** [resolveDeps_bidirectional] on a Service and a Pod it selects. *)
Lemma resolveDeps_bidirectional_witness :
  match resolveDeps map_to_list (λ _, None) 100 demo_mapper [svc_s; pod "p1" "ns"] ["s"] true with
  | Some (Some nm, _) =>
      match nm !! "p1", nm !! "s" with
      | Some (Some a), Some (Some b) =>
          RelationshipService ∈ default ∅ (Dependents a !! UID b) ↔
          RelationshipService ∈ default ∅ (Dependencies b !! UID a)
      | _, _ => False
      end
  | _ => False
  end.
Proof.
  destruct (resolveDeps map_to_list (λ _, None) 100 demo_mapper [svc_s; pod "p1" "ns"] ["s"] true)
    as [[[nm|] err]|] eqn:E; try (vm_compute in E; discriminate).
  pose proof E as E'. vm_compute in E'. injection E' as Enm _.
  destruct (nm !! "p1") as [[a|]|] eqn:Ea;
    [|subst nm; vm_compute in Ea; discriminate|subst nm; vm_compute in Ea; discriminate].
  destruct (nm !! "s") as [[b|]|] eqn:Eb;
    [|subst nm; vm_compute in Eb; discriminate|subst nm; vm_compute in Eb; discriminate].
  apply (resolveDeps_bidirectional map_to_list (λ _, None) 100 demo_mapper [svc_s; pod "p1" "ns"]
           ["s"] true nm err "p1" "s" a b RelationshipService); [|exact E|exact Ea|exact Eb].
  apply (bool_decide_unpack _). vm_compute. reflexivity.
Defined.

(** [service_selects_pods_as_dependencies] on Service [s] and Pod [p1]. *)
Lemma service_selects_pods_as_dependencies_witness :
  ∃ u, build_universe demo_mapper 0 [svc_s; pod "p1" "ns"] empty_universe = inr u ∧
  ∃ n' pod', build_graph map_to_list (λ _, None) u !! 0 = Some n' ∧
             build_graph map_to_list (λ _, None) u !! 1 = Some pod' ∧
             RelationshipService ∈ default ∅ (Dependencies n' !! UID pod') ∧
             RelationshipService ∈ default ∅ (Dependents pod' !! UID n').
Proof.
  destruct (build_universe demo_mapper 0 [svc_s; pod "p1" "ns"] empty_universe) as [e|u] eqn:Hu;
    [vm_compute in Hu; discriminate|].
  exists u. split; [reflexivity|].
  pose proof Hu as Hu'. vm_compute in Hu'. injection Hu' as Hu'.
  destruct (heap u !! 0) as [n|] eqn:Hn; [|rewrite <- Hu' in Hn; vm_compute in Hn; discriminate].
  destruct (heap u !! 1) as [pd|] eqn:Hpd; [|rewrite <- Hu' in Hpd; vm_compute in Hpd; discriminate].
  destruct (d_Service (Unstructured n)) as [svc|] eqn:Hs;
    [|concretize Hu' Hn; vm_compute in Hs; discriminate].
  concretize Hu' Hn. concretize Hu' Hpd. concretize Hu' Hs.
  eapply (service_selects_pods_as_dependencies map_to_list (λ _, None) demo_mapper
            [svc_s; pod "p1" "ns"] u "s" 0 _ _ "p1" 1 _ (λ _, reflexivity _) Hu);
    try eassumption; try (rewrite <- Hu'; vm_compute; reflexivity); vm_compute; reflexivity.
Defined.


(* ------------------------------------------------------------------ *)
(** ** Further properties of the code *)

Lemma empties_app a b : empties (a ++ b) = empties a + empties b.
Proof. unfold empties. rewrite filter_app, length_app. reflexivity. Qed.
Lemma reals_app a b : reals (a ++ b) = reals a + reals b.
Proof. unfold reals. rewrite filter_app, length_app. reflexivity. Qed.
Lemma empties_cons x q : empties (x :: q) = (if decide (x = "") then 1 else 0) + empties q.
Proof. unfold empties. rewrite filter_cons. destruct (decide (x = "")); reflexivity. Qed.
Lemma reals_cons x q : reals (x :: q) = (if decide (x = "") then 0 else 1) + reals q.
Proof. unfold reals. rewrite filter_cons. destruct (decide (x = "")), (decide (x ≠ "")); simpl; tauto || reflexivity. Qed.

Lemma empties_length q : empties q ≤ length q.
Proof. unfold empties. apply length_filter. Qed.

(** Once the queue holds two sentinels, it never gets shorter than two
    entries: the loop does not exit. *)
Lemma bfs_loop_two_sentinels byUID b fuel : ∀ st,
  2 ≤ empties (uidQueue st) → bfs_loop byUID b fuel st = None.
Proof.
  induction fuel as [|fuel IH]; intros st H; [reflexivity|]. simpl.
  destruct (uidQueue st) as [|uid [|y rest]] eqn:Hq.
  - unfold empties in H. simpl in H. lia.
  - rewrite empties_cons in H. unfold empties in H. simpl in H. destruct (decide _); simpl in H; lia.
  - destruct (String.eqb_spec uid "") as [->|Hne].
    + apply IH. simpl. rewrite !empties_cons, empties_app in *. unfold empties at 2. simpl.
      repeat case_decide; simpl in *; congruence || lia.
    + rewrite empties_cons, decide_False in H by exact Hne.
      destruct (bool_decide (uid ∈ uidSet st)); [apply IH; simpl; lia|].
      destruct (nodeMap st !! uid) as [[p|]|]; [|apply IH; simpl; rewrite ?Hq, empties_cons, decide_False by exact Hne; lia..].
      destruct (bheap st !! p) as [node|];
        [|apply IH; simpl; rewrite ?Hq, empties_cons, decide_False by exact Hne; lia].
      apply IH. simpl. rewrite app_comm_cons, empties_app. lia.
Qed.

Lemma bfs_init_queue byUID uids h :
  uidQueue (bfs_init byUID uids h) = (filter (fun x => is_Some (byUID !! x)) uids ++ [""])%list.
Proof.
  unfold bfs_init. simpl. f_equal.
  assert (Hgen : ∀ (nm : gmap string (option nat)) (q : list string), snd (fold_left (fun '(nm, q) uid =>
              match byUID !! uid with
              | Some p => (<[uid := Some p]> nm, app q [uid])
              | None => (nm, q)
              end) uids (nm, q)) = app q (filter (fun x => is_Some (byUID !! x)) uids)).
  { induction uids as [|x l IH]; intros nm q; simpl; [rewrite app_nil_r; reflexivity|].
    rewrite filter_cons. destruct (byUID !! x) eqn:Hx.
    - rewrite IH, decide_True by (eexists; reflexivity). rewrite <- app_assoc. reflexivity.
    - rewrite IH, decide_False by (intros [? ?]; discriminate). reflexivity. }
  apply (Hgen ∅ []).
Qed.

Lemma bfs_init_nodeMap byUID uids h k v :
  nodeMap (bfs_init byUID uids h) !! k = Some v → v = byUID !! k.
Proof.
  unfold bfs_init. simpl. revert k v.
  apply (fold_pres (fun st : gmap string (option nat) * list string =>
           ∀ k v, fst st !! k = Some v → v = byUID !! k)).
  - intros [nm q] uid Hnm k v. simpl. destruct (byUID !! uid) as [p|] eqn:Hu; simpl; [|apply Hnm].
    rewrite lookup_insert_Some. intros [[<- <-]|[_ H]]; [symmetry; exact Hu|apply Hnm, H].
  - intros k v. simpl. rewrite lookup_empty. discriminate.
Qed.

Lemma bfs_init_nodeMap_root byUID uids h k p :
  k ∈ uids → byUID !! k = Some p → nodeMap (bfs_init byUID uids h) !! k = Some (Some p).
Proof.
  intros Hk Hp. unfold bfs_init. simpl.
  assert (Hgen : ∀ (nm : gmap string (option nat)) (q : list string),
            (k ∈ uids ∨ nm !! k = Some (Some p)) →
            fst (fold_left (fun '(nm, q) uid =>
              match byUID !! uid with
              | Some p => (<[uid := Some p]> nm, app q [uid])
              | None => (nm, q)
              end) uids (nm, q)) !! k = Some (Some p)).
  { clear Hk. induction uids as [|x l IH]; intros nm q H; simpl.
    - destruct H as [H|H]; [apply elem_of_nil in H; contradiction|exact H].
    - destruct (byUID !! x) as [p'|] eqn:Hx; apply IH; rewrite elem_of_cons in H.
      + destruct (decide (x = k)) as [<-|Hne]; [right; rewrite lookup_insert, decide_True by reflexivity; congruence|].
        destruct H as [[->|H]|H]; [congruence|left; exact H|right; rewrite lookup_insert_ne; auto].
      + destruct H as [[->|H]|H]; [congruence|left; exact H|right; exact H]. }
  apply Hgen. left. exact Hk.
Qed.

Lemma elem_empties q : "" ∈ q → 1 ≤ empties q.
Proof.
  intros H. unfold empties. assert (H' : "" ∈ filter (fun x => x = "") q) by (apply list_elem_of_filter; auto).
  destruct (filter (fun x => x = "") q); [apply elem_of_nil in H'; contradiction|simpl; lia].
Qed.

Section Termination.

Variables (byUID : gmap string nat) (b : bool) (h : gmap nat Node) (US : gset string).

(** Every dependency key of a node of the heap is in [US], which does not
    hold the sentinel. *)
Hypothesis HS : ∀ p n k, h !! p = Some n → k ∈ dom (GetDeps b n) → k ∈ US.
Hypothesis HSe : "" ∉ US.

Lemma GetDeps_edges a a' : node_edges a = node_edges a' → GetDeps b a = GetDeps b a'.
Proof. unfold node_edges, GetDeps. intros E. injection E. intros -> -> _. reflexivity. Qed.

Lemma real_step st x rest :
  term_inv h US st → uidQueue st = x :: rest → rest ≠ [] → x ≠ "" →
  ∃ st1, (∀ f, bfs_loop byUID b (S f) st = bfs_loop byUID b f st1) ∧ term_inv h US st1 ∧
    (size (US ∖ uidSet st1) < size (US ∖ uidSet st) ∨
     (uidSet st1 = uidSet st ∧ reals (uidQueue st1) < reals (uidQueue st))).
Proof.
  intros (He & Hq & H1) Hx Hr Hne.
  assert (HxS : x ∈ US) by (apply Hq; [rewrite Hx; left|exact Hne]).
  assert (Hlt : ∀ V, x ∉ V → size (US ∖ ({[x]} ∪ V)) < size (US ∖ V)).
  { intros V HV. apply subset_size. set_solver. }
  assert (Hunf : ∀ f, bfs_loop byUID b (S f) st =
     if bool_decide (x ∈ uidSet st) then
            bfs_loop byUID b f
              {| nodeMap := nodeMap st; uidQueue := rest; uidSet := uidSet st;
                 depth := depth st; bheap := bheap st |}
          else
            let visited := {[x]} ∪ uidSet st in
            match nodeMap st !! x with
            | Some (Some p) =>
                match bheap st !! p with
                | Some node =>
                    let node :=
                      if Nat.eqb (Depth node) 0 || Nat.ltb (depth st) (Depth node)
                      then SetDepth (depth st) node else node in
                    let depUIDs := map fst (map_to_list (GetDeps b node)) in
                    bfs_loop byUID b f
                      {| nodeMap := fold_left (fun nm d => <[d := byUID !! d]> nm) depUIDs (nodeMap st);
                         uidQueue := app rest depUIDs; uidSet := visited;
                         depth := depth st; bheap := <[p := node]> (bheap st) |}
                | None =>
                    bfs_loop byUID b f
                      {| nodeMap := nodeMap st; uidQueue := uidQueue st; uidSet := visited;
                         depth := depth st; bheap := bheap st |}
                end
            | _ =>
                bfs_loop byUID b f
                  {| nodeMap := nodeMap st; uidQueue := uidQueue st; uidSet := visited;
                     depth := depth st; bheap := bheap st |}
            end).
  { intros f. simpl. rewrite Hx. destruct rest as [|y rest]; [congruence|].
    destruct (String.eqb_spec x "") as [E|_]; [congruence|]. reflexivity. }
  assert (Hsame : ∀ V, term_inv h US {| nodeMap := nodeMap st; uidQueue := uidQueue st; uidSet := V;
                                   depth := depth st; bheap := bheap st |})
    by (intros V; split; [|split]; assumption).
  case_bool_decide as Hin.
  - eexists. split; [exact Hunf|]. split; [split; [|split]|].
    + exact He.
    + intros y Hy. apply Hq. rewrite Hx. right. exact Hy.
    + simpl. rewrite Hx, empties_cons, decide_False in H1 by exact Hne. exact H1.
    + right. split; [reflexivity|]. simpl. rewrite Hx, reals_cons, decide_False by exact Hne. lia.
  - destruct (nodeMap st !! x) as [[p|]|] eqn:Hnm;
      [|eexists; split; [exact Hunf|]; split; [apply Hsame|left; apply Hlt, Hin]..].
    destruct (bheap st !! p) as [node|] eqn:Hp;
      [|eexists; split; [exact Hunf|]; split; [apply Hsame|left; apply Hlt, Hin]].
    eexists. split; [exact Hunf|]. split; [|left; apply Hlt, Hin].
    assert (Ee : node_edges (if Nat.eqb (Depth node) 0 || Nat.ltb (depth st) (Depth node)
                             then SetDepth (depth st) node else node) = node_edges node)
      by (destruct (Nat.eqb (Depth node) 0 || Nat.ltb (depth st) (Depth node)); reflexivity).
    set (node' := if Nat.eqb (Depth node) 0 || Nat.ltb (depth st) (Depth node)
                  then SetDepth (depth st) node else node) in *.
    pose proof (He p) as Hep. rewrite Hp in Hep.
    destruct (h !! p) as [n0|] eqn:Hn0; [|discriminate]. simpl in Hep. apply (inj Some) in Hep.
    split; [|split].
    + intros p'. simpl. rewrite lookup_insert. destruct (decide (p = p')) as [<-|]; [|apply He].
      rewrite Hn0. simpl. rewrite Ee, Hep. reflexivity.
    + intros y Hy Hy'. simpl in Hy. apply elem_of_app in Hy as [Hy|Hy].
      * apply Hq; [rewrite Hx; right; exact Hy|exact Hy'].
      * apply list_elem_of_fmap in Hy as ([k v] & -> & Hkv).
        apply elem_of_map_to_list in Hkv. apply (HS p n0); [exact Hn0|].
        rewrite <- (GetDeps_edges node' n0); [apply elem_of_dom; eexists; exact Hkv|].
        rewrite Ee, Hep. reflexivity.
    + simpl. rewrite empties_app. rewrite Hx, empties_cons, decide_False in H1 by exact Hne.
      assert (Hz : empties (map fst (map_to_list (GetDeps b node'))) = 0).
      { unfold empties. destruct (filter _ _) as [|y l] eqn:Ef; [reflexivity|exfalso].
        assert (Hy : y ∈ filter (fun x => x = "") (map fst (map_to_list (GetDeps b node'))))
          by (rewrite Ef; left). apply list_elem_of_filter in Hy as [-> Hy].
        apply list_elem_of_fmap in Hy as ([k v] & Hk & Hkv). simpl in Hk. subst k.
        apply elem_of_map_to_list in Hkv. apply HSe, (HS p n0); [exact Hn0|].
        rewrite <- (GetDeps_edges node' n0); [apply elem_of_dom; eexists; exact Hkv|].
        rewrite Ee, Hep. reflexivity. }
      lia.
Qed.

Lemma sentinel_step st y rest :
  term_inv h US st → uidQueue st = "" :: y :: rest →
  ∃ st1, (∀ f, bfs_loop byUID b (S f) st = bfs_loop byUID b f st1) ∧ term_inv h US st1 ∧
    uidSet st1 = uidSet st ∧ uidQueue st1 = y :: app rest [""] ∧ y ≠ "" ∧
    reals (uidQueue st1) = reals (uidQueue st).
Proof.
  intros (He & Hq & H1) Hx.
  assert (Hy : y ≠ "").
  { intros ->. rewrite Hx, !empties_cons, !decide_True in H1 by reflexivity. lia. }
  eexists. split; [intros f; simpl; rewrite Hx; reflexivity|].
  split; [split; [|split]|]; simpl.
  - exact He.
  - intros z Hz Hz'. apply Hq; [|exact Hz']. rewrite Hx.
    rewrite app_comm_cons in Hz. apply elem_of_app in Hz as [Hz|Hz]; [right; exact Hz|].
    apply list_elem_of_singleton in Hz. contradiction.
  - rewrite Hx in H1. rewrite app_comm_cons, empties_app.
    rewrite empties_cons, decide_True in H1 by reflexivity. unfold empties at 2. simpl. lia.
  - repeat split; try reflexivity; try exact Hy.
    rewrite Hx, app_comm_cons, reals_app, (reals_cons ""), decide_True by reflexivity.
    rewrite (reals_cons "" (y :: rest)), decide_True by reflexivity. change (reals []) with 0. lia.
Qed.

Lemma bfs_terminates : ∀ a r st, term_inv h US st → size (US ∖ uidSet st) = a →
  reals (uidQueue st) = r → ∃ f st', bfs_loop byUID b f st = Some st'.
Proof.
  intros a. induction a as [a IHa] using (well_founded_induction lt_wf).
  intros r. induction r as [r IHr] using (well_founded_induction lt_wf).
  assert (Hreal : ∀ st x rest, term_inv h US st → uidQueue st = x :: rest → rest ≠ [] → x ≠ "" →
            size (US ∖ uidSet st) = a → reals (uidQueue st) = r →
            ∃ f st', bfs_loop byUID b f st = Some st').
  { intros st x rest Hi Hq Hr Hx Ha Hre.
    destruct (real_step st x rest Hi Hq Hr Hx) as (st1 & Hs & Hi1 & [Hlt|[Heq Hlt]]).
    - destruct (IHa _ (eq_ind _ (fun a => _ < a) Hlt _ Ha) _ st1 Hi1 eq_refl eq_refl) as (f & st' & Hf).
      exists (S f), st'. rewrite Hs. exact Hf.
    - destruct (IHr _ (eq_ind _ (fun r => _ < r) Hlt _ Hre) st1 Hi1 (eq_trans (f_equal _ (f_equal _ Heq)) Ha) eq_refl)
        as (f & st' & Hf).
      exists (S f), st'. rewrite Hs. exact Hf. }
  intros st Hi Ha Hre.
  destruct (uidQueue st) as [|x [|y rest]] eqn:Hq.
  - exists 1, st. simpl. rewrite Hq. reflexivity.
  - exists 1, st. simpl. rewrite Hq. reflexivity.
  - destruct (decide (x = "")) as [->|Hx].
    + destruct (sentinel_step st y rest Hi Hq) as (st1 & Hs & Hi1 & Hset & Hq1 & Hy & Hr1).
      destruct (Hreal st1 y (app rest [""]) Hi1 Hq1) as (f & st' & Hf).
      * destruct rest; discriminate.
      * exact Hy.
      * rewrite Hset. exact Ha.
      * rewrite Hr1, Hq. exact Hre.
      * exists (S f), st'. rewrite Hs. exact Hf.
    + eapply Hreal; [exact Hi|exact Hq|discriminate|exact Hx|exact Ha|rewrite Hq; exact Hre].
Qed.

End Termination.


Lemma link_uid_of s d r h q m : h !! q = Some m → ∃ m', link s d r h !! q = Some m' ∧ UID m' = UID m.
Proof.
  intros Hq. pose proof (link_static s d r h q) as E. rewrite Hq in E.
  destruct (link s d r h !! q) as [m'|]; [|discriminate]. simpl in E. apply (inj Some) in E.
  exists m'. split; [reflexivity|]. apply static_UID, E.
Qed.

Lemma link_keys_ok s d r h : is_Some (h !! s) → is_Some (h !! d) → keys_ok h → keys_ok (link s d r h).
Proof.
  intros [a Ha] [c Hc] Hk p n k Hp Hkey.
  assert (Hnew : ∀ q m, h !! q = Some m → UID m = k → ∃ q m, link s d r h !! q = Some m ∧ UID m = k).
  { intros q m Hq <-. destruct (link_uid_of s d r h q m Hq) as (m' & ? & ?). eauto. }
  rewrite lookup_link in Hp. destruct (h !! p) as [n0|] eqn:Hn0; [|discriminate].
  simpl in Hp. injection Hp as <-.
  assert (Hold : k ∈ dom (Dependencies n0) ∪ dom (Dependents n0) → ∃ q m, link s d r h !! q = Some m ∧ UID m = k)
    by (intros H; destruct (Hk p n0 k Hn0 H) as (q & m & Hq & Hu); eapply Hnew; eassumption).
  assert (Hud : uid_of h d = UID c) by (unfold uid_of; rewrite Hc; reflexivity).
  assert (Hus : uid_of h s = UID a) by (unfold uid_of; rewrite Ha; reflexivity).
  destruct (decide (s = p)), (decide (d = p)); simpl in Hkey;
    unfold add_rel in Hkey; rewrite ?dom_insert_L in Hkey;
    rewrite ?Hud, ?Hus in Hkey;
    rewrite !elem_of_union, ?elem_of_singleton in Hkey; destruct_or! Hkey; subst;
    first [ eapply Hnew; [exact Hc|reflexivity] | eapply Hnew; [exact Ha|reflexivity]
          | apply Hold; set_solver ].
Qed.

Lemma rtc_keys_ok h h' : rtc lstep h h' → keys_ok h → keys_ok h'.
Proof.
  induction 1 as [|x y z Hxy _ IH]; [auto|]. intros Hk. apply IH.
  destruct Hxy as (s & d & r & Hs & Hd & ->). apply link_keys_ok; assumption.
Qed.

Lemma univ_keys_ok objects u : univ_ok objects u → keys_ok (heap u).
Proof.
  intros [_ Hu] p n k Hp Hk. destruct (Hu p n Hp) as (mp & o & _ & ->).
  simpl in Hk. rewrite dom_empty_L in Hk. set_solver.
Qed.

Lemma graph_uid_nonempty iter extract_other objects u q m :
  univ_ok objects u → (∀ o, o ∈ objects → GetUID o ≠ "") →
  build_graph iter extract_other u !! q = Some m → UID m ≠ "".
Proof.
  intros Hu Ho Hq. pose proof (build_graph_rtc iter extract_other u (proj1 Hu)) as Hr.
  destruct (rtc_lookup_back _ _ _ _ Hr Hq) as (m0 & Hm0 & Es).
  rewrite (static_UID _ _ Es). destruct (proj2 Hu q m0 Hm0) as (mp & o & Hoq & ->).
  apply Ho. eapply list_elem_of_lookup_2. exact Hoq.
Qed.

(** Termination of the traversal: when no input object has an empty UID
    and no root is the empty string, the traversal loop of
    [ResolveDependencies] and [ResolveDependents] exits, whatever the
    enumeration order and the other extractors: some bound on the number
    of iterations gives a result. *)
Theorem resolveDeps_terminates iter extract_other m objects uids b :
  (∀ o, o ∈ objects → GetUID o ≠ "") → "" ∉ uids →
  ∃ fuel r, resolveDeps iter extract_other fuel m objects uids b = Some r.
Proof.
  intros Ho Hr. unfold resolveDeps.
  destruct (Nat.eqb (length uids) 0); [exists 0; eauto|].
  destruct (build_universe m 0 objects empty_universe) as [e|u] eqn:Hb; [exists 0; eauto|].
  pose proof (build_universe_ok0 _ _ _ Hb) as Hu.
  set (h := build_graph iter extract_other u).
  set (US := list_to_set uids ∪ list_to_set (map (fun pn : nat * Node => UID pn.2) (map_to_list h))
             : gset string).
  assert (Hk : keys_ok h) by (apply (rtc_keys_ok (heap u)); [apply build_graph_rtc, Hu|eapply univ_keys_ok, Hu]).
  assert (HS : ∀ p n k, h !! p = Some n → k ∈ dom (GetDeps b n) → k ∈ US).
  { intros p n k Hp Hd. destruct (Hk p n k Hp) as (q & m' & Hq & <-).
    - destruct b; simpl in Hd; set_solver.
    - apply elem_of_union_r, elem_of_list_to_set, list_elem_of_fmap.
      exists (q, m'). split; [reflexivity|]. apply elem_of_map_to_list, Hq. }
  assert (HSe : "" ∉ US).
  { intros Hin. apply elem_of_union in Hin as [Hin|Hin].
    - apply Hr. apply elem_of_list_to_set in Hin. exact Hin.
    - apply elem_of_list_to_set, list_elem_of_fmap in Hin as ([q m'] & He & Hq).
      apply elem_of_map_to_list in Hq. simpl in He.
      exact (graph_uid_nonempty iter extract_other objects u q m' Hu Ho Hq (eq_sym He)). }
  assert (Hi : term_inv h US (bfs_init (globalMapByUID u) uids h)).
  { split; [|split].
    - intros p. reflexivity.
    - intros x Hx Hx'. rewrite bfs_init_queue in Hx. apply elem_of_app in Hx as [Hx|Hx].
      + apply list_elem_of_filter in Hx as [_ Hx]. apply elem_of_union_l, elem_of_list_to_set, Hx.
      + apply list_elem_of_singleton in Hx. contradiction.
    - rewrite bfs_init_queue, empties_app.
      assert (Hz : empties (filter (fun x => is_Some (globalMapByUID u !! x)) uids) = 0).
      { unfold empties. destruct (filter _ _) as [|y l] eqn:Ef; [reflexivity|exfalso].
        assert (Hy : y ∈ filter (fun x => x = "") (filter (fun x => is_Some (globalMapByUID u !! x)) uids))
          by (rewrite Ef; left).
        apply list_elem_of_filter in Hy as [-> Hy]. apply list_elem_of_filter in Hy as [_ Hy].
        contradiction. }
      rewrite Hz. reflexivity. }
  destruct (bfs_terminates (globalMapByUID u) b h US HS HSe _ _ _ Hi eq_refl eq_refl)
    as (f & st' & Hf).
  exists f. rewrite Hf. eauto.
Qed.

(** Non-termination: when the root list contains the empty string and
    some object is stored in the UID index under the empty string (an
    object without [metadata.uid], or a [Node] with an empty name), the
    root is queued next to the layer sentinel [""]; the queue then always
    holds two sentinels and never gets shorter than two entries, so the
    traversal loop never exits, for every bound on its iterations. *)
Theorem resolveDeps_empty_uid_root_diverges iter extract_other fuel m objects uids b u :
  build_universe m 0 objects empty_universe = inr u → is_Some (globalMapByUID u !! "") →
  "" ∈ uids → resolveDeps iter extract_other fuel m objects uids b = None.
Proof.
  intros Hb He Hin. unfold resolveDeps.
  destruct uids as [|x l]; [apply elem_of_nil in Hin; contradiction|]. simpl. rewrite Hb.
  rewrite bfs_loop_two_sentinels; [reflexivity|].
  rewrite bfs_init_queue, empties_app.
  assert (H1 : 1 ≤ empties (filter (fun x => is_Some (globalMapByUID u !! x)) (x :: l)))
    by (apply elem_empties, list_elem_of_filter; auto).
  unfold empties at 2. simpl. lia.
Qed.


Lemma fold_nm_ok byUID deps nm :
  nm_ok byUID nm →
  nm_ok byUID (fold_left (fun nm d => <[d := byUID !! d]> nm) deps nm) ∧
  ∀ k, is_Some (nm !! k) → is_Some (fold_left (fun nm d => <[d := byUID !! d]> nm) deps nm !! k).
Proof.
  revert nm. induction deps as [|d deps IH]; intros nm Hnm; simpl; [auto|].
  destruct (IH (<[d := byUID !! d]> nm)) as [H1 H2].
  - intros k v. rewrite lookup_insert_Some. intros [[<- <-]|[_ H]]; [reflexivity|apply Hnm, H].
  - split; [exact H1|]. intros k Hk. apply H2. rewrite lookup_insert_is_Some'. auto.
Qed.

Lemma bfs_loop_nodeMap byUID b fuel : ∀ st st',
  bfs_loop byUID b fuel st = Some st' → nm_ok byUID (nodeMap st) →
  nm_ok byUID (nodeMap st') ∧ (∀ k, is_Some (nodeMap st !! k) → is_Some (nodeMap st' !! k)) ∧
  (∀ p, Unstructured <$> bheap st' !! p = Unstructured <$> bheap st !! p).
Proof.
  induction fuel as [|fuel IH]; intros st st' H Hnm; simpl in H; [discriminate|].
  destruct (uidQueue st) as [|uid [|x rest]].
  - injection H as <-. auto.
  - injection H as <-. auto.
  - destruct (String.eqb uid ""); [apply (IH _ _ H Hnm)|].
    destruct (bool_decide (uid ∈ uidSet st)); [apply (IH _ _ H Hnm)|].
    destruct (nodeMap st !! uid) as [[q|]|]; [|apply (IH _ _ H Hnm)..].
    destruct (bheap st !! q) as [node|] eqn:Hq; [|apply (IH _ _ H Hnm)].
    destruct (fold_nm_ok byUID (map fst (map_to_list (GetDeps b
                (if Nat.eqb (Depth node) 0 || Nat.ltb (depth st) (Depth node)
                 then SetDepth (depth st) node else node)))) (nodeMap st) Hnm) as [F1 F2].
    destruct (IH _ _ H F1) as (G1 & G2 & G3). simpl in G2, G3.
    split; [exact G1|split; [intros k Hk; apply G2, F2, Hk|]].
    intros p. rewrite G3, lookup_insert. destruct (decide (q = p)) as [<-|]; [|reflexivity].
    rewrite Hq. simpl. destruct (Nat.eqb (Depth node) 0 || Nat.ltb (depth st) (Depth node)); reflexivity.
Qed.

Lemma static_Unstructured (o1 o2 : option Node) :
  node_static <$> o1 = node_static <$> o2 → Unstructured <$> o1 = Unstructured <$> o2.
Proof.
  destruct o1 as [a|], o2 as [c|]; simpl; try discriminate; [|reflexivity].
  unfold node_static. intros E. injection E. intros. congruence.
Qed.

(** The entries of the returned NodeMap are those of the UID index: under
    every key [k] the map holds the object the index stores under [k] (a
    nil entry exactly when the index has none), and every root the index
    holds is a non-nil entry. *)
Theorem resolveDeps_entries_follow_index iter extract_other fuel m objects uids b u nm e :
  build_universe m 0 objects empty_universe = inr u →
  resolveDeps iter extract_other fuel m objects uids b = Some (Some nm, e) →
  (∀ k on, nm !! k = Some on →
     Unstructured <$> on = (globalMapByUID u !! k ≫= fun p => Unstructured <$> heap u !! p)) ∧
  (∀ r, r ∈ uids → is_Some (globalMapByUID u !! r) → ∃ n, nm !! r = Some (Some n)).
Proof.
  intros Hb Hr. pose proof (build_universe_ok0 _ _ _ Hb) as Hu.
  unfold resolveDeps in Hr. destruct (Nat.eqb_spec (length uids) 0) as [Hl|Hl].
  { injection Hr as <- _. split; [intros k on Hk; rewrite lookup_empty in Hk; discriminate|].
    intros r Hin. destruct uids; [apply elem_of_nil in Hin; contradiction|discriminate]. }
  rewrite Hb in Hr.
  destruct (bfs_loop _ _ _ _) as [st'|] eqn:Hf; [|discriminate]. injection Hr as <- _.
  set (h := build_graph iter extract_other u) in *.
  destruct (bfs_loop_nodeMap _ _ _ _ _ Hf) as (N1 & N2 & N3); [intros k v; apply bfs_init_nodeMap|].
  simpl in N3.
  assert (Hh : ∀ p, Unstructured <$> bheap st' !! p = Unstructured <$> heap u !! p).
  { intros p. rewrite N3. apply static_Unstructured, rtc_static, build_graph_rtc, Hu. }
  assert (Part1 : ∀ k on, deref (bheap st') (nodeMap st') !! k = Some on →
     Unstructured <$> on = (globalMapByUID u !! k ≫= fun p => Unstructured <$> heap u !! p)).
  { intros k on. unfold deref. rewrite lookup_fmap.
    destruct (nodeMap st' !! k) as [v|] eqn:Hk; [|discriminate]. simpl. intros E. injection E as <-.
    rewrite (N1 k v Hk). destruct (globalMapByUID u !! k) as [p|]; simpl; [|reflexivity].
    rewrite <- Hh. destruct (bheap st' !! p); reflexivity. }
  split; [exact Part1|].
  intros r Hin [p Hp].
  destruct (N2 r) as [v Hv]; [eexists; apply bfs_init_nodeMap_root; eassumption|].
  destruct (deref (bheap st') (nodeMap st') !! r) as [on|] eqn:Hd;
    [|unfold deref in Hd; rewrite lookup_fmap, Hv in Hd; discriminate].
  pose proof (Part1 r on Hd) as E. rewrite Hp in E. simpl in E.
  destruct (proj1 (proj1 Hu) r p Hp) as [n0 Hn0]. rewrite Hn0 in E.
  destruct on as [n|]; [exists n; reflexivity|discriminate].
Qed.

(** When no root is in the UID index, [ResolveDependencies] and
    [ResolveDependents] return an empty NodeMap and no error. *)
Theorem resolveDeps_no_root_found iter extract_other fuel m objects uids b u :
  build_universe m 0 objects empty_universe = inr u →
  (∀ r, r ∈ uids → globalMapByUID u !! r = None) →
  resolveDeps iter extract_other (S fuel) m objects uids b = Some (Some ∅, None).
Proof.
  intros Hb Hn. unfold resolveDeps.
  destruct (Nat.eqb (length uids) 0); [reflexivity|]. rewrite Hb.
  assert (E : ∀ acc : gmap string (option nat) * list string, fold_left (fun '(nm, q) uid =>
              match globalMapByUID u !! uid with
              | Some p => (<[uid := Some p]> nm, app q [uid])
              | None => (nm, q)
              end) uids acc = acc).
  { clear Hb. induction uids as [|x l IH]; intros [nm q]; simpl; [reflexivity|].
    rewrite (Hn x) by (left). apply IH. intros r Hr. apply Hn. right. exact Hr. }
  unfold bfs_init. rewrite E. reflexivity.
Qed.

Lemma link_is_Some s d r h x : is_Some (h !! x) → is_Some (link s d r h !! x).
Proof. apply static_Some, link_static. Qed.

Lemma owner_step_rtc u p h ref :
  upd_Q u p h →
  rtc lstep h (match globalMapByUID u !! or_uid ref with
               | Some q =>
                   let h := if bool_decide (or_controller ref = Some true)
                            then link p q RelationshipControllerRef h else h in
                   link p q RelationshipOwnerRef h
               | None => h
               end).
Proof.
  intros [Hp2 Hi2]. destruct (globalMapByUID u !! or_uid ref) as [q|] eqn:Hq; [|reflexivity].
  assert (Hq2 : is_Some (h !! q)) by (eapply (proj1 Hi2); eassumption).
  assert (Hc : rtc lstep h (if bool_decide (or_controller ref = Some true)
                             then link p q RelationshipControllerRef h else h)).
  { case_bool_decide; [apply rtc_once; exists p, q, RelationshipControllerRef; auto|reflexivity]. }
  etrans; [exact Hc|]. apply rtc_once. eexists p, q, _.
  split; [eapply rtc_is_Some; eassumption|]. split; [eapply rtc_is_Some; eassumption|reflexivity].
Qed.

Lemma owner_pass_edge iter u h kp p n ref q R :
  idx_ok u h → (kp, p) ∈ iter (globalMapByUID u) → h !! p = Some n → ref ∈ OwnerReferences n →
  globalMapByUID u !! or_uid ref = Some q →
  (R = RelationshipOwnerRef ∨ (R = RelationshipControllerRef ∧ or_controller ref = Some true)) →
  has_edge (owner_pass iter u h) p q R.
Proof.
  intros Hi Hkp Hp Href Hq HR. unfold owner_pass.
  apply fold_reach with (Q := fun h' => idx_ok u h' ∧ rtc lstep h h') (x := (kp, p)).
  - intros h1 h2 H [H1 H2]. split; [eapply rtc_idx_ok; eassumption|etrans; eassumption].
  - intros h1 h2 H. apply rtc_has_edge, H.
  - intros h1 [k' p'] _ [Hi1 _]. destruct (h1 !! p') as [node|] eqn:Hp'; [|reflexivity].
    apply fold_rtc with (Q := upd_Q u p'); [apply upd_Q_rtc| |split; [eexists; exact Hp'|exact Hi1]].
    intros h2 ref' _ HQ. apply owner_step_rtc, HQ.
  - exact Hkp.
  - intros h' [Hi' Hh']. destruct (rtc_lookup _ _ _ _ Hh' Hp) as (n' & Hn' & Es). rewrite Hn'.
    assert (Eo : OwnerReferences n' = OwnerReferences n).
    { unfold node_static in Es. injection Es. intros. assumption. }
    apply fold_reach with (Q := upd_Q u p) (x := ref).
    + apply upd_Q_rtc.
    + intros h1 h2 H. apply rtc_has_edge, H.
    + intros h2 ref' _ HQ. apply owner_step_rtc, HQ.
    + rewrite Eo. exact Href.
    + intros h2 [Hp2 Hi2]. rewrite Hq.
      assert (Hq2 : is_Some (h2 !! q)) by (eapply (proj1 Hi2); eassumption).
      destruct HR as [->|[-> Hc]].
      * destruct (bool_decide _); apply link_has_edge; try assumption; apply link_is_Some; assumption.
      * rewrite bool_decide_true by exact Hc.
        cbv zeta. apply (rtc_has_edge (link p q RelationshipControllerRef h2));
          [|apply link_has_edge; assumption].
        apply rtc_once. eexists p, q, _.
        split; [apply link_is_Some, Hp2|]. split; [apply link_is_Some, Hq2|reflexivity].
    + split; [eexists; exact Hn'|exact Hi'].
  - split; [exact Hi|reflexivity].
Qed.

(** Owner references become edges: after the owner pass (and whatever the
    extractors add), a node [n] reachable through the UID index that has
    an owner reference whose [uid] the index resolves to a node [q] has
    [q] as a dependency with relationship [OwnerReference] (and [n] is a
    dependent of [q]); when the reference has [controller: true] the same
    holds with [ControllerReference]. *)
Theorem owner_references_linked iter extract_other m objects u k p n ref q :
  (∀ mp, iter mp ≡ₚ map_to_list mp) →
  build_universe m 0 objects empty_universe = inr u →
  globalMapByUID u !! k = Some p → heap u !! p = Some n → ref ∈ OwnerReferences n →
  globalMapByUID u !! or_uid ref = Some q →
  has_edge (build_graph iter extract_other u) p q RelationshipOwnerRef ∧
  (or_controller ref = Some true →
   has_edge (build_graph iter extract_other u) p q RelationshipControllerRef).
Proof.
  intros Hperm Hb Hk Hp Href Hq. pose proof (build_universe_ok0 _ _ _ Hb) as [Hi _].
  assert (Hext : ∀ R, has_edge (owner_pass iter u (heap u)) p q R →
                      has_edge (build_graph iter extract_other u) p q R).
  { intros R He. unfold build_graph. eapply rtc_has_edge; [|exact He].
    apply extractor_pass_rtc. eapply rtc_idx_ok; [apply owner_pass_rtc|]; exact Hi. }
  split; [|intros Hc]; apply Hext; eapply owner_pass_edge; try eassumption;
    [apply iter_elem; eassumption|left; reflexivity|apply iter_elem; eassumption|right; auto].
Qed.



Lemma add_object_key_index_ok ix n u : key_index_ok ix u → key_index_ok (S ix) (add_object ix n u).
Proof.
  intros [Hb Hi]. split.
  - intros p Hp. unfold add_object in Hp. simpl in Hp.
    apply lookup_insert_is_Some in Hp as [<-|[_ Hp]]; [lia|]. specialize (Hb p Hp). lia.
  - intros k p. unfold add_object. cbn [globalMapByKey heap]. rewrite ins_lookup.
    unfold last_key. cbn [heap].
    destruct (String.eqb_spec (GetObjectReferenceKey n) k) as [Hc|Hc].
    + split.
      * intros E. injection E as <-. exists n. rewrite lookup_insert_eq. split; [reflexivity|].
        split; [exact Hc|]. intros p' n' Hp' _.
        apply lookup_insert_Some in Hp' as [[<- _]|[_ Hp']]; [lia|].
        assert (p' < ix) by (apply Hb; eauto). lia.
      * intros (n0 & Hp & _ & Hmax). f_equal.
        assert (ix ≤ p) by (apply (Hmax ix n); [apply lookup_insert_eq|exact Hc]).
        apply lookup_insert_Some in Hp as [[-> _]|[_ Hp]]; [reflexivity|].
        assert (p < ix) by (apply Hb; eauto). lia.
    + rewrite Hi. unfold last_key. split.
      * intros (n0 & Hp & Hc0 & Hmax). exists n0.
        assert (p < ix) by (apply Hb; eauto).
        rewrite lookup_insert_ne by lia. split; [exact Hp|]. split; [exact Hc0|].
        intros p' n' Hp' Hc'. apply lookup_insert_Some in Hp' as [[<- <-]|[_ Hp']];
          [congruence|eauto].
      * intros (n0 & Hp & Hc0 & Hmax). exists n0.
        apply lookup_insert_Some in Hp as [[<- <-]|[Hne Hp]]; [congruence|].
        split; [exact Hp|]. split; [exact Hc0|].
        intros p' n' Hp' Hc'. apply (Hmax p' n'); [|exact Hc'].
        rewrite lookup_insert_ne; [exact Hp'|]. intros <-.
        assert (ix < ix) by (apply Hb; eauto). lia.
Qed.

Lemma build_universe_key_index_ok m os : ∀ ix u u',
  key_index_ok ix u → build_universe m ix os u = inr u' → ∃ ix', key_index_ok ix' u'.
Proof.
  induction os as [|o os IH]; intros ix u u' Hu Hb; simpl in Hb.
  - injection Hb as <-. eauto.
  - destruct (m _ _ _) as [err|mp]; [discriminate|].
    eapply IH; [apply add_object_key_index_ok, Hu|exact Hb].
Qed.

(** The key index [globalMapByKey] maps a key [k] to the last object in
    input order whose [GetObjectReferenceKey] (group, kind, namespace and
    name) is [k]: earlier objects with the same key are shadowed, and a
    by-reference relationship only ever reaches the last one. *)
Theorem key_index_last m objects u k p :
  build_universe m 0 objects empty_universe = inr u →
  globalMapByKey u !! k = Some p ↔ last_key u k p.
Proof.
  intros Hb. destruct (build_universe_key_index_ok m objects 0 empty_universe u) as [ix [_ Hi]];
    [|exact Hb|apply Hi].
  split.
  - intros p0 [n0 Hp]. simpl in Hp. rewrite lookup_empty in Hp. discriminate.
  - intros k' p'. simpl. rewrite lookup_empty. unfold last_key. simpl. split.
    + discriminate.
    + intros (n & Hp & _). rewrite lookup_empty in Hp. discriminate.
Qed.



Lemma insert_sorted_perm x l : insert_sorted String.leb x l ≡ₚ x :: l.
Proof.
  induction l as [|y l IH]; simpl; [reflexivity|].
  destruct (String.leb x y); [reflexivity|]. rewrite IH. apply Permutation_swap.
Qed.

Lemma sort_strings_perm l : sort_strings l ≡ₚ l.
Proof.
  unfold sort_strings, sort_by. induction l as [|x l IH]; simpl; [reflexivity|].
  rewrite insert_sorted_perm, IH. reflexivity.
Qed.

Lemma leb_false a b : String.leb a b = false → String.le b a.
Proof.
  intros H. unfold String.le. destruct (String.leb_total a b) as [E|E]; [congruence|].
  rewrite E. exact I.
Qed.

Lemma insert_sorted_sorted x l : Sorted String.le l → Sorted String.le (insert_sorted String.leb x l).
Proof.
  induction 1 as [|y l Hs IH Hhd]; simpl.
  - repeat constructor.
  - destruct (String.leb x y) eqn:E.
    + constructor; [constructor; assumption|constructor; unfold String.le; rewrite E; exact I].
    + constructor; [exact IH|].
      destruct l as [|z l]; simpl; [constructor; apply leb_false, E|].
      destruct (String.leb x z); constructor; [apply leb_false, E|inversion Hhd; assumption].
Qed.

Lemma sort_strings_sorted l : Sorted String.le (sort_strings l).
Proof.
  unfold sort_strings, sort_by. induction l as [|x l IH]; simpl; [constructor|].
  apply insert_sorted_sorted, IH.
Qed.

Lemma strict_sorted l : StronglySorted String.le l → NoDup l →
  StronglySorted (fun a b => String.le a b ∧ a ≠ b) l.
Proof.
  induction 1 as [|x l Hs IH Hf]; intros Hnd; constructor.
  - apply IH. inversion Hnd; assumption.
  - apply Forall_forall. intros y Hy. split; [rewrite Forall_forall in Hf; auto|].
    intros <-. inversion Hnd as [|? ? Hx]. exact (Hx Hy).
Qed.

(** [RelationshipSet.List] returns the members of the set, each once, in
    strictly increasing byte-wise order; the result does not depend on the
    order in which the map is ranged over. *)
Theorem RelationshipSet_List_sorted enum s :
  (∀ s', enum s' ≡ₚ elements s') →
  RelationshipSet_List enum s = RelationshipSet_List elements s ∧
  StronglySorted (fun a b => String.le a b ∧ a ≠ b) (RelationshipSet_List enum s) ∧
  (∀ x, x ∈ RelationshipSet_List enum s ↔ x ∈ s).
Proof.
  intros Hperm. unfold RelationshipSet_List.
  assert (P : sort_strings (enum s) ≡ₚ elements s) by (rewrite sort_strings_perm; apply Hperm).
  split; [|split].
  - apply (Sorted_unique String.le); [apply sort_strings_sorted|apply sort_strings_sorted|].
    rewrite P, sort_strings_perm. reflexivity.
  - apply strict_sorted; [apply Sorted_StronglySorted; [apply _|apply sort_strings_sorted]|].
    rewrite P. apply NoDup_elements.
  - intros x. rewrite P. apply elem_of_elements.
Qed.


Lemma ltb_slt a b : String.ltb a b = true ↔ slt a b.
Proof.
  unfold String.ltb, slt, String.le, String.leb. split.
  - destruct (String.compare a b) eqn:E; try discriminate. intros _. split; [exact I|].
    intros ->. pose proof (String.compare_antisym b b) as A. rewrite E in A. discriminate.
  - intros [H Hne]. destruct (String.compare a b) eqn:E; [|reflexivity|contradiction].
    apply String.compare_eq_iff in E. contradiction.
Qed.

Lemma slt_trans a b c : slt a b → slt b c → slt a c.
Proof.
  intros [H1 N1] [H2 N2]. split; [etrans; eassumption|].
  intros <-. apply N1. apply (anti_symm String.le); assumption.
Qed.

Lemma slt_irrefl a : ¬ slt a a.
Proof. intros [_ N]. apply N. reflexivity. Qed.

Lemma lex_spec x y r :
  (if negb (String.eqb x y) then String.ltb x y else r) = true ↔ slt x y ∨ (x = y ∧ r = true).
Proof.
  destruct (String.eqb_spec x y) as [->|Hne]; simpl.
  - split; [auto|]. intros [H|[_ H]]; [destruct (slt_irrefl _ H)|exact H].
  - rewrite ltb_slt. split; [auto|]. intros [H|[E _]]; [exact H|contradiction].
Qed.

Lemma lex_trans x y z (P Q R : Prop) : (P → Q → R) →
  slt x y ∨ (x = y ∧ P) → slt y z ∨ (y = z ∧ Q) → slt x z ∨ (x = z ∧ R).
Proof.
  intros HR [H1|[<- H1]] [H2|[<- H2]]; [left; eapply slt_trans; eassumption|left; exact H1|left; exact H2|].
  right. auto.
Qed.

Lemma lex_total x y (P Q : Prop) :
  ¬ (slt x y ∨ (x = y ∧ P)) → ¬ (slt y x ∨ (y = x ∧ Q)) → x = y ∧ ¬ P ∧ ¬ Q.
Proof.
  intros H1 H2. destruct (decide (x = y)) as [<-|Hne]; [split; [reflexivity|split]; intros HP; eauto|].
  exfalso. destruct (total String.le x y) as [H|H].
  - apply H1. left. split; assumption.
  - apply H2. left. split; [assumption|congruence].
Qed.

Lemma NodeList_Less_spec a b :
  NodeList_Less a b = true ↔
  slt (Namespace a) (Namespace b) ∨ (Namespace a = Namespace b ∧
  (slt (Kind a) (Kind b) ∨ (Kind a = Kind b ∧
  (slt (Group a) (Group b) ∨ (Group a = Group b ∧ slt (Name a) (Name b)))))).
Proof.
  unfold NodeList_Less. rewrite lex_spec. apply or_iff_compat_l, and_iff_compat_l.
  rewrite lex_spec. apply or_iff_compat_l, and_iff_compat_l.
  rewrite lex_spec. apply or_iff_compat_l, and_iff_compat_l. apply ltb_slt.
Qed.

(** [NodeList.Less] is a strict weak order, as [sort.Sort] requires: it
    is irreflexive and transitive, and two nodes neither of which is less
    than the other agree on Namespace, Kind, Group and Name. *)
Theorem NodeList_Less_strict_order :
  (∀ a, NodeList_Less a a = false) ∧
  (∀ a b c, NodeList_Less a b = true → NodeList_Less b c = true → NodeList_Less a c = true) ∧
  (∀ a b, NodeList_Less a b = false → NodeList_Less b a = false →
     Namespace a = Namespace b ∧ Kind a = Kind b ∧ Group a = Group b ∧ Name a = Name b).
Proof.
  split; [|split].
  - intros a. apply not_true_is_false. rewrite NodeList_Less_spec.
    intros [H|[_ [H|[_ [H|[_ H]]]]]]; exact (slt_irrefl _ H).
  - intros a b c. rewrite !NodeList_Less_spec. apply lex_trans. apply lex_trans. apply lex_trans.
    apply slt_trans.
  - intros a b H1 H2. apply not_true_iff_false in H1, H2. rewrite NodeList_Less_spec in H1, H2.
    destruct (lex_total _ _ _ _ H1 H2) as (E1 & H1' & H2').
    destruct (lex_total _ _ _ _ H1' H2') as (E2 & H1'' & H2'').
    destruct (lex_total _ _ _ _ H1'' H2'') as (E3 & H1''' & H2''').
    repeat split; try assumption.
    destruct (decide (Name a = Name b)) as [E|Hne]; [exact E|exfalso].
    destruct (total String.le (Name a) (Name b)) as [H|H];
      [apply H1'''; split; assumption|apply H2'''; split; [assumption|congruence]].
Qed.

Ltac ref_loops_rtc p :=
  repeat first
    [ reflexivity
    | apply (loop_by_key_rtc _ p); [apply write_out_ok || apply write_in_ok|assumption|]
    | apply (loop_by_uid_rtc _ p); [apply write_out_ok || apply write_in_ok|assumption|]
    | apply (loop_by_label_selector_rtc _ _ p); [apply write_out_ok || apply write_in_ok|assumption|]
    | apply (loop_by_selector_rtc _ _ p); [apply write_out_ok || apply write_in_ok|assumption|] ].

Ltac ref_through p :=
  lazymatch goal with
  | HQ : upd_Q ?u p ?h |- has_edge (?L ?x) _ _ _ =>
      apply (has_edge_through u p h x); [exact HQ|ref_loops_rtc p|intros; ref_loops_rtc p|]
  end.

Lemma loop_by_key_out_edge u p bucket h k rset q R :
  upd_Q u p h → bucket !! k = Some rset → R ∈ rset → globalMapByKey u !! k = Some q →
  has_edge (loop_by_key u (fun q => link_all p q) bucket h) p q R.
Proof.
  intros HQ Hk HR Hq. unfold loop_by_key.
  apply fold_reach with (Q := upd_Q u p) (x := (k, rset)).
  - apply upd_Q_rtc.
  - intros h1 h2 H. apply rtc_has_edge, H.
  - intros h' [k' rset'] _ HQ'. destruct (globalMapByKey u !! k') as [q'|] eqn:Hk'; [|reflexivity].
    apply (write_out_ok u p); [assumption|]. destruct HQ' as [_ [_ Hi]]. eapply Hi; eassumption.
  - apply elem_of_map_to_list, Hk.
  - intros h' [Hp [_ Hi]]. rewrite Hq. apply link_all_edge; [assumption|assumption|]. eapply Hi; eassumption.
  - assumption.
Qed.

Lemma loop_by_key_in_edge u p bucket h k rset q R :
  upd_Q u p h → bucket !! k = Some rset → R ∈ rset → globalMapByKey u !! k = Some q →
  has_edge (loop_by_key u (fun q => link_all q p) bucket h) q p R.
Proof.
  intros HQ Hk HR Hq. unfold loop_by_key.
  apply fold_reach with (Q := upd_Q u p) (x := (k, rset)).
  - apply upd_Q_rtc.
  - intros h1 h2 H. apply rtc_has_edge, H.
  - intros h' [k' rset'] _ HQ'. destruct (globalMapByKey u !! k') as [q'|] eqn:Hk'; [|reflexivity].
    apply (write_in_ok u p); [assumption|]. destruct HQ' as [_ [_ Hi]]. eapply Hi; eassumption.
  - apply elem_of_map_to_list, Hk.
  - intros h' [Hp [_ Hi]]. rewrite Hq. apply link_all_edge; [assumption| |assumption]. eapply Hi; eassumption.
  - assumption.
Qed.

Lemma updateRelationships_ref_out_edge iter u p rmap h k q R :
  upd_Q u p h → R ∈ rels (DependenciesByRef rmap) k → globalMapByKey u !! k = Some q →
  has_edge (updateRelationships iter u p rmap h) p q R.
Proof.
  intros HQ HR Hq. unfold rels in HR.
  destruct (DependenciesByRef rmap !! k) as [rset|] eqn:Hk; [simpl in HR|simpl in HR; set_solver].
  unfold updateRelationships. cbv zeta.
  do 7 ref_through p.
  eapply loop_by_key_out_edge; eassumption.
Qed.

Lemma updateRelationships_ref_in_edge iter u p rmap h k q R :
  upd_Q u p h → R ∈ rels (DependentsByRef rmap) k → globalMapByKey u !! k = Some q →
  has_edge (updateRelationships iter u p rmap h) q p R.
Proof.
  intros HQ HR Hq. unfold rels in HR.
  destruct (DependentsByRef rmap !! k) as [rset|] eqn:Hk; [simpl in HR|simpl in HR; set_solver].
  unfold updateRelationships. cbv zeta.
  do 6 ref_through p.
  apply loop_by_key_in_edge with k rset; try assumption.
  eapply upd_Q_rtc; [|exact HQ]. ref_loops_rtc p.
Qed.

(** An extractor whose result depends only on the static fields of the
    node: a by-Ref dependency key found in the key index becomes an edge. *)
Lemma build_graph_ref_edges iter extract_other m objects u k p n rmap :
  (∀ mp, iter mp ≡ₚ map_to_list mp) → build_universe m 0 objects empty_universe = inr u →
  globalMapByUID u !! k = Some p → heap u !! p = Some n →
  (∀ n', node_static n' = node_static n → extract extract_other n' = Some rmap) →
  (∀ kk q R, R ∈ rels (DependenciesByRef rmap) kk → globalMapByKey u !! kk = Some q →
     has_edge (build_graph iter extract_other u) p q R) ∧
  (∀ kk q R, R ∈ rels (DependentsByRef rmap) kk → globalMapByKey u !! kk = Some q →
     has_edge (build_graph iter extract_other u) q p R).
Proof.
  intros Hperm Hu Hk Hn Hext. apply build_universe_ok0 in Hu as Hok.
  split; intros kk q R HR Hq;
    (apply (build_graph_edge iter extract_other u k p);
      [exact (proj1 Hok)|apply iter_elem; assumption|eexists; exact Hn|]);
    intros h' node Hh' Hnode;
    destruct (rtc_lookup_back _ _ _ _ Hh' Hnode) as (n0 & Hn0 & Es);
    rewrite Hn in Hn0; injection Hn0 as <-;
    (exists rmap; split; [apply Hext; exact Es|]);
    (assert (HQ : upd_Q u p h') by
      (split; [eexists; exact Hnode|]; eapply rtc_idx_ok; [exact Hh'|exact (proj1 Hok)])).
  - eapply updateRelationships_ref_out_edge; eassumption.
  - eapply updateRelationships_ref_in_edge; eassumption.
Qed.

Ltac by_dispatch := intros Hg Hk; unfold extract, extract_kube, is_gk; rewrite Hg, Hk; reflexivity.

Lemma extract_pod extract_other n :
  Group n = "" → Kind n = "Pod" → extract extract_other n = extract_other n.
Proof. by_dispatch. Qed.

Lemma extract_kube_pod n : Group n = "" → Kind n = "Pod" → extract_kube n = getPodRelationships n.
Proof. by_dispatch. Qed.

Lemma add_key_keeps K R k r m :
  R ∈ rels (DependenciesByRef m) K → R ∈ rels (DependenciesByRef (AddDependencyByKey k r m)) K.
Proof. intros H. simpl. apply elem_rels_add_rel. auto. Qed.

Lemma add_key_here K R m : R ∈ rels (DependenciesByRef (AddDependencyByKey K R m)) K.
Proof. simpl. apply elem_rels_add_rel. auto. Qed.

Lemma pod_volume_keeps K R ns m vs :
  R ∈ rels (DependenciesByRef m) K → R ∈ rels (DependenciesByRef (pod_volume ns m vs)) K.
Proof.
  intros H. unfold pod_volume.
  destruct (vs_configMap vs); [apply add_key_keeps, H|].
  destruct (vs_csi vs) as [csi|]; [destruct (csiv_nodePublishSecretRef csi); repeat apply add_key_keeps; exact H|].
  destruct (vs_persistentVolumeClaim vs); [apply add_key_keeps, H|].
  destruct (vs_projected vs) as [srcs|].
  - apply fold_pres; [|exact H]. intros x src Hx.
    destruct (vp_configMap src), (vp_secret src); try apply add_key_keeps; exact Hx.
  - destruct (vs_secret vs); [apply add_key_keeps|]; exact H.
Qed.

Lemma getPodRelationships_node n pod :
  d_Pod (Unstructured n) = Some pod →
  ∃ rmap, getPodRelationships n = Some rmap ∧
          RelationshipPodNode ∈ rels (DependenciesByRef rmap) (ref_key "" "Node" "" (pod_nodeName pod)).
Proof.
  intros Hd. unfold getPodRelationships. rewrite Hd. simpl. eexists. split; [reflexivity|].
  apply (fold_pres (λ m, RelationshipPodNode ∈ rels (DependenciesByRef m)
                           (ref_key "" "Node" "" (pod_nodeName pod))));
    [intros; apply pod_volume_keeps; assumption|].
  pose proof (add_key_here (ref_key "" "Node" "" (pod_nodeName pod)) RelationshipPodNode
    (fold_left (λ m ips, AddDependencyByKey (ref_key "" "Secret" (pod_namespace pod) ips)
                            RelationshipPodImagePullSecret m) (pod_imagePullSecrets pod)
       (fold_left (pod_container (pod_namespace pod))
          (app (pod_initContainers pod) (pod_containers pod)) newRelationshipMap))) as H0.
  revert H0. generalize (AddDependencyByKey (ref_key "" "Node" "" (pod_nodeName pod)) RelationshipPodNode
    (fold_left (λ m ips, AddDependencyByKey (ref_key "" "Secret" (pod_namespace pod) ips)
                            RelationshipPodImagePullSecret m) (pod_imagePullSecrets pod)
       (fold_left (pod_container (pod_namespace pod))
          (app (pod_initContainers pod) (pod_containers pod)) newRelationshipMap))).
  intros m0 H0.
  destruct (negb (String.length (pod_priorityClassName pod) =? 0));
  (destruct (pod_runtimeClassName pod) as [rc|]; [destruct (negb (String.length rc =? 0))|]);
  destruct (pod_annotations pod !! "kubernetes.io/psp");
  destruct (negb (String.length (pod_serviceAccountName pod) =? 0));
  repeat apply add_key_keeps; exact H0.
Qed.


(** A Pod of the universe depends on the Node its [spec.nodeName] names:
    when a node has the key [\Node\\nodeName] in the key index, the
    resolved graph has the edge Pod --PodNode--> Node, for every
    iteration order of the index. *)
Theorem pod_depends_on_node iter m objects u k p n pod q :
  (∀ mp, iter mp ≡ₚ map_to_list mp) → build_universe m 0 objects empty_universe = inr u →
  globalMapByUID u !! k = Some p → heap u !! p = Some n →
  Group n = "" → Kind n = "Pod" → d_Pod (Unstructured n) = Some pod →
  globalMapByKey u !! ref_key "" "Node" "" (pod_nodeName pod) = Some q →
  has_edge (build_graph iter extract_kube u) p q RelationshipPodNode.
Proof.
  intros Hperm Hu Hk Hn Hg Hkd Hd Hq.
  destruct (getPodRelationships_node n pod Hd) as (rmap & Hr & HR).
  eapply (build_graph_ref_edges iter extract_kube m objects u k p n rmap); try eassumption.
  intros n' Es. destruct (static_fields _ _ Es) as (Eu & _ & Eg & Ek & _).
  rewrite extract_pod, extract_kube_pod by congruence.
  unfold getPodRelationships in *. rewrite Eu. exact Hr.
Qed.

Lemma fold_add_member {A} (proj : RelationshipMap → gmap string RelationshipSet)
  (f : RelationshipMap → A → RelationshipMap) (key : A → string) R l m a :
  (∀ m a, proj (f m a) = add_rel (key a) R (proj m)) → a ∈ l →
  R ∈ rels (proj (fold_left f l m)) (key a).
Proof.
  intros Hf. revert m. induction l as [|b l IH]; intros m Hin; [apply elem_of_nil in Hin; contradiction|].
  simpl. apply elem_of_cons in Hin as [<-|Hin]; [|auto].
  apply (fold_pres (λ m', R ∈ rels (proj m') (key a))).
  - intros x c Hx. rewrite Hf. apply elem_rels_add_rel. auto.
  - rewrite Hf. apply elem_rels_add_rel. auto.
Qed.

Lemma extract_service_account extract_other n :
  Group n = "" → Kind n = "ServiceAccount" → extract extract_other n = extract_other n.
Proof. by_dispatch. Qed.

Lemma extract_kube_service_account n :
  Group n = "" → Kind n = "ServiceAccount" → extract_kube n = getServiceAccountRelationships n.
Proof. by_dispatch. Qed.

Lemma extract_claim extract_other n :
  Group n = "" → Kind n = "PersistentVolumeClaim" → extract extract_other n = extract_other n.
Proof. by_dispatch. Qed.

Lemma extract_kube_claim n :
  Group n = "" → Kind n = "PersistentVolumeClaim" →
  extract_kube n = getPersistentVolumeClaimRelationships n.
Proof. by_dispatch. Qed.

(** A ServiceAccount's [imagePullSecrets] become its dependencies and its
    [secrets] its dependents: for a Secret of the SA's namespace found in
    the key index, the resolved graph has SA --ServiceAccountImagePullSecret-->
    Secret for the first and Secret --ServiceAccountSecret--> SA for the
    second. *)
Theorem service_account_secret_edges iter m objects u k p n ns ips secs s q :
  (∀ mp, iter mp ≡ₚ map_to_list mp) → build_universe m 0 objects empty_universe = inr u →
  globalMapByUID u !! k = Some p → heap u !! p = Some n →
  Group n = "" → Kind n = "ServiceAccount" → d_ServiceAccount (Unstructured n) = Some (ns, ips, secs) →
  globalMapByKey u !! ref_key "" "Secret" ns s = Some q →
  (s ∈ ips → has_edge (build_graph iter extract_kube u) p q RelationshipServiceAccountImagePullSecret) ∧
  (s ∈ secs → has_edge (build_graph iter extract_kube u) q p RelationshipServiceAccountSecret).
Proof.
  intros Hperm Hu Hk Hn Hg Hkd Hd Hq.
  destruct (build_graph_ref_edges iter extract_kube m objects u k p n
              (fold_left (λ m s, AddDependentByKey (ref_key "" "Secret" ns s) RelationshipServiceAccountSecret m)
                 secs (fold_left (λ m s, AddDependencyByKey (ref_key "" "Secret" ns s)
                                           RelationshipServiceAccountImagePullSecret m) ips newRelationshipMap)))
    as [Hout Hin]; try assumption.
  { intros n' Es. destruct (static_fields _ _ Es) as (Eu & _ & Eg & Ek & _).
    rewrite extract_service_account, extract_kube_service_account by congruence.
    unfold getServiceAccountRelationships. rewrite Eu, Hd. reflexivity. }
  split; intros Hs.
  - apply (Hout (ref_key "" "Secret" ns s) q); [|exact Hq].
    apply (fold_pres (λ m', RelationshipServiceAccountImagePullSecret ∈
                              rels (DependenciesByRef m') (ref_key "" "Secret" ns s))); [intros; assumption|].
    apply (fold_add_member DependenciesByRef
             (λ m s, AddDependencyByKey (ref_key "" "Secret" ns s) RelationshipServiceAccountImagePullSecret m)
             (λ s, ref_key "" "Secret" ns s)); [reflexivity|exact Hs].
  - apply (Hin (ref_key "" "Secret" ns s) q); [|exact Hq].
    apply (fold_add_member DependentsByRef
             (λ m s, AddDependentByKey (ref_key "" "Secret" ns s) RelationshipServiceAccountSecret m)
             (λ s, ref_key "" "Secret" ns s)); [reflexivity|exact Hs].
Qed.

(** A PersistentVolumeClaim bound to a volume ([spec.volumeName] not
    empty) depends on it: when a node has the key [\PersistentVolume\\name]
    the resolved graph has PVC --PersistentVolumeClaim--> PV. *)
Theorem claim_depends_on_volume iter m objects u k p n pv q :
  (∀ mp, iter mp ≡ₚ map_to_list mp) → build_universe m 0 objects empty_universe = inr u →
  globalMapByUID u !! k = Some p → heap u !! p = Some n →
  Group n = "" → Kind n = "PersistentVolumeClaim" →
  d_PersistentVolumeClaim (Unstructured n) = Some pv → pv ≠ "" →
  globalMapByKey u !! ref_key "" "PersistentVolume" "" pv = Some q →
  has_edge (build_graph iter extract_kube u) p q RelationshipPersistentVolumeClaim.
Proof.
  intros Hperm Hu Hk Hn Hg Hkd Hd Hpv Hq.
  eapply (build_graph_ref_edges iter extract_kube m objects u k p n
            (AddDependencyByKey (ref_key "" "PersistentVolume" "" pv) RelationshipPersistentVolumeClaim
               newRelationshipMap)); try eassumption.
  - intros n' Es. destruct (static_fields _ _ Es) as (Eu & _ & Eg & Ek & _).
    rewrite extract_claim, extract_kube_claim by congruence.
    unfold getPersistentVolumeClaimRelationships. rewrite Eu, Hd. simpl.
    destruct pv as [|c pv]; [contradiction|reflexivity].
  - apply add_key_here.
Qed.

(** [ObjectReference.Key] is injective on references whose group, kind
    and namespace hold no backslash (the name may hold any character). *)
Theorem RefKey_injective a b :
  count_bs (ref_group a) = 0 → count_bs (ref_kind a) = 0 → count_bs (ref_namespace a) = 0 →
  count_bs (ref_group b) = 0 → count_bs (ref_kind b) = 0 → count_bs (ref_namespace b) = 0 →
  RefKey a = RefKey b ↔ a = b.
Proof.
  intros Ga Ka Na Gb Kb Nb. split; [|intros ->; reflexivity].
  destruct a as [ga ka na ma], b as [gb kb nb mb]; simpl in *. unfold RefKey. cbn [ref_group ref_kind ref_namespace ref_name].
  intros E. apply split_bs in E as [-> E]; [|assumption|assumption].
  apply split_bs in E as [-> E]; [|assumption|assumption].
  apply split_bs in E as [-> ->]; [reflexivity|assumption|assumption].
Qed.

Lemma dependents_other K R R' k m :
  R' ≠ R → (∀ j, R ∈ rels (DependentsByRef m) j ↔ j = K) →
  (∀ j, R ∈ rels (DependentsByRef (AddDependentByKey k R' m)) j ↔ j = K).
Proof.
  intros Hne Hm j. simpl. rewrite elem_rels_add_rel, <- Hm. split; [|auto].
  intros [[_ E]|H]; [congruence|exact H].
Qed.

Lemma only_key_base proj R K :
  proj newRelationshipMap = ∅ → ∀ j, R ∈ rels (add_rel K R (proj newRelationshipMap)) j ↔ j = K.
Proof.
  intros E j. rewrite elem_rels_add_rel, E. unfold rels. rewrite lookup_empty. simpl. set_solver.
Qed.

(** The claim reference of a PersistentVolume is recorded under the key
    of a PersistentVolumeClaim in the PV's own namespace, whatever
    namespace [spec.claimRef] names: the dependents by reference carry
    [PersistentVolumeClaim] under exactly that key. A PV is cluster
    scoped (namespace ""), and the key encodes the namespace, so it never
    designates a claim that lives in a namespace. *)
Theorem persistent_volume_claim_key n ns spec name cns :
  d_PersistentVolume (Unstructured n) = Some (ns, spec) → pvs_claimRef spec = Some (name, cns) →
  ∃ r, getPersistentVolumeRelationships n = Some r ∧
       ∀ k, RelationshipPersistentVolumeClaim ∈ rels (DependentsByRef r) k ↔
            k = ref_key "" "PersistentVolumeClaim" ns name.
Proof.
  intros Hd Hc. unfold getPersistentVolumeRelationships. rewrite Hd. simpl. rewrite Hc.
  eexists. split; [reflexivity|].
  pose proof (only_key_base DependentsByRef RelationshipPersistentVolumeClaim
                (ref_key "" "PersistentVolumeClaim" ns name) eq_refl) as H0.
  change (add_rel _ _ _) with (DependentsByRef (AddDependentByKey (ref_key "" "PersistentVolumeClaim" ns name)
    RelationshipPersistentVolumeClaim newRelationshipMap)) in H0.
  revert H0. generalize (AddDependentByKey (ref_key "" "PersistentVolumeClaim" ns name)
    RelationshipPersistentVolumeClaim newRelationshipMap). intros m0 H0.
  assert (Hne : RelationshipPersistentVolumeCSIDriverSecret ≠ RelationshipPersistentVolumeClaim)
    by discriminate.
  destruct (pvs_csi spec) as [csi|].
  - destruct (negb (String.length (pvs_storageClassName spec) =? 0)); simpl;
    destruct (negb (String.length (csi_driver csi) =? 0)); simpl;
    unfold csi_secrets;
    destruct (csi_controllerExpandSecretRef csi) as [[? ?]|], (csi_controllerPublishSecretRef csi) as [[? ?]|],
             (csi_nodePublishSecretRef csi) as [[? ?]|], (csi_nodeStageSecretRef csi) as [[? ?]|];
    repeat (apply dependents_other; [exact Hne|]); exact H0.
  - destruct (negb (String.length (pvs_storageClassName spec) =? 0)); exact H0.
Qed.

Lemma binding_subjects_deps r subs m :
  DependenciesByRef (binding_subjects r subs m) = DependenciesByRef m.
Proof.
  unfold binding_subjects. apply (fold_pres (λ x, DependenciesByRef x = DependenciesByRef m));
    [intros x s Hx; exact Hx|reflexivity].
Qed.

(** The role a binding refers to is a dependency by reference under a
    single key: a RoleBinding looks its [roleRef] up in its own
    namespace, a ClusterRoleBinding in namespace "". As the key encodes
    the namespace, a RoleBinding in a namespace never resolves a
    [roleRef] to a cluster-scoped ClusterRole. *)
Theorem binding_role_keys n ns subs rr :
  d_binding (Unstructured n) = Some (ns, subs, rr) →
  (∃ r, getRoleBindingRelationships n = Some r ∧
        ∀ k, RelationshipRoleBindingRole ∈ rels (DependenciesByRef r) k ↔
             k = ref_key (rr_apiGroup rr) (rr_kind rr) ns (rr_name rr)) ∧
  (∃ r, getClusterRoleBindingRelationships n = Some r ∧
        ∀ k, RelationshipClusterRoleBindingRole ∈ rels (DependenciesByRef r) k ↔
             k = ref_key (rr_apiGroup rr) (rr_kind rr) "" (rr_name rr)).
Proof.
  intros Hd. unfold getRoleBindingRelationships, getClusterRoleBindingRelationships. rewrite Hd. simpl.
  split; eexists; (split; [reflexivity|]); simpl; rewrite binding_subjects_deps;
    apply only_key_base; reflexivity.
Qed.



Lemma pod_key_ok k r m :
  r ∈ pod_rels → by_ref_deps_only m ∧ ref_rels_in pod_rels m →
  by_ref_deps_only (AddDependencyByKey k r m) ∧ ref_rels_in pod_rels (AddDependencyByKey k r m).
Proof. intros Hr [Hm Hi]. split; [exact Hm|apply add_key_rels_in; assumption]. Qed.

Ltac pod_keys :=
  repeat (apply pod_key_ok; [unfold pod_rels; set_solver|]).

Lemma pod_container_ok ns m c :
  by_ref_deps_only m ∧ ref_rels_in pod_rels m →
  by_ref_deps_only (pod_container ns m c) ∧ ref_rels_in pod_rels (pod_container ns m c).
Proof.
  intros H. unfold pod_container.
  apply (fold_pres (λ x, by_ref_deps_only x ∧ ref_rels_in pod_rels x)).
  - intros x [vf|] Hx; [|exact Hx]. destruct (evs_configMapKeyRef vf), (evs_secretKeyRef vf); pod_keys; exact Hx.
  - apply (fold_pres (λ x, by_ref_deps_only x ∧ ref_rels_in pod_rels x)); [|exact H].
    intros x env Hx. destruct (ef_configMapRef env), (ef_secretRef env); pod_keys; exact Hx.
Qed.

Lemma pod_volume_ok ns m vs :
  by_ref_deps_only m ∧ ref_rels_in pod_rels m →
  by_ref_deps_only (pod_volume ns m vs) ∧ ref_rels_in pod_rels (pod_volume ns m vs).
Proof.
  intros H. unfold pod_volume.
  destruct (vs_configMap vs); [pod_keys; exact H|].
  destruct (vs_csi vs) as [csi|]; [destruct (csiv_nodePublishSecretRef csi); pod_keys; exact H|].
  destruct (vs_persistentVolumeClaim vs); [pod_keys; exact H|].
  destruct (vs_projected vs) as [srcs|].
  - apply (fold_pres (λ x, by_ref_deps_only x ∧ ref_rels_in pod_rels x)); [|exact H].
    intros x src Hx. destruct (vp_configMap src), (vp_secret src); pod_keys; exact Hx.
  - destruct (vs_secret vs); pod_keys; exact H.
Qed.

(** The Pod extractor only records dependencies by reference: every other
    bucket of its result is empty (a Pod never declares a dependent, a
    selector or a UID reference), and each relationship it records is one
    of the ten Pod relationship kinds. *)
Theorem getPodRelationships_by_ref_only n r :
  getPodRelationships n = Some r → by_ref_deps_only r ∧ ref_rels_in pod_rels r.
Proof.
  unfold getPodRelationships. destruct (d_Pod (Unstructured n)) as [pod|]; simpl; [|discriminate].
  intros E. injection E as <-.
  apply (fold_pres (λ x, by_ref_deps_only x ∧ ref_rels_in pod_rels x)); [intros; apply pod_volume_ok; assumption|].
  assert (H0 : by_ref_deps_only newRelationshipMap ∧ ref_rels_in pod_rels newRelationshipMap).
  { split; [repeat split|]. intros k R HR. simpl in HR. unfold rels in HR. rewrite lookup_empty in HR.
    simpl in HR. set_solver. }
  assert (H1 := fold_pres (λ x, by_ref_deps_only x ∧ ref_rels_in pod_rels x) (pod_container (pod_namespace pod))
    (app (pod_initContainers pod) (pod_containers pod)) newRelationshipMap
    (λ x c Hx, pod_container_ok _ x c Hx) H0).
  assert (H2 := fold_pres (λ x, by_ref_deps_only x ∧ ref_rels_in pod_rels x)
    (λ m ips, AddDependencyByKey (ref_key "" "Secret" (pod_namespace pod) ips) RelationshipPodImagePullSecret m)
    (pod_imagePullSecrets pod) _ (λ x c Hx, ltac:(pod_keys; exact Hx)) H1).
  revert H2. generalize (fold_left (λ m ips, AddDependencyByKey (ref_key "" "Secret" (pod_namespace pod) ips)
    RelationshipPodImagePullSecret m) (pod_imagePullSecrets pod)
    (fold_left (pod_container (pod_namespace pod)) (app (pod_initContainers pod) (pod_containers pod))
       newRelationshipMap)). intros m0 H2.
  destruct (negb (String.length (pod_priorityClassName pod) =? 0));
  (destruct (pod_runtimeClassName pod) as [rc|]; [destruct (negb (String.length rc =? 0))|]);
  destruct (pod_annotations pod !! "kubernetes.io/psp");
  destruct (negb (String.length (pod_serviceAccountName pod) =? 0));
  pod_keys; exact H2.
Qed.

(** [resolveDeps_terminates] on a ConfigMap root. *)
Lemma resolveDeps_terminates_witness :
  ∃ fuel r, resolveDeps map_to_list (λ _, None) fuel demo_mapper [cm_w1] ["w1"] true = Some r.
Proof.
  apply resolveDeps_terminates.
  - intros o Ho. apply list_elem_of_singleton in Ho as ->. intros E. vm_compute in E. discriminate E.
  - intros Hin. apply list_elem_of_singleton in Hin. discriminate Hin.
Defined.

(** [resolveDeps_empty_uid_root_diverges] on an object without a UID,
    requested by the empty UID. *)
Lemma resolveDeps_empty_uid_root_diverges_witness :
  resolveDeps map_to_list (λ _, None) 100 demo_mapper [cm_nouid] [""] true = None.
Proof.
  destruct (build_universe demo_mapper 0 [cm_nouid] empty_universe) as [e|u] eqn:Hu;
    [vm_compute in Hu; discriminate|].
  pose proof Hu as Hu'. vm_compute in Hu'. injection Hu' as Hu'.
  apply (resolveDeps_empty_uid_root_diverges _ _ _ _ _ _ _ u Hu).
  - rewrite <- Hu'. vm_compute. eexists. reflexivity.
  - apply list_elem_of_singleton. reflexivity.
Defined.

(** [resolveDeps_entries_follow_index] on a ConfigMap root next to a Node. *)
Lemma resolveDeps_entries_follow_index_witness :
  ∃ u nm e, build_universe demo_mapper 0 [cm_w1; node_named "w" "n"] empty_universe = inr u ∧
    resolveDeps map_to_list (λ _, None) 100 demo_mapper [cm_w1; node_named "w" "n"] ["w1"] true =
      Some (Some nm, e) ∧
    (∀ k on, nm !! k = Some on →
       Unstructured <$> on = (globalMapByUID u !! k ≫= fun p => Unstructured <$> heap u !! p)) ∧
    (∀ r, r ∈ ["w1"] → is_Some (globalMapByUID u !! r) → ∃ n, nm !! r = Some (Some n)).
Proof.
  destruct (build_universe demo_mapper 0 [cm_w1; node_named "w" "n"] empty_universe) as [err|u] eqn:Hu;
    [vm_compute in Hu; discriminate|].
  destruct (resolveDeps map_to_list (λ _, None) 100 demo_mapper [cm_w1; node_named "w" "n"] ["w1"] true)
    as [[[nm|] e]|] eqn:E; try (vm_compute in E; discriminate).
  exists u, nm, e. split; [reflexivity|]. split; [reflexivity|].
  exact (resolveDeps_entries_follow_index _ _ _ _ _ _ _ u nm e Hu E).
Defined.

(** [resolveDeps_no_root_found] with a root UID absent from the objects. *)
Lemma resolveDeps_no_root_found_witness :
  resolveDeps map_to_list (λ _, None) 10 demo_mapper [cm_w1] ["zz"] true = Some (Some ∅, None).
Proof.
  destruct (build_universe demo_mapper 0 [cm_w1] empty_universe) as [e|u] eqn:Hu;
    [vm_compute in Hu; discriminate|].
  pose proof Hu as Hu'. vm_compute in Hu'. injection Hu' as Hu'.
  apply (resolveDeps_no_root_found _ _ 9 _ _ _ _ u Hu).
  intros r Hr. apply list_elem_of_singleton in Hr as ->. rewrite <- Hu'. vm_compute. reflexivity.
Defined.

(** [owner_references_linked] on a ConfigMap owned by a Node. *)
Lemma owner_references_linked_witness :
  ∃ u, build_universe demo_mapper 0 [node_named "w" "n"; cm_owned] empty_universe = inr u ∧
       has_edge (build_graph map_to_list (λ _, None) u) 1 0 RelationshipOwnerRef.
Proof.
  destruct (build_universe demo_mapper 0 [node_named "w" "n"; cm_owned] empty_universe) as [e|u] eqn:Hu;
    [vm_compute in Hu; discriminate|].
  exists u. split; [reflexivity|].
  pose proof Hu as Hu'. vm_compute in Hu'. injection Hu' as Hu'.
  destruct (heap u !! 1) as [n|] eqn:Hn; [|rewrite <- Hu' in Hn; vm_compute in Hn; discriminate].
  destruct (OwnerReferences n) as [|ref rest] eqn:Ho; concretize Hu' Hn; [vm_compute in Ho; discriminate|].
  pose proof Ho as Ho'. vm_compute in Ho'. injection Ho' as <- <-.
  refine (proj1 (owner_references_linked map_to_list (λ _, None) demo_mapper _ u "c" 1 _ _ 0
                   (λ _, reflexivity _) Hu _ Hn _ _)).
  - rewrite <- Hu'. vm_compute. reflexivity.
  - rewrite Ho. apply elem_of_cons. left. reflexivity.
  - rewrite <- Hu'. vm_compute. reflexivity.
Defined.

(** [key_index_last] at the key of a Node. *)
Lemma key_index_last_witness :
  ∃ u, build_universe demo_mapper 0 [cm_w1; node_named "w1" "n"] empty_universe = inr u ∧
       (globalMapByKey u !! ref_key "" "Node" "" "w1" = Some 1 ↔ last_key u (ref_key "" "Node" "" "w1") 1).
Proof.
  destruct (build_universe demo_mapper 0 [cm_w1; node_named "w1" "n"] empty_universe)
    as [e|u] eqn:Hu; [vm_compute in Hu; discriminate|].
  exists u. split; [reflexivity|]. exact (key_index_last _ _ _ _ _ Hu).
Defined.

(** [RelationshipSet_List_sorted] on a two-element set. *)
Lemma RelationshipSet_List_sorted_witness :
  let s : RelationshipSet := {[RelationshipService; RelationshipOwnerRef]} in
  RelationshipSet_List elements s = RelationshipSet_List elements s ∧
  StronglySorted (fun a b => String.le a b ∧ a ≠ b) (RelationshipSet_List elements s) ∧
  (∀ x, x ∈ RelationshipSet_List elements s ↔ x ∈ s).
Proof. intros s. apply RelationshipSet_List_sorted. intros s'. reflexivity. Defined.

(** [pod_depends_on_node] on a Pod scheduled on Node [w]. *)
Lemma pod_depends_on_node_witness :
  ∃ u, build_universe demo_mapper 0 [pod_on "p" "default" "w"; node_named "w" "n"] empty_universe = inr u ∧
       has_edge (build_graph map_to_list extract_kube u) 0 1 RelationshipPodNode.
Proof.
  destruct (build_universe demo_mapper 0 [pod_on "p" "default" "w"; node_named "w" "n"] empty_universe)
    as [e|u] eqn:Hu; [vm_compute in Hu; discriminate|].
  exists u. split; [reflexivity|].
  pose proof Hu as Hu'. vm_compute in Hu'. injection Hu' as Hu'.
  destruct (heap u !! 0) as [n|] eqn:Hn; [|rewrite <- Hu' in Hn; vm_compute in Hn; discriminate].
  destruct (d_Pod (Unstructured n)) as [pd|] eqn:Hd; concretize Hu' Hn; [|vm_compute in Hd; discriminate].
  pose proof Hd as Hd'. vm_compute in Hd'. injection Hd' as <-.
  refine (pod_depends_on_node map_to_list demo_mapper _ u "p" 0 _ _ 1 (λ _, reflexivity _) Hu _ Hn
            eq_refl eq_refl Hd _); rewrite <- Hu'; vm_compute; reflexivity.
Defined.

(** [service_account_secret_edges] on a ServiceAccount with a token
    secret [tok] and a registry secret [reg]. *)
Lemma service_account_secret_edges_witness :
  ∃ u, build_universe kube_mapper 0 [sa_x; secret "tok"; secret "reg"] empty_universe = inr u ∧
       has_edge (build_graph map_to_list extract_kube u) 0 2 RelationshipServiceAccountImagePullSecret ∧
       has_edge (build_graph map_to_list extract_kube u) 1 0 RelationshipServiceAccountSecret.
Proof.
  destruct (build_universe kube_mapper 0 [sa_x; secret "tok"; secret "reg"] empty_universe)
    as [e|u] eqn:Hu; [vm_compute in Hu; discriminate|].
  exists u. split; [reflexivity|].
  pose proof Hu as Hu'. vm_compute in Hu'. injection Hu' as Hu'.
  destruct (heap u !! 0) as [n|] eqn:Hn; [|rewrite <- Hu' in Hn; vm_compute in Hn; discriminate].
  concretize Hu' Hn. split.
  - refine (proj1 (service_account_secret_edges map_to_list kube_mapper _ u "sa" 0 _ "default" ["reg"]
             ["tok"] "reg" 2 (λ _, reflexivity _) Hu _ Hn eq_refl eq_refl eq_refl _) _);
      [rewrite <- Hu'; vm_compute; reflexivity|rewrite <- Hu'; vm_compute; reflexivity|].
    apply list_elem_of_singleton. reflexivity.
  - refine (proj2 (service_account_secret_edges map_to_list kube_mapper _ u "sa" 0 _ "default" ["reg"]
             ["tok"] "tok" 1 (λ _, reflexivity _) Hu _ Hn eq_refl eq_refl eq_refl _) _);
      [rewrite <- Hu'; vm_compute; reflexivity|rewrite <- Hu'; vm_compute; reflexivity|].
    apply list_elem_of_singleton. reflexivity.
Defined.

(** [claim_depends_on_volume] on a claim bound to volume [pv1]. *)
Lemma claim_depends_on_volume_witness :
  ∃ u, build_universe kube_mapper 0 [pvc_x; pv_x] empty_universe = inr u ∧
       has_edge (build_graph map_to_list extract_kube u) 0 1 RelationshipPersistentVolumeClaim.
Proof.
  destruct (build_universe kube_mapper 0 [pvc_x; pv_x] empty_universe) as [e|u] eqn:Hu;
    [vm_compute in Hu; discriminate|].
  exists u. split; [reflexivity|].
  pose proof Hu as Hu'. vm_compute in Hu'. injection Hu' as Hu'.
  destruct (heap u !! 0) as [n|] eqn:Hn; [|rewrite <- Hu' in Hn; vm_compute in Hn; discriminate].
  concretize Hu' Hn.
  refine (claim_depends_on_volume map_to_list kube_mapper _ u "pvc" 0 _ "pv1" 1 (λ _, reflexivity _) Hu _ Hn
            eq_refl eq_refl eq_refl _ _); [rewrite <- Hu'; vm_compute; reflexivity|discriminate|].
  rewrite <- Hu'. vm_compute. reflexivity.
Defined.

(** [RefKey_injective] on the keys of two ConfigMaps of different namespaces. *)
Lemma RefKey_injective_witness :
  RefKey {| ref_group := ""; ref_kind := "ConfigMap"; ref_namespace := "a"; ref_name := "c" |} =
  RefKey {| ref_group := ""; ref_kind := "ConfigMap"; ref_namespace := "b"; ref_name := "c" |} ↔
  {| ref_group := ""; ref_kind := "ConfigMap"; ref_namespace := "a"; ref_name := "c" |} =
  {| ref_group := ""; ref_kind := "ConfigMap"; ref_namespace := "b"; ref_name := "c" |}.
Proof. apply RefKey_injective; reflexivity. Defined.

(** [persistent_volume_claim_key] on a volume whose [claimRef] names the
    claim [default/data]. *)
Lemma persistent_volume_claim_key_witness :
  ∃ r, getPersistentVolumeRelationships (node_of "" "PersistentVolume" "persistentvolumes" pv_x) = Some r ∧
       ∀ k, RelationshipPersistentVolumeClaim ∈ rels (DependentsByRef r) k ↔
            k = ref_key "" "PersistentVolumeClaim" "" "data".
Proof.
  apply (persistent_volume_claim_key _ "" {| pvs_claimRef := Some ("data", "default"); pvs_csi := None;
                                             pvs_storageClassName := "" |} "data" "default");
    vm_compute; reflexivity.
Defined.

(** [binding_role_keys] on a RoleBinding of namespace [default] that
    refers to the ClusterRole [view]. *)
Lemma binding_role_keys_witness :
  let n := node_of "rbac.authorization.k8s.io" "RoleBinding" "rolebindings" rb_x in
  let rr := {| rr_apiGroup := "rbac.authorization.k8s.io"; rr_kind := "ClusterRole"; rr_name := "view" |} in
  (∃ r, getRoleBindingRelationships n = Some r ∧
        ∀ k, RelationshipRoleBindingRole ∈ rels (DependenciesByRef r) k ↔
             k = ref_key (rr_apiGroup rr) (rr_kind rr) "default" (rr_name rr)) ∧
  (∃ r, getClusterRoleBindingRelationships n = Some r ∧
        ∀ k, RelationshipClusterRoleBindingRole ∈ rels (DependenciesByRef r) k ↔
             k = ref_key (rr_apiGroup rr) (rr_kind rr) "" (rr_name rr)).
Proof. intros n rr. apply (binding_role_keys n "default" []). vm_compute. reflexivity. Defined.

(** [getPodRelationships_by_ref_only] on a scheduled Pod. *)
Lemma getPodRelationships_by_ref_only_witness :
  ∃ r, getPodRelationships (node_of "" "Pod" "pods" (pod_on "p" "default" "w")) = Some r ∧
       by_ref_deps_only r ∧ ref_rels_in pod_rels r.
Proof.
  destruct (getPodRelationships (node_of "" "Pod" "pods" (pod_on "p" "default" "w"))) as [r|] eqn:E;
    [|vm_compute in E; discriminate].
  exists r. split; [reflexivity|]. exact (getPodRelationships_by_ref_only _ r E).
Defined.
